(** * ngram-grader: effort classifiers, permutation generator and the
      binary-search placement manager

    A shallow embedding of [app/effort.py] and
    [app/sort_app/placement_manager.py], followed by the properties of the
    written specification stated over it.

    Conventions.
    - Python [int] is [Z]; lengths, list positions and the manager's cursor
      (never negative in the source) are [nat].
    - A key sequence ([tuple[int, ...]]) is a [list Z].
    - A [dict] is a [gmap]; a [set] is a [gset].
    - An exception is a value of [exn]; a function that may raise returns a
      [result].  Methods of the manager run in a state monad in which the
      object survives a raised exception with the mutations done so far.
    - The manager's attributes [all_ngrams] and [ordered_ngrams] refer to
      list objects that [load_state] can make one and the same; the state
      records what the lists hold and whether they are one object, and a
      change made in place to a shared list shows in both attributes. *)

From Stdlib Require Import ZArith List Lia.
From stdpp Require Import base decidable option list gmap strings sorting.

Local Open Scope Z_scope.

(** ** Exceptions and results *)

Inductive exn : Type :=
| IndexError
| ValueError
| KeyError.

Inductive result (A : Type) : Type :=
| Ok (a : A)
| Raise (e : exn).
Arguments Ok {A} a.
Arguments Raise {A} e.

#[global] Instance exn_eq_dec : EqDecision exn.
Proof. solve_decision. Defined.

#[global] Instance result_ret : MRet result := fun _ a => Ok a.
#[global] Instance result_bind : MBind result := fun _ _ k r =>
  match r with
  | Ok a => k a
  | Raise e => Raise e
  end.

(** [seq[i]] for a literal, non-negative [i]: [IndexError] out of range. *)
Definition getitem {A} (l : list A) (i : nat) : result A :=
  match l !! i with
  | Some a => Ok a
  | None => Raise IndexError
  end.

Module Effort.

(** ** Enumerations ([OrderedStrEnum]: ordered by their [value]) *)

Inductive FingerType : Type := T | I | M | R | P.

Inductive RepeatType : Type := REP | SFS | SFB | RSFT | SFT.

Inductive RowDiffType : Type :=
| RowDiff2u
| MiddleBelowIndex2u
| MiddleBelowPinky1u
| IndexBelowPinky2u
| MiddleBelowRing2u
| PinkyBelowRing2u
| MiddleBelowPinky2u
| RingBelowPinky1u
| RingBelowPinky2u.

Inductive DirectionType : Type :=
| Redirect1
| InwardsPinkyMiddle
| InwardsPinkyRing
| OutwardsMiddlePinky
| Redirect2
| OutwardsRingPinky
| Redirect3
| Redirect4.

#[global] Instance FingerType_eq_dec : EqDecision FingerType.
Proof. solve_decision. Defined.
#[global] Instance RepeatType_eq_dec : EqDecision RepeatType.
Proof. solve_decision. Defined.
#[global] Instance RowDiffType_eq_dec : EqDecision RowDiffType.
Proof. solve_decision. Defined.
#[global] Instance DirectionType_eq_dec : EqDecision DirectionType.
Proof. solve_decision. Defined.

Definition Ring := R.
Definition Index := I.
Definition Middle := M.
Definition Pinky := P.
Definition Thumb := T.

(** [auto()] numbers the members 1, 2, ... in declaration order. *)
Definition FingerType_value (f : FingerType) : Z :=
  match f with T => 1 | I => 2 | M => 3 | R => 4 | P => 5 end.

Definition RepeatType_value (r : RepeatType) : Z :=
  match r with REP => 1 | SFS => 2 | SFB => 3 | RSFT => 4 | SFT => 5 end.

(** The members of [DirectionType] carry the scores 0.4, 0.8, 1.5, 2.5, 3.1,
    7, 10 and 25; they are only ever compared with one another, so the
    embedding keeps ten times the score, which is an integer. *)
Definition DirectionType_value10 (d : DirectionType) : Z :=
  match d with
  | Redirect1 => 4
  | InwardsPinkyMiddle => 8
  | InwardsPinkyRing => 15
  | OutwardsMiddlePinky => 25
  | Redirect2 => 31
  | OutwardsRingPinky => 70
  | Redirect3 => 100
  | Redirect4 => 250
  end.

(** [OrderedStrEnum.__gt__] on [DirectionType]. *)
Definition DirectionType_gt (a b : DirectionType) : bool :=
  bool_decide (DirectionType_value10 a > DirectionType_value10 b).

(** The builtin [max(a, b)]: the first argument unless the second is
    strictly greater. *)
Definition max_direction (a b : DirectionType) : DirectionType :=
  if DirectionType_gt b a then b else a.

(** ** Bigram and trigram classifiers on fingers *)

Definition get_rowdiff_for_bigram
    (finger1 : FingerType) (row1 : Z) (finger2 : FingerType) (row2 : Z)
  : option RowDiffType :=
  (* max(..., key=row) and min(..., key=row) keep the first of two ties *)
  let lower_finger := if bool_decide (row2 > row1) then finger2 else finger1 in
  let higher_finger := if bool_decide (row2 < row1) then finger2 else finger1 in
  let diff := Z.abs (row1 - row2) in
  if bool_decide (diff = 0) then None
  else if bool_decide (lower_finger = M ∧ higher_finger = I) then
    if bool_decide (diff = 2) then Some MiddleBelowIndex2u else None
  else if bool_decide (lower_finger = M ∧ higher_finger = P) then
    if bool_decide (diff = 1) then Some MiddleBelowPinky1u
    else if bool_decide (diff = 2) then Some MiddleBelowPinky2u
    else None
  else if bool_decide (lower_finger = P ∧ higher_finger = R) then
    if bool_decide (diff = 2) then Some PinkyBelowRing2u else None
  else if bool_decide (lower_finger = R ∧ higher_finger = P) then
    if bool_decide (diff = 1) then Some RingBelowPinky1u
    else if bool_decide (diff = 2) then Some RingBelowPinky2u
    else None
  else if bool_decide (lower_finger = I ∧ higher_finger = P) then
    if bool_decide (diff = 2) then Some IndexBelowPinky2u else None
  else if bool_decide (lower_finger = M ∧ higher_finger = R) then
    if bool_decide (diff = 2) then Some MiddleBelowRing2u else None
  else if bool_decide (diff = 2) then Some RowDiff2u
  else None.

Definition get_direction_for_bigram (finger1 finger2 : FingerType)
  : option DirectionType :=
  if bool_decide (finger1 = P ∧ finger2 = R) then Some InwardsPinkyRing
  else if bool_decide (finger1 = P ∧ finger2 = M) then Some InwardsPinkyMiddle
  else if bool_decide (finger1 = M ∧ finger2 = P) then Some OutwardsMiddlePinky
  else if bool_decide (finger1 = R ∧ finger2 = P) then Some OutwardsRingPinky
  else None.

Definition get_direction_for_trigram (finger1 finger2 finger3 : FingerType)
  : option DirectionType :=
  let fingers := (finger1, finger2, finger3) in
  if bool_decide (fingers = (Ring, Index, Middle)
                  ∨ fingers = (Middle, Ring, Index)
                  ∨ fingers = (Index, Ring, Middle)
                  ∨ fingers = (Middle, Index, Ring)) then Some Redirect1
  else if bool_decide (fingers = (Middle, Index, Pinky)
                       ∨ fingers = (Ring, Index, Pinky)
                       ∨ fingers = (Pinky, Index, Middle)
                       ∨ fingers = (Pinky, Index, Ring)) then Some Redirect2
  else if bool_decide (fingers = (Index, Pinky, Middle)
                       ∨ fingers = (Middle, Pinky, Index)
                       ∨ fingers = (Index, Pinky, Ring)
                       ∨ fingers = (Ring, Pinky, Index)) then Some Redirect3
  else if bool_decide (fingers = (Pinky, Middle, Ring)
                       ∨ fingers = (Middle, Pinky, Ring)
                       ∨ fingers = (Ring, Pinky, Middle)
                       ∨ fingers = (Ring, Middle, Pinky)) then Some Redirect4
  else
    let bigram1 := get_direction_for_bigram finger1 finger2 in
    let bigram2 := get_direction_for_bigram finger2 finger3 in
    match bigram1, bigram2 with
    | None, _ => bigram2
    | Some _, None => bigram1
    | Some b1, Some b2 => Some (max_direction b1 b2)
    end.

(** ** The per-hand layout *)

Inductive HandType : Type := Left | Right.

Record Hand : Type := mkHand {
  hand : HandType;
  symbols : gmap Z string;
  fingers : gmap Z string;
  key_categories : gmap Z string;
  colors : gmap Z string;
  matrix_positions : gmap Z (Z * Z)  (* (column, row) *)
}.

(** [FingerType.from_str]: a dictionary lookup, [KeyError] on any other
    string. *)
Definition from_str (finger : string) : result FingerType :=
  if bool_decide (finger = "t"%string) then Ok T
  else if bool_decide (finger = "i"%string) then Ok I
  else if bool_decide (finger = "m"%string) then Ok M
  else if bool_decide (finger = "r"%string) then Ok R
  else if bool_decide (finger = "p"%string) then Ok P
  else Raise KeyError.

(** [Hand.get_finger]: [None] when the key has no entry or an empty one. *)
Definition get_finger (self : Hand) (key_idx : Z) : result (option FingerType) :=
  match self.(fingers) !! key_idx with
  | None => Ok None
  | Some f =>
      if bool_decide (f = EmptyString) then Ok None
      else x ← from_str f; Ok (Some x)
  end.

(** [Hand.get_repeats_tuple]. *)
Definition get_repeats_tuple (self : Hand) (key_seq : list Z)
  : result (option (RepeatType * FingerType)) :=
  if bool_decide (self.(fingers) = ∅) then Ok None
  else if bool_decide (length key_seq = 0%nat) then Ok None
  else if bool_decide (3 < length key_seq)%nat then Raise ValueError
  else if bool_decide (length key_seq = 1%nat) then Ok None
  else
    k0 ← getitem key_seq 0;
    f0 ← get_finger self k0;
    k1 ← getitem key_seq 1;
    f1 ← get_finger self k1;
    if bool_decide (length key_seq = 2%nat) then
      (* f0 == f1 and f0 is not None *)
      match f0 with
      | Some a =>
          if bool_decide (f0 = f1) then
            if bool_decide (k0 = k1) then Ok (Some (REP, a))
            else Ok (Some (SFB, a))
          else Ok None
      | None => Ok None
      end
    else
      (* length is 3 *)
      k2 ← getitem key_seq 2;
      f2 ← get_finger self k2;
      match f2, f0 with
      | Some c, Some a =>
          if bool_decide (f0 = f2 ∧ f0 ≠ f1) then Ok (Some (SFS, a))
          else if bool_decide (f0 = f2 ∧ f0 = f1) then
            if bool_decide (k0 = k1 ∧ k1 = k2) then Ok (Some (REP, a))
            else if bool_decide (k0 = k1 ∨ k1 = k2) then Ok (Some (RSFT, a))
            else Ok (Some (SFT, a))
          else if bool_decide (f0 = f1) then
            if bool_decide (k0 = k1) then Ok (Some (REP, a))
            else Ok (Some (SFB, a))
          else if bool_decide (f1 = f2) then Ok (Some (SFB, c))
          else Ok None
      | _, _ => Ok None (* f2 is None or f0 is None *)
      end.

(** [Hand.get_rowdiff]: a tuple of one or two members, or [None]. *)
Definition get_rowdiff (self : Hand) (key_seq : list Z)
  : result (option (list RowDiffType)) :=
  if bool_decide (length key_seq = 1%nat) then Ok None
  else if bool_decide (3 < length key_seq)%nat then Raise ValueError
  else
    k0 ← getitem key_seq 0;
    finger1 ← get_finger self k0;
    k1 ← getitem key_seq 1;
    finger2 ← get_finger self k1;
    match finger1, finger2 with
    | Some finger1, Some finger2 =>
        match self.(matrix_positions) !! k0, self.(matrix_positions) !! k1 with
        | Some coord1, Some coord2 =>
            let row1 := coord1.2 in
            let row2 := coord2.2 in
            let diff1 := get_rowdiff_for_bigram finger1 row1 finger2 row2 in
            if bool_decide (length key_seq = 2%nat) then
              match diff1 with
              | None => Ok None
              | Some d1 => Ok (Some [d1])
              end
            else
              (* 3 keys *)
              k2 ← getitem key_seq 2;
              finger3 ← get_finger self k2;
              match finger3 with
              | None => Ok None
              | Some finger3 =>
                  match self.(matrix_positions) !! k2 with
                  | None => Ok None
                  | Some coord3 =>
                      let row3 := coord3.2 in
                      let diff2 :=
                        get_rowdiff_for_bigram finger2 row2 finger3 row3 in
                      match diff2, diff1 with
                      | None, None => Ok None
                      | None, Some d1 => Ok (Some [d1])
                      | Some d2, None => Ok (Some [d2])
                      | Some d2, Some d1 => Ok (Some [d1; d2])
                      end
                  end
              end
        | _, _ => Ok None (* coord1 is None or coord2 is None *)
        end
    | _, _ => Ok None (* finger1 is None or finger2 is None *)
    end.

(** [Hand.get_direction]. *)
Definition get_direction (self : Hand) (key_seq : list Z)
  : result (option DirectionType) :=
  if bool_decide (length key_seq ≤ 1)%nat then Ok None
  else if bool_decide (3 < length key_seq)%nat then Raise ValueError
  else
    k0 ← getitem key_seq 0;
    finger1 ← get_finger self k0;
    k1 ← getitem key_seq 1;
    finger2 ← get_finger self k1;
    match finger1, finger2 with
    | Some finger1, Some finger2 =>
        if bool_decide (length key_seq = 2%nat) then
          Ok (get_direction_for_bigram finger1 finger2)
        else
          k2 ← getitem key_seq 2;
          finger3 ← get_finger self k2;
          match finger3 with
          | None => Ok None
          | Some finger3 => Ok (get_direction_for_trigram finger1 finger2 finger3)
          end
    | _, _ => Ok None (* finger1 is None or finger2 is None *)
    end.

(** ** Permutation generator *)

(** [get_union_of_keys]: [sorted(set(left.symbols) | set(right.symbols))]. *)
Definition get_union_of_keys (left right : Hand) : list Z :=
  merge_sort Z.le (elements (dom left.(symbols) ∪ dom right.(symbols))).

(** [itertools.product(pool, repeat=n)]: the tuples of length [n] over
    [pool], the leftmost position varying slowest.  (A negative [repeat]
    is rejected by [itertools]; the lengths are natural numbers here.) *)
Fixpoint product {A} (pool : list A) (repeat : nat) : list (list A) :=
  match repeat with
  | O => [[]]
  | S n => x ← pool; (x ::.) <$> product pool n
  end.

(** The inner loop of [permutation_is_typable] for one hand: it leaves
    [can_be_typed] true iff no key of the permutation is missing from the
    hand's symbols. *)
Definition can_be_typed (h : Hand) (permutation : list Z) : bool :=
  forallb (fun key => bool_decide (is_Some (h.(symbols) !! key))) permutation.

Definition permutation_is_typable (left right : Hand) (permutation : list Z)
  : bool :=
  if can_be_typed left permutation then true
  else if can_be_typed right permutation then true
  else false.

(** [create_permutations]: both loops append to [permutations_lst]. *)
Definition create_permutations (left right : Hand) (sequence_lengths : list nat)
  : list (list Z) :=
  let key_indices := get_union_of_keys left right in
  foldl
    (fun permutations_lst seq_length =>
       foldl
         (fun permutations_lst seq =>
            if negb (permutation_is_typable left right seq)
            then permutations_lst
            else permutations_lst ++ [seq])
         permutations_lst
         (product key_indices seq_length))
    [] sequence_lengths.

(** ** Symbols of a sequence *)

(** The loop of [Hand.get_symbols]: the symbols collected so far are lost
    as soon as a key has no symbol. *)
Fixpoint get_symbols_loop (self : Hand) (key_seq : list Z)
    (fallback symbols : string) : string :=
  match key_seq with
  | [] => symbols
  | key_idx :: rest =>
      match self.(Effort.symbols) !! key_idx with
      | None => fallback
      | Some s => get_symbols_loop self rest fallback (symbols +:+ s)
      end
  end.

(** [Hand.get_symbols]; the sequence may be [None]. *)
Definition get_symbols (self : Hand) (key_seq : option (list Z))
    (fallback : string) : string :=
  match key_seq with
  | None => fallback
  | Some key_seq => get_symbols_loop self key_seq fallback EmptyString
  end.

(** ** The two hands together *)

Definition RowDiffType_value (r : RowDiffType) : Z :=
  match r with
  | RowDiff2u => 1
  | MiddleBelowIndex2u => 2
  | MiddleBelowPinky1u => 3
  | IndexBelowPinky2u => 4
  | MiddleBelowRing2u => 5
  | PinkyBelowRing2u => 6
  | MiddleBelowPinky2u => 7
  | RingBelowPinky1u => 8
  | RingBelowPinky2u => 9
  end.

(** [b > a] on tuples [(RepeatType, FingerType)]: the first components that
    differ decide, with [OrderedStrEnum.__gt__]. *)
Definition repeats_gt (b a : RepeatType * FingerType) : bool :=
  if bool_decide (b.1 ≠ a.1)
  then bool_decide (RepeatType_value b.1 > RepeatType_value a.1)
  else if bool_decide (b.2 ≠ a.2)
  then bool_decide (FingerType_value b.2 > FingerType_value a.2)
  else false.

(** [max(t)] for a tuple of [RowDiffType]: the first of the greatest
    members, [ValueError] on an empty tuple. *)
Definition max_of_tuple (t : list RowDiffType) : result RowDiffType :=
  match t with
  | [] => Raise ValueError
  | x :: rest =>
      Ok (foldl (fun best item =>
                   if bool_decide (RowDiffType_value item > RowDiffType_value best)
                   then item else best)
                x rest)
  end.

Module Hands.

Record Hands : Type := mkHands {
  left : Hand;
  right : Hand
}.

(** [Hands.get_symbols]: [getattr(self, hand.lower())]. *)
Definition get_symbols (self : Hands) (hand : HandType)
    (key_seq : option (list Z)) (fallback : string) : string :=
  let handobj := match hand with Left => self.(left) | Right => self.(right) end in
  Effort.get_symbols handobj key_seq fallback.

(** [Hands.get_repeats_tuple]. *)
Definition get_repeats_tuple (self : Hands) (key_seq : list Z)
  : result (option (RepeatType * FingerType)) :=
  left_repeats ← Effort.get_repeats_tuple self.(left) key_seq;
  right_repeats ← Effort.get_repeats_tuple self.(right) key_seq;
  if bool_decide (left_repeats = right_repeats) then Ok left_repeats
  else
    match left_repeats, right_repeats with
    | None, None => Ok None
    | None, Some _ => Ok right_repeats
    | Some _, None => Ok left_repeats
    | Some l, Some r => Ok (Some (if repeats_gt r l then r else l))
    end.

(** [Hands.get_rowdiff]: [max(left_rowdiff, right_rowdiff, key=max)]. *)
Definition get_rowdiff (self : Hands) (key_seq : list Z)
  : result (option (list RowDiffType)) :=
  left_rowdiff ← Effort.get_rowdiff self.(left) key_seq;
  right_rowdiff ← Effort.get_rowdiff self.(right) key_seq;
  if bool_decide (left_rowdiff = right_rowdiff) then Ok left_rowdiff
  else
    match left_rowdiff, right_rowdiff with
    | None, None => Ok None
    | None, Some _ => Ok right_rowdiff
    | Some _, None => Ok left_rowdiff
    | Some l, Some r =>
        key_l ← max_of_tuple l;
        key_r ← max_of_tuple r;
        Ok (Some (if bool_decide (RowDiffType_value key_r > RowDiffType_value key_l)
                  then r else l))
    end.

(** [Hands.get_direction]. *)
Definition get_direction (self : Hands) (key_seq : list Z)
  : result (option DirectionType) :=
  direction_left ← Effort.get_direction self.(left) key_seq;
  direction_right ← Effort.get_direction self.(right) key_seq;
  if bool_decide (direction_left = direction_right) then Ok direction_left
  else
    match direction_left, direction_right with
    | None, _ => Ok direction_right
    | Some _, None => Ok direction_left
    | Some l, Some r => Ok (Some (max_direction l r))
    end.

End Hands.

End Effort.

Module Placement.

Local Open Scope nat_scope.

Abbreviation KeySeq := (list Z).

Inductive SideName : Type := side_left | side_right.

#[global] Instance SideName_eq_dec : EqDecision SideName.
Proof. solve_decision. Defined.

Record NgramPlacementState : Type := mkPlacementState {
  highest_low : option KeySeq;
  lowest_high : option KeySeq;
  low_effort_sequences : list KeySeq;
  hight_effort_sequences : list KeySeq
}.

#[global] Instance NgramPlacementState_eq_dec : EqDecision NgramPlacementState.
Proof. solve_decision. Defined.

(** The 4-tuple of the split, unpacked into an [NgramPlacementState]. *)
Definition new_state
    (t : option KeySeq * option KeySeq * list KeySeq * list KeySeq)
  : NgramPlacementState :=
  let '(a, b, c, d) := t in mkPlacementState a b c d.

(** [split_ordered_ngrams_into_two_halfs].  [n / 2 != midpoint] compares the
    true quotient with the floored one: it holds iff [2 * midpoint ≠ n]. *)
Definition split_ordered_ngrams_into_two_halfs
    (ordered_key_sequences : list KeySeq) (larger_size : SideName)
  : option KeySeq * option KeySeq * list KeySeq * list KeySeq :=
  let n := length ordered_key_sequences in
  let midpoint := n `div` 2 in
  let midpoint :=
    if bool_decide (n ≠ 2 * midpoint) && bool_decide (larger_size = side_left)
    then midpoint + 1 else midpoint in
  let low_effort_sequences := take midpoint ordered_key_sequences in
  let hight_effort_sequences := drop midpoint ordered_key_sequences in
  let highest_low := last low_effort_sequences in
  let lowest_high := head hight_effort_sequences in
  (highest_low, lowest_high, low_effort_sequences, hight_effort_sequences).

(** The manager object.  [_callback] records whether a callback was given,
    [notifications] how many times it has been invoked.

    The attributes [all_ngrams] and [ordered_ngrams] refer to list objects:
    the record holds what each of the two lists contains, and
    [ordered_ngrams_is_all_ngrams] tells whether the two attributes refer to
    one and the same list object.  That is so after [load_state] has been
    given the universe list itself; a change made in place to the one list
    is then a change of the other.  The lists of a placement state are
    slices, which are new objects. *)
Record NgramPlacementManager : Type := mkManager {
  all_ngrams : list KeySeq;
  _current_index : nat;
  current_ngram : KeySeq;
  _current_ngram_movement_history : list NgramPlacementState;
  ordered_ngrams : list KeySeq;
  placement_state : NgramPlacementState;
  _callback : bool;
  notifications : nat;
  ordered_ngrams_is_all_ngrams : bool
}.

#[global] Instance NgramPlacementManager_eq_dec : EqDecision NgramPlacementManager.
Proof. solve_decision. Defined.

(** Attribute assignments. *)
Definition set_current_index (v : nat) (s : NgramPlacementManager) :=
  mkManager s.(all_ngrams) v s.(current_ngram)
    s.(_current_ngram_movement_history) s.(ordered_ngrams)
    s.(placement_state) s.(_callback) s.(notifications)
    s.(ordered_ngrams_is_all_ngrams).
Definition set_current_ngram (v : KeySeq) (s : NgramPlacementManager) :=
  mkManager s.(all_ngrams) s.(_current_index) v
    s.(_current_ngram_movement_history) s.(ordered_ngrams)
    s.(placement_state) s.(_callback) s.(notifications)
    s.(ordered_ngrams_is_all_ngrams).
Definition set_history (v : list NgramPlacementState) (s : NgramPlacementManager) :=
  mkManager s.(all_ngrams) s.(_current_index) s.(current_ngram)
    v s.(ordered_ngrams)
    s.(placement_state) s.(_callback) s.(notifications)
    s.(ordered_ngrams_is_all_ngrams).
Definition set_placement_state (v : NgramPlacementState) (s : NgramPlacementManager) :=
  mkManager s.(all_ngrams) s.(_current_index) s.(current_ngram)
    s.(_current_ngram_movement_history) s.(ordered_ngrams)
    v s.(_callback) s.(notifications)
    s.(ordered_ngrams_is_all_ngrams).
Definition set_notifications (v : nat) (s : NgramPlacementManager) :=
  mkManager s.(all_ngrams) s.(_current_index) s.(current_ngram)
    s.(_current_ngram_movement_history) s.(ordered_ngrams)
    s.(placement_state) s.(_callback) v
    s.(ordered_ngrams_is_all_ngrams).

(** The list [self.ordered_ngrams] alone holds [v]: what an in-place change
    ([insert], [append], [remove]) leaves when that list is not also
    [self.all_ngrams]. *)
Definition set_ordered_ngrams (v : list KeySeq) (s : NgramPlacementManager) :=
  mkManager s.(all_ngrams) s.(_current_index) s.(current_ngram)
    s.(_current_ngram_movement_history) v
    s.(placement_state) s.(_callback) s.(notifications)
    s.(ordered_ngrams_is_all_ngrams).

(** An in-place change of the list [self.ordered_ngrams], after which it
    holds [v]: when the same object is [self.all_ngrams], that attribute
    shows the change too. *)
Definition mutate_ordered_ngrams (v : list KeySeq) (s : NgramPlacementManager) :=
  if s.(ordered_ngrams_is_all_ngrams)
  then mkManager v s.(_current_index) s.(current_ngram)
         s.(_current_ngram_movement_history) v
         s.(placement_state) s.(_callback) s.(notifications) true
  else set_ordered_ngrams v s.

(** The list objects a client hands to [load_state]: the universe list
    itself (the object given to the constructor, which is
    [self.all_ngrams], and also [self.ordered_ngrams] once the two are the
    same object), or another list object: one the client has made itself,
    as the sort application does from the lines of a file, or
    [self.ordered_ngrams] while that is not the universe list.  Of such a
    list the manager only uses what it holds; the client does not change a
    list after handing it over. *)
Inductive list_object : Type :=
| AllNgramsObject
| OtherList (contents : list KeySeq).

(** What the list object holds when the manager reads it. *)
Definition contents_of (o : list_object) (s : NgramPlacementManager)
  : list KeySeq :=
  match o with
  | AllNgramsObject => s.(all_ngrams)
  | OtherList l => l
  end.

(** The assignment [self.ordered_ngrams = ordered_ngrams] of
    [load_state]: the attribute now refers to the object given. *)
Definition assign_ordered_ngrams (o : list_object) (s : NgramPlacementManager) :=
  mkManager s.(all_ngrams) s.(_current_index) s.(current_ngram)
    s.(_current_ngram_movement_history) (contents_of o s)
    s.(placement_state) s.(_callback) s.(notifications)
    (match o with AllNgramsObject => true | OtherList _ => false end).

(** *** Methods: state that survives exceptions *)

Definition Method (A : Type) : Type :=
  NgramPlacementManager → NgramPlacementManager * result A.

Definition ret {A} (a : A) : Method A := fun s => (s, Ok a).
Definition raise {A} (e : exn) : Method A := fun s => (s, Raise e).
Definition bind {A B} (c : Method A) (k : A → Method B) : Method B := fun s =>
  match c s with
  | (s', Ok a) => k a s'
  | (s', Raise e) => (s', Raise e)
  end.
Definition get : Method NgramPlacementManager := fun s => (s, Ok s).
Definition modify (f : NgramPlacementManager → NgramPlacementManager) : Method unit :=
  fun s => (f s, Ok tt).
Definition lift {A} (r : result A) : Method A := fun s => (s, r).

Declare Scope manager_scope.
Delimit Scope manager_scope with manager.
Notation "x <- c ;; k" := (bind c (fun x => k))
  (at level 100, c at next level, right associativity) : manager_scope.
Notation "c ;;; k" := (bind c (fun _ => k))
  (at level 100, right associativity) : manager_scope.
Local Open Scope manager_scope.

(** [list.index(x)]: the first position of [x], [ValueError] if absent. *)
Fixpoint py_index (x : KeySeq) (l : list KeySeq) : result nat :=
  match l with
  | [] => Raise ValueError
  | y :: l' => if bool_decide (y = x) then Ok 0 else i ← py_index x l'; Ok (S i)
  end.

(** [list.insert(i, x)] for [i ≥ 0]: beyond the end it appends. *)
Definition py_insert (i : nat) (x : KeySeq) (l : list KeySeq) : list KeySeq :=
  take i l ++ x :: drop i l.

(** [list.remove(x)]: drops the first [x], [ValueError] if absent. *)
Fixpoint py_remove (x : KeySeq) (l : list KeySeq) : result (list KeySeq) :=
  match l with
  | [] => Raise ValueError
  | y :: l' => if bool_decide (y = x) then Ok l' else r ← py_remove x l'; Ok (y :: r)
  end.

Definition left_of_current (self : NgramPlacementManager) : option KeySeq :=
  self.(placement_state).(highest_low).
Definition right_of_current (self : NgramPlacementManager) : option KeySeq :=
  self.(placement_state).(lowest_high).
Definition ngrams_left_side_of_current (self : NgramPlacementManager) : list KeySeq :=
  self.(placement_state).(low_effort_sequences).
Definition ngrams_right_side_of_current (self : NgramPlacementManager) : list KeySeq :=
  self.(placement_state).(hight_effort_sequences).

Definition is_finished (self : NgramPlacementManager) : bool :=
  bool_decide (length self.(all_ngrams) ≤ length self.(ordered_ngrams)).

Definition refresh_callback : Method unit :=
  self <- get ;;
  if self.(_callback)
  then modify (set_notifications (S self.(notifications)))
  else ret tt.

Definition _start_placing_next_ngram : Method unit :=
  self <- get ;;
  ngram <- lift (getitem self.(all_ngrams) self.(_current_index)) ;;
  modify (set_current_ngram ngram) ;;;
  modify (set_placement_state
            (new_state (split_ordered_ngrams_into_two_halfs
                          self.(ordered_ngrams) side_right))) ;;;
  modify (set_history []) ;;;
  refresh_callback.

(** The constructor.  [placement_state] is first assigned by
    [_start_placing_next_ngram]; until then the record holds the state of an
    empty split, which nothing reads.  When the constructor raises there is
    no object. *)
Definition __init__ (permutations : list KeySeq) (callback : bool)
  : result NgramPlacementManager :=
  let self :=
    mkManager permutations 0 [] [] []
      (mkPlacementState None None [] []) callback 0 false in
  match _start_placing_next_ngram self with
  | (self, Ok _) => Ok self
  | (_, Raise e) => Raise e
  end.

Definition place_current_ngram : Method (option KeySeq) :=
  self <- get ;;
  if is_finished self then ret None
  else
    match left_of_current self with
    | Some l =>
        idx_left <- lift (py_index l self.(ordered_ngrams)) ;;
        modify (mutate_ordered_ngrams
                  (py_insert (idx_left + 1) self.(current_ngram)
                     self.(ordered_ngrams)))
    | None =>
        match right_of_current self with
        | Some r =>
            idx_right <- lift (py_index r self.(ordered_ngrams)) ;;
            modify (mutate_ordered_ngrams
                      (py_insert idx_right self.(current_ngram)
                         self.(ordered_ngrams)))
        | None =>
            modify (mutate_ordered_ngrams
                      (self.(ordered_ngrams) ++ [self.(current_ngram)]))
        end
    end ;;;
    let ngram_placed := self.(current_ngram) in
    modify (set_current_index (self.(_current_index) + 1)) ;;;
    self <- get ;;
    (if negb (is_finished self)
     then _start_placing_next_ngram
     else refresh_callback) ;;;
    ret (Some ngram_placed).

Definition move_left : Method unit :=
  self <- get ;;
  if bool_decide (left_of_current self = None) || is_finished self then ret tt
  else
    modify (set_history
              (self.(_current_ngram_movement_history)
                 ++ [self.(placement_state)])) ;;;
    modify (set_placement_state
              (new_state (split_ordered_ngrams_into_two_halfs
                            (ngrams_left_side_of_current self) side_right))) ;;;
    refresh_callback.

Definition move_right : Method unit :=
  self <- get ;;
  if bool_decide (right_of_current self = None) || is_finished self then ret tt
  else
    modify (set_history
              (self.(_current_ngram_movement_history)
                 ++ [self.(placement_state)])) ;;;
    modify (set_placement_state
              (new_state (split_ordered_ngrams_into_two_halfs
                            (ngrams_right_side_of_current self) side_left))) ;;;
    refresh_callback.

Definition move_back : Method unit :=
  self <- get ;;
  if is_finished self then ret tt
  else
    match last self.(_current_ngram_movement_history) with
    | Some st =>
        (* self.placement_state = history.pop() *)
        modify (set_history (removelast self.(_current_ngram_movement_history))) ;;;
        modify (set_placement_state st)
    | None => ret tt
    end ;;;
    refresh_callback.

Definition reset_current_ngram : Method unit :=
  self <- get ;;
  if is_finished self then ret tt
  else _start_placing_next_ngram ;;; refresh_callback.

Definition previous_ngram : Method unit :=
  self <- get ;;
  if bool_decide (self.(_current_index) < 1) then reset_current_ngram
  else
    prev_ngram <- lift (getitem self.(all_ngrams) (self.(_current_index) - 1)) ;;
    remaining <- lift (py_remove prev_ngram self.(ordered_ngrams)) ;;
    modify (mutate_ordered_ngrams remaining) ;;;
    modify (set_current_index (self.(_current_index) - 1)) ;;;
    _start_placing_next_ngram ;;;
    refresh_callback.

(** [load_state].  The object keeps the caller's list itself. *)
Definition load_state (ordered_ngrams : list_object) : Method unit :=
  self <- get ;;
  let n_new := length (contents_of ordered_ngrams self) in
  if bool_decide (list_to_set (contents_of ordered_ngrams self)
                    ≠@{gset KeySeq} list_to_set (take n_new self.(all_ngrams)))
  then raise ValueError
  else
    modify (assign_ordered_ngrams ordered_ngrams) ;;;
    modify (set_current_index n_new) ;;;
    self <- get ;;
    if negb (is_finished self)
    then _start_placing_next_ngram
    else refresh_callback.

(** *** Sequences of calls *)

(** [n] consecutive calls of [place_current_ngram]; an exception ends the
    sequence. *)
Fixpoint place_times (n : nat) : Method unit :=
  match n with
  | O => ret tt
  | S n => place_current_ngram ;;; place_times n
  end.

(** The public operations, and a client that calls them one after the
    other, catching whatever one of them raises. *)
Inductive operation : Type :=
| PlaceCurrentNgram
| MoveLeft
| MoveRight
| MoveBack
| ResetCurrentNgram
| PreviousNgram
| LoadState (ordered_ngrams : list_object).

Definition call (o : operation) (self : NgramPlacementManager)
  : NgramPlacementManager :=
  match o with
  | PlaceCurrentNgram => (place_current_ngram self).1
  | MoveLeft => (move_left self).1
  | MoveRight => (move_right self).1
  | MoveBack => (move_back self).1
  | ResetCurrentNgram => (reset_current_ngram self).1
  | PreviousNgram => (previous_ngram self).1
  | LoadState l => (load_state l self).1
  end.

Definition calls (os : list operation) (self : NgramPlacementManager)
  : NgramPlacementManager :=
  foldl (fun self o => call o self) self os.

(** *** Read accessors of the placement *)

(** [current_placement_index]: no mutation, but [list.index] may raise. *)
Definition current_placement_index (self : NgramPlacementManager)
  : result (option nat) :=
  if is_finished self then Ok None
  else
    idx_left ← match left_of_current self with
               | Some l => i ← py_index l self.(ordered_ngrams); Ok (Some i)
               | None => Ok None
               end;
    idx_right ← match right_of_current self with
                | Some r => i ← py_index r self.(ordered_ngrams); Ok (Some i)
                | None => Ok None
                end;
    match idx_right, idx_left with
    | None, None => Ok None
    | _, Some i => Ok (Some (i + 1))
    | _, None => Ok idx_right
    end.

(** [ordered_ngrams_area_widths]: Python integers, so the outer widths are
    computed in [Z]. *)
Definition ordered_ngrams_area_widths (self : NgramPlacementManager)
  : result (Z * Z * Z * Z) :=
  idx ← current_placement_index self;
  match idx with
  | None => Ok (0, 50, 50, 0)%Z
  | Some idx =>
      if is_finished self then Ok (0, 50, 50, 0)%Z
      else
        let n := Z.of_nat (length self.(ordered_ngrams)) in
        let left_all := Z.of_nat idx in
        let right_all := (n - left_all)%Z in
        let left_search_area :=
          Z.of_nat (length (ngrams_left_side_of_current self)) in
        let right_search_area :=
          Z.of_nat (length (ngrams_right_side_of_current self)) in
        let left_side := (left_all - left_search_area)%Z in
        let right_side := (right_all - right_search_area)%Z in
        Ok (left_side, left_search_area, right_search_area, right_side)
  end.

End Placement.

(** ** The sort application: loading a saved session

    [KeySequenceSortApp.load_from_file] and [action_place_ngram] of
    [app/sort_app/sort_app.py], as far as they act on the manager.  The
    file is given as read: [None] when it does not exist, otherwise the key
    sequences of its lines.  Reading and parsing the lines and the lines
    written to the log are not part of the embedding. *)
Module SortApp.

Import Placement.
Local Open Scope nat_scope.

Inductive app_exn : Type :=
| DuplicateValuesError
| Builtin (e : exn).

Inductive app_result : Type :=
| Returned
| Raised (e : app_exn).

(** One step of [Counter(key_seqs)]: the count of [x] is incremented, a new
    key goes to the end. *)
Fixpoint counter_add (x : KeySeq) (c : list (KeySeq * nat))
  : list (KeySeq * nat) :=
  match c with
  | [] => [(x, 1)]
  | (y, n) :: c' =>
      if bool_decide (y = x) then (y, S n) :: c' else (y, n) :: counter_add x c'
  end.

Definition Counter (key_seqs : list KeySeq) : list (KeySeq * nat) :=
  foldl (fun c x => counter_add x c) [] key_seqs.

(** [most_common(1)]: the first of the entries with the greatest count;
    the list it returns is empty for an empty counter. *)
Definition most_common_1 (c : list (KeySeq * nat)) : list (KeySeq * nat) :=
  match c with
  | [] => []
  | e :: c' =>
      [foldl (fun best item => if bool_decide (best.2 < item.2) then item else best)
             e c']
  end.

(** [KeySequenceSortApp.action_place_ngram], as far as the manager is
    concerned: after the placement the method only reads the symbols of the
    placed sequence ([Hand.get_symbols], which always returns) and writes a
    line to the log widget. *)
Definition action_place_ngram (manager : NgramPlacementManager)
  : NgramPlacementManager * app_result :=
  if is_finished manager then (manager, Returned)
  else
    match current_placement_index manager with
    | Raise e => (manager, Raised (Builtin e))
    | Ok idx =>
        match place_current_ngram manager with
        | (manager, Raise e) => (manager, Raised (Builtin e))
        | (manager, Ok ngram_keyseq) => (manager, Returned)
        end
    end.

(** [KeySequenceSortApp.load_from_file]; [file] is [None] when the output
    file does not exist, and otherwise holds the key sequences parsed from
    its lines. *)
Definition load_from_file (file : option (list KeySeq))
    (manager : NgramPlacementManager)
  : NgramPlacementManager * app_result :=
  match file with
  | Some key_seqs =>
      if bool_decide (key_seqs = []) then (manager, Returned)
      else
        match most_common_1 (Counter key_seqs) with
        | [] => (manager, Raised (Builtin IndexError))
        | (most_common_ngram, repeats) :: _ =>
            if bool_decide (1 < repeats)
            then (manager, Raised DuplicateValuesError)
            else
              (* a list the method has just built from the file *)
              match load_state (OtherList key_seqs) manager with
              | (manager, Ok _) => (manager, Returned)
              | (manager, Raise e) => (manager, Raised (Builtin e))
              end
        end
  | None =>
      (* This inserts the first key sequence. *)
      action_place_ngram manager
  end.

End SortApp.

Import Effort.
Import Placement.

(** * Definitions used to state the properties *)

(** ** The table of trigrams in the docstring of [DirectionType]

    One row per ordering of three different fingers out of pinky, ring,
    middle and index.  The four numbers are the columns [p r m i] of the
    docstring: the position (1, 2 or 3) at which that finger is pressed,
    0 where the column is blank.  The label is the last column. *)
Definition docstring_rows : list (nat * nat * nat * nat * option DirectionType) :=
  [ (1, 2, 3, 0, Some InwardsPinkyRing)      (*  1: in (pr)  *)
  ; (1, 2, 0, 3, Some InwardsPinkyRing)      (*  2: in (pr)  *)
  ; (1, 3, 2, 0, Some Redirect4)             (*  3: redir4   *)
  ; (1, 3, 0, 2, Some Redirect2)             (*  4: redir2   *)
  ; (1, 0, 2, 3, Some InwardsPinkyMiddle)    (*  5: in (pm)  *)
  ; (1, 0, 3, 2, Some Redirect2)             (*  6: redir2   *)
  ; (2, 1, 3, 0, Some Redirect4)             (*  7: redir4   *)
  ; (2, 1, 0, 3, Some Redirect3)             (*  8: redir3   *)
  ; (2, 3, 1, 0, Some Redirect4)             (*  9: redir4   *)
  ; (2, 3, 0, 1, Some Redirect3)             (* 10: redir3   *)
  ; (2, 0, 1, 3, Some Redirect3)             (* 11: redir3   *)
  ; (2, 0, 3, 1, Some Redirect3)             (* 12: redir3   *)
  ; (3, 1, 2, 0, Some Redirect4)             (* 13: redir4   *)
  ; (3, 1, 0, 2, Some Redirect2)             (* 14: redir2   *)
  ; (3, 2, 1, 0, Some OutwardsRingPinky)     (* 15: out (rp) *)
  ; (3, 2, 0, 1, Some OutwardsRingPinky)     (* 16: out (rp) *)
  ; (3, 0, 1, 2, Some Redirect2)             (* 17: redir2   *)
  ; (3, 0, 2, 1, Some OutwardsMiddlePinky)   (* 18: out (mp) *)
  ; (0, 1, 2, 3, None)                       (* 19           *)
  ; (0, 1, 3, 2, Some Redirect1)             (* 20: redir1   *)
  ; (0, 2, 1, 3, Some Redirect1)             (* 21: redir1   *)
  ; (0, 2, 3, 1, Some Redirect1)             (* 22: redir1   *)
  ; (0, 3, 1, 2, Some Redirect1)             (* 23: redir1   *)
  ; (0, 3, 2, 1, None)                       (* 24           *)
  ]%nat.

(** The finger pressed at position [n] of a row. *)
Definition finger_at (row : nat * nat * nat * nat * option DirectionType) (n : nat)
  : option FingerType :=
  let '(p, r, m, i, _) := row in
  if bool_decide (p = n) then Some P
  else if bool_decide (r = n) then Some R
  else if bool_decide (m = n) then Some M
  else if bool_decide (i = n) then Some I
  else None.

Definition is_redirect (d : DirectionType) : bool :=
  bool_decide (d ∈ [Redirect1; Redirect2; Redirect3; Redirect4]).

(** A row as an ordered finger triple with its label. *)
Definition row_entry (row : nat * nat * nat * nat * option DirectionType)
  : option (FingerType * FingerType * FingerType * option DirectionType) :=
  f1 ← finger_at row 1%nat;
  f2 ← finger_at row 2%nat;
  f3 ← finger_at row 3%nat;
  Some (f1, f2, f3, row.2).

Definition docstring_table
  : list (FingerType * FingerType * FingerType * option DirectionType) :=
  omap row_entry docstring_rows.

(** The redirect table: the rows labelled with a redirect level. *)
Definition redirect_table
  : list (FingerType * FingerType * FingerType * DirectionType) :=
  omap (fun e : FingerType * FingerType * FingerType * option DirectionType =>
          match e.2 with
          | Some d => if is_redirect d then Some (e.1, d) else None
          | None => None
          end)
       docstring_table.

Definition redirect_of (f1 f2 f3 : FingerType) : option DirectionType :=
  snd <$> head (filter (fun e => e.1 = (f1, f2, f3)) redirect_table).

(** "The greater of the two (by [DirectionType]'s effort ordering), or
    whichever is non-null, or none if both null", as a relation between the
    two bigram directions and the result. *)
Definition greater_or_present (b1 b2 r : option DirectionType) : Prop :=
  match b1, b2 with
  | None, None => r = None
  | Some x, None => r = Some x
  | None, Some y => r = Some y
  | Some x, Some y =>
      ∃ z, r = Some z ∧ (z = x ∨ z = y)
           ∧ (DirectionType_value10 x ≤ DirectionType_value10 z)%Z
           ∧ (DirectionType_value10 y ≤ DirectionType_value10 z)%Z
  end.

(** ** Hands used as concrete inputs *)

(** Three keys, fingers known for keys 0 and 2 only (both index). *)
Definition hand_middle_unassigned : Hand :=
  mkHand Left
    (list_to_map [(0, "a"); (1, "b"); (2, "c")]%string)
    (list_to_map [(0, "i"); (2, "i")]%string)
    ∅ ∅ ∅.

(** Three keys; key 0 is on the middle finger two rows below key 1, which
    is on the index finger; nothing is known about key 2. *)
Definition hand_third_unassigned : Hand :=
  mkHand Left
    (list_to_map [(0, "a"); (1, "b"); (2, "c")]%string)
    (list_to_map [(0, "m"); (1, "i")]%string)
    ∅ ∅
    (list_to_map [(0, (0, 2)); (1, (0, 0))]).

(** A hand with symbols and no finger data at all. *)
Definition hand_no_fingers : Hand :=
  mkHand Left
    (list_to_map [(0, "a"); (1, "b"); (2, "c"); (3, "d")]%string)
    ∅ ∅ ∅ ∅.

(** A fully described hand: four keys on pinky, ring, middle and index,
    on rows 0, 2, 4 and 3. *)
Definition hand_full : Hand :=
  mkHand Right
    (list_to_map [(0, "a"); (1, "b"); (2, "c"); (3, "d")]%string)
    (list_to_map [(0, "p"); (1, "r"); (2, "m"); (3, "i")]%string)
    ∅ ∅
    (list_to_map [(0, (0, 0)); (1, (1, 2)); (2, (2, 4)); (3, (3, 3))]).

(** ** Well-formed input of the classifiers *)

(** The finger names [FingerType.from_str] knows; [Hand.get_finger] also
    accepts the empty string. *)
Definition finger_names : list string := ["t"; "i"; "m"; "r"; "p"]%string.

(** A hand is well formed when every finger entry is empty or names a
    finger. *)
Definition wf_hand (h : Hand) : Prop :=
  map_Forall (fun _ f => f ∈ EmptyString :: finger_names) h.(fingers).

(** A key resolves when its finger and its matrix position are both known. *)
Definition resolves (h : Hand) (k : Z) (f : FingerType) (row : Z) : Prop :=
  get_finger h k = Ok (Some f) ∧ snd <$> h.(matrix_positions) !! k = Some row.

Definition unresolved (h : Hand) (k : Z) : Prop :=
  get_finger h k = Ok None ∨ h.(matrix_positions) !! k = None.

(** The tuple returned for the classifications of bigram(0,1) and
    bigram(1,2): both in order, the single one, or no tuple. *)
Definition rowdiff_tuple (d01 d12 : option RowDiffType)
  : option (list RowDiffType) :=
  match d01, d12 with
  | Some a, Some b => Some [a; b]
  | Some a, None => Some [a]
  | None, Some b => Some [b]
  | None, None => None
  end.

(** ** The order of the generated permutations *)

(** The lexicographic order on key sequences (the order of Python tuples). *)
Inductive lex_lt : list Z → list Z → Prop :=
| lex_lt_nil y ys : lex_lt [] (y :: ys)
| lex_lt_head x y xs ys : (x < y)%Z → lex_lt (x :: xs) (y :: ys)
| lex_lt_tail x xs ys : lex_lt xs ys → lex_lt (x :: xs) (x :: ys).

(** A hand types a sequence when its symbol map has every key of it. *)
Definition typed_by (h : Hand) (t : list Z) : Prop :=
  Forall (fun k => is_Some (h.(symbols) !! k)) t.

(** What the specification asks of the part of the result that belongs to
    one requested length [n]: the typable tuples of length [n] over [keys],
    each once, in lexicographic order. *)
Definition typable_block (left right : Hand) (keys : list Z) (n : nat)
    (block : list (list Z)) : Prop :=
  StronglySorted lex_lt block
  ∧ ∀ t, t ∈ block ↔
         length t = n ∧ Forall (fun k => k ∈ keys) t
         ∧ (typed_by left t ∨ typed_by right t).

(** The hands of the test of [create_permutations]. *)
Definition hand_xyz : Hand :=
  mkHand Left (list_to_map [(0, "x"); (1, "y"); (2, "z")]%string) ∅ ∅ ∅ ∅.
Definition hand_abcd : Hand :=
  mkHand Right
    (list_to_map [(0, "a"); (1, "b"); (2, "c"); (3, "d")]%string) ∅ ∅ ∅ ∅.

(** ** Descriptions of the manager's steps *)

(** The count of notifications after one more [refresh_callback]. *)
Definition notified (self : NgramPlacementManager) : nat :=
  if self.(_callback) then S self.(notifications) else self.(notifications).

(** The manager once it has begun placing [ngram]: the full ordered list is
    split with the larger half on the right, the undo history is empty and
    the callback has been notified. *)
Definition placing (ngram : KeySeq) (self : NgramPlacementManager)
  : NgramPlacementManager :=
  mkManager self.(all_ngrams) self.(_current_index) ngram []
    self.(ordered_ngrams)
    (new_state (split_ordered_ngrams_into_two_halfs
                  self.(ordered_ngrams) side_right))
    self.(_callback) (notified self) self.(ordered_ngrams_is_all_ngrams).

(** The ordered list with the current ngram inserted, as the first part of
    [place_current_ngram] computes it. *)
Definition insertion (self : NgramPlacementManager) : result (list KeySeq) :=
  match left_of_current self with
  | Some l =>
      idx_left ← py_index l self.(ordered_ngrams);
      Ok (py_insert (idx_left + 1) self.(current_ngram) self.(ordered_ngrams))
  | None =>
      match right_of_current self with
      | Some r =>
          idx_right ← py_index r self.(ordered_ngrams);
          Ok (py_insert idx_right self.(current_ngram) self.(ordered_ngrams))
      | None => Ok (self.(ordered_ngrams) ++ [self.(current_ngram)])
      end
  end.

(** The manager of the tests after three placements in the universe
    (0,), (1,), (2,): it is finished. *)
Definition finished_manager : NgramPlacementManager :=
  mkManager [[0]; [1]; [2]]%Z 3 [2]%Z []
    [[1]; [2]; [0]]%Z
    (mkPlacementState (Some [1]%Z) (Some [0]%Z) [[1]%Z] [[0]%Z])
    true 4 false.

(** The universe of the tests of the manager. *)
Definition universe7 : list KeySeq :=
  [[0]; [1]; [2]; [3]; [4]; [5]; [6]]%Z.

(** The manager of the tests right after construction on [universe7]. *)
Definition fresh_manager7 : NgramPlacementManager :=
  mkManager universe7 0 [0]%Z [] []
    (mkPlacementState None None [] []) true 1 false.

(** ** Counting and the invariants of the manager *)

(** How many times [x] occurs in [l]. *)
Definition occurrences (x : KeySeq) (l : list KeySeq) : nat :=
  length (filter (fun y => y = x) l).

(** The manager has placed the first [k] elements of the universe [u] and,
    if an element is left, has just begun placing it. *)
Definition placed (u : list KeySeq) (k : nat) (m : NgramPlacementManager)
  : Prop :=
  m.(all_ngrams) = u
  ∧ m.(ordered_ngrams_is_all_ngrams) = false
  ∧ m.(_current_index) = k
  ∧ length m.(ordered_ngrams) = k
  ∧ m.(ordered_ngrams) ≡ₚ take k u
  ∧ ((k < length u)%nat →
     u !! k = Some m.(current_ngram)
     ∧ m.(placement_state)
       = new_state (split_ordered_ngrams_into_two_halfs
                      m.(ordered_ngrams) side_right)).

(** The invariant of C9: [ordered_ngrams] has cursor-many elements, and
    they are those of the first cursor-many elements of the universe. *)
Definition prefix_invariant (m : NgramPlacementManager) : Prop :=
  length m.(ordered_ngrams) = m.(_current_index)
  ∧ ∀ x, x ∈ m.(ordered_ngrams)
         ↔ x ∈ take m.(_current_index) m.(all_ngrams).

(** The invariant together with what makes it inductive, [u] being what the
    universe list holds: while the manager is not finished the current ngram
    is the universe element under the cursor, and when the ordered list is
    the universe list itself the two hold the same. *)
Definition consistent (u : list KeySeq) (m : NgramPlacementManager) : Prop :=
  m.(all_ngrams) = u
  ∧ prefix_invariant m
  ∧ (is_finished m = false → u !! m.(_current_index) = Some m.(current_ngram))
  ∧ (m.(ordered_ngrams_is_all_ngrams) = true → m.(ordered_ngrams) = u).

(** The calls in which the client keeps the universe list to itself: it
    never hands that very list object to [load_state]. *)
Definition separate (o : operation) : Prop :=
  o ≠ LoadState AllNgramsObject.

(** A universe with a repeated element. *)
Definition universe_repeated : list KeySeq := [[0]; [0]]%Z.

(** ** The search window of the manager *)

(** The search window of a placement state lies in the ordered list [l]:
    the two sub-lists are adjacent parts of it, the neighbours are the last
    of the left part and the first of the right part, the window is empty
    only when [l] is, and the two parts differ in size by at most one. *)
Definition window (l : list KeySeq) (ps : NgramPlacementState) : Prop :=
  ∃ pre post,
    l = pre ++ ps.(low_effort_sequences) ++ ps.(hight_effort_sequences) ++ post
    ∧ ps.(highest_low) = last ps.(low_effort_sequences)
    ∧ ps.(lowest_high) = head ps.(hight_effort_sequences)
    ∧ (l ≠ [] → ps.(low_effort_sequences) ++ ps.(hight_effort_sequences) ≠ [])
    ∧ (length ps.(low_effort_sequences)
       ≤ length ps.(hight_effort_sequences) + 1)%nat
    ∧ (length ps.(hight_effort_sequences)
       ≤ length ps.(low_effort_sequences) + 1)%nat.

(** The number of ordered ngrams still in the search window. *)
Definition window_size (m : NgramPlacementManager) : nat :=
  (length (ngrams_left_side_of_current m)
   + length (ngrams_right_side_of_current m))%nat.

(** What holds of every manager a client can reach while the ordered list
    and the universe list are two objects: the ordered list is a
    rearrangement of the universe elements before the cursor, and while the
    manager is not finished the current ngram is the one under the cursor
    and the window of the placement state, and of every state of the undo
    history, lies in the ordered list. *)
Definition sound (u : list KeySeq) (m : NgramPlacementManager) : Prop :=
  m.(all_ngrams) = u
  ∧ m.(ordered_ngrams_is_all_ngrams) = false
  ∧ length m.(ordered_ngrams) = m.(_current_index)
  ∧ (m.(_current_index) ≤ length u)%nat
  ∧ m.(ordered_ngrams) ≡ₚ take m.(_current_index) u
  ∧ (is_finished m = false →
     u !! m.(_current_index) = Some m.(current_ngram)
     ∧ window m.(ordered_ngrams) m.(placement_state)
     ∧ Forall (window m.(ordered_ngrams)) m.(_current_ngram_movement_history)).

(** What holds once [load_state] has been given the universe list itself:
    the two attributes are one list object, so the manager is finished, and
    the cursor is at its end. *)
Definition shared (m : NgramPlacementManager) : Prop :=
  m.(ordered_ngrams_is_all_ngrams) = true
  ∧ m.(ordered_ngrams) = m.(all_ngrams)
  ∧ m.(_current_index) = length m.(all_ngrams).

(** What holds of every manager a client can reach from a manager built
    over [u]: the universe list holds some of the elements of [u], in their
    order, and the manager is sound for it or shares it. *)
Definition reachable (u : list KeySeq) (m : NgramPlacementManager) : Prop :=
  m.(all_ngrams) `sublist_of` u
  ∧ (sound m.(all_ngrams) m ∨ shared m).

(** The calls a client makes after it has checked, as the sort application
    does, that a list of its own to load has no repeated element. *)
Definition admissible (o : operation) : Prop :=
  match o with
  | LoadState (OtherList l) => NoDup l
  | _ => True
  end.

(** What a call returns or raises. *)
Definition outcome (o : operation) (self : NgramPlacementManager)
  : result unit :=
  match o with
  | PlaceCurrentNgram => _ ← (place_current_ngram self).2; Ok tt
  | MoveLeft => (move_left self).2
  | MoveRight => (move_right self).2
  | MoveBack => (move_back self).2
  | ResetCurrentNgram => (reset_current_ngram self).2
  | PreviousNgram => (previous_ngram self).2
  | LoadState l => (load_state l self).2
  end.

(** The manager of the tests after two placements in [universe7], about to
    place (2,) between (1,) and (0,). *)
Definition manager_placing_third : NgramPlacementManager :=
  Eval vm_compute in
    calls [PlaceCurrentNgram; PlaceCurrentNgram] fresh_manager7.

(** Four placements and one step to the left, as in the test of the area
    widths. *)
Definition four_placed_then_left : list operation :=
  [PlaceCurrentNgram; PlaceCurrentNgram; PlaceCurrentNgram; PlaceCurrentNgram;
   MoveLeft].

(** Calls of a client that, among others, fails to load a list with a
    foreign element, hands the universe list itself to [load_state], goes
    back, and then loads a list of its own. *)
Definition calls_with_shared_list : list operation :=
  [PlaceCurrentNgram; MoveRight; PlaceCurrentNgram;
   LoadState (OtherList [[0]; [9999]]%Z); PreviousNgram; PlaceCurrentNgram;
   LoadState AllNgramsObject; PreviousNgram;
   LoadState (OtherList [[2]; [0]; [1]]%Z); MoveLeft; MoveBack;
   ResetCurrentNgram; PlaceCurrentNgram].

(** A manager over a universe of one element. *)
Definition fresh_manager1 : NgramPlacementManager :=
  mkManager [[0]]%Z 0 [0]%Z [] []
    (mkPlacementState None None [] []) true 1 false.

(** ** Reading a counter *)

(** The count a counter holds for [x] (0 when it has no entry). *)
Fixpoint assoc_count (c : list (KeySeq * nat)) (x : KeySeq) : nat :=
  match c with
  | [] => 0
  | (y, n) :: c' => if bool_decide (y = x) then n else assoc_count c' x
  end.

(** The outcome of a method of the manager, seen from the application. *)
Definition app_outcome (r : result unit) : SortApp.app_result :=
  match r with
  | Ok _ => SortApp.Returned
  | Raise e => SortApp.Raised (SortApp.Builtin e)
  end.

(** ** The two hands together *)

(** A second fully described hand: keys 0 to 3 on middle, pinky, ring and
    index, on rows 1, 0, 2 and 1. *)
Definition hand_shifted : Hand :=
  mkHand Left
    (list_to_map [(0, "e"); (1, "f"); (2, "g"); (3, "h")]%string)
    (list_to_map [(0, "m"); (1, "p"); (2, "r"); (3, "i")]%string)
    ∅ ∅
    (list_to_map [(0, (0, 1)); (1, (1, 0)); (2, (2, 2)); (3, (3, 1))]%Z).

(** The same two hands with their places exchanged. *)
Definition swap_hands (hs : Hands.Hands) : Hands.Hands :=
  Hands.mkHands (Hands.right hs) (Hands.left hs).

(** The order of the tuples [(RepeatType, FingerType)]: by repeat type
    first, by finger among equal repeat types. *)
Definition repeats_le (a b : RepeatType * FingerType) : Prop :=
  (RepeatType_value a.1 < RepeatType_value b.1
   ∨ (a.1 = b.1 ∧ FingerType_value a.2 ≤ FingerType_value b.2))%Z.

(** ** Counting and showing permutations *)

(** The number of tuples of length [n] that one hand types alone: those
    over the keys of the left hand and those over the keys of the right
    hand, the tuples over the keys they share counted once. *)
Definition typable_count (left right : Hand) (n : nat) : nat :=
  (size (dom (symbols left)) ^ n + size (dom (symbols right)) ^ n
   - size (dom (symbols left) ∩ dom (symbols right)) ^ n)%nat.

(** The symbols of the keys of a sequence, one after the other. *)
Definition symbols_of (h : Hand) (t : list Z) : string :=
  foldr (fun k rest => default EmptyString (symbols h !! k) +:+ rest)
        EmptyString t.

(** * Properties *)

(** ** Directions of trigrams *)

(** The redirect table has the sixteen rows the source tests for, each a
    triple of pairwise different fingers. *)
Lemma redirect_table_rows :
  length docstring_table = 24%nat ∧ length redirect_table = 16%nat
  ∧ Forall (fun e : FingerType * FingerType * FingerType * DirectionType =>
              let '(f1, f2, f3, _) := e in f1 ≠ f2 ∧ f1 ≠ f3 ∧ f2 ≠ f3)
           redirect_table.
Proof.
  split; [reflexivity|]. split; [reflexivity|].
  vm_compute. repeat constructor; discriminate.
Qed.

(** No triple has two rows, so [redirect_of] is membership in the redirect
    table. *)
Lemma redirect_of_table f1 f2 f3 d :
  (f1, f2, f3, d) ∈ redirect_table ↔ redirect_of f1 f2 f3 = Some d.
Proof.
  rewrite <-(bool_decide_spec (_ ∈ _)), <-(bool_decide_spec (_ = Some d)).
  destruct f1, f2, f3, d; vm_compute; tauto.
Qed.

(** C5. [get_direction_for_trigram] gives every triple of the redirect table
    its redirect level, in particular the four triples of the tests, and for
    every other triple of fingers the greater of the directions of the two
    bigrams, or the one that is present, or none; (Index, Middle, Ring) has
    none. *)
Theorem get_direction_for_trigram_table :
  (∀ f1 f2 f3 d,
      redirect_of f1 f2 f3 = Some d →
      is_redirect d = true ∧ f1 ≠ f2 ∧ f1 ≠ f3 ∧ f2 ≠ f3
      ∧ get_direction_for_trigram f1 f2 f3 = Some d)
  ∧ (redirect_of Middle Index Ring = Some Redirect1
     ∧ get_direction_for_trigram Middle Index Ring = Some Redirect1)
  ∧ (redirect_of Middle Index Pinky = Some Redirect2
     ∧ get_direction_for_trigram Middle Index Pinky = Some Redirect2)
  ∧ (redirect_of Middle Pinky Index = Some Redirect3
     ∧ get_direction_for_trigram Middle Pinky Index = Some Redirect3)
  ∧ (redirect_of Middle Pinky Ring = Some Redirect4
     ∧ get_direction_for_trigram Middle Pinky Ring = Some Redirect4)
  ∧ (∀ f1 f2 f3,
        redirect_of f1 f2 f3 = None →
        greater_or_present
          (get_direction_for_bigram f1 f2) (get_direction_for_bigram f2 f3)
          (get_direction_for_trigram f1 f2 f3))
  ∧ (redirect_of Index Middle Ring = None
     ∧ get_direction_for_trigram Index Middle Ring = None).
Proof.
  split.
  { intros f1 f2 f3 d.
    destruct f1, f2, f3; vm_compute; intros Hr; try discriminate Hr;
      injection Hr as <-; repeat split; discriminate. }
  do 4 (split; [split; reflexivity|]).
  split; [|split; reflexivity].
  intros f1 f2 f3.
  destruct f1, f2, f3; vm_compute; intros Hr; try discriminate Hr;
    try reflexivity.
  all: eexists; split; [reflexivity|];
    split; [first [left; reflexivity | right; reflexivity]|];
    split; discriminate.
Qed.

(** ** The per-hand classifiers *)

Lemma from_str_finger_names f :
  f ∈ finger_names → ∃ x, from_str f = Ok x.
Proof.
  unfold finger_names. rewrite !elem_of_cons, elem_of_nil.
  intros [->|[->|[->|[->|[->|[]]]]]]; eexists; reflexivity.
Qed.

(** On a well-formed hand a finger lookup never raises. *)
Lemma get_finger_total h k :
  wf_hand h → ∃ f, get_finger h k = Ok f.
Proof.
  intros Hwf. unfold get_finger.
  destruct (fingers h !! k) as [f|] eqn:E; [|eauto].
  case_bool_decide; [eauto|].
  apply Hwf in E. simpl in E. apply elem_of_cons in E as [->|E]; [done|].
  destruct (from_str_finger_names f E) as [x ->]. simpl. eauto.
Qed.

Lemma getitem_lookup {A} (l : list A) i a :
  l !! i = Some a → getitem l i = Ok a.
Proof. intros E. unfold getitem. by rewrite E. Qed.

(** C1, evaluated on the code.  In [hand_middle_unassigned] the middle key
    of (0, 1, 2) has no finger, yet the sequence is classified as a
    same-finger skipgram: the test for unresolved fingers of a trigram
    covers [f0] and [f2] only. *)
Theorem get_repeats_tuple_unresolved_middle_finger :
  get_finger hand_middle_unassigned 0 = Ok (Some I)
  ∧ get_finger hand_middle_unassigned 1 = Ok None
  ∧ get_finger hand_middle_unassigned 2 = Ok (Some I)
  ∧ get_repeats_tuple hand_middle_unassigned [0; 1; 2] = Ok (Some (SFS, I)).
Proof. repeat split; vm_compute; reflexivity. Qed.

(** The same in general: a trigram whose outer keys share a finger and
    whose middle key has none is reported as SFS, while an unresolved first
    or last finger gives no classification. *)
Lemma get_repeats_tuple_trigram_unresolved h k0 k1 k2 f0 f1 f2 :
  fingers h ≠ ∅ →
  get_finger h k0 = Ok f0 → get_finger h k1 = Ok f1 → get_finger h k2 = Ok f2 →
  (f0 = None ∨ f2 = None → get_repeats_tuple h [k0; k1; k2] = Ok None)
  ∧ (∀ a, f0 = Some a → f2 = Some a → f1 = None →
          get_repeats_tuple h [k0; k1; k2] = Ok (Some (SFS, a))).
Proof.
  intros Hne E0 E1 E2. unfold get_repeats_tuple.
  rewrite bool_decide_eq_false_2 by done. simpl.
  rewrite E0. simpl. rewrite E1. simpl. rewrite E2. simpl. split.
  - intros [-> | ->]; [by destruct f2 | done].
  - intros a -> -> ->. rewrite bool_decide_eq_true_2; done.
Qed.

(** C2 fails on the code: in [hand_third_unassigned] bigram(0,1) resolves
    and classifies, the third key of (0, 1, 2) has neither finger nor
    position, and the result is no classification instead of the 1-tuple. *)
Lemma get_rowdiff_third_key_unresolved :
  resolves hand_third_unassigned 0 M 2
  ∧ resolves hand_third_unassigned 1 I 0
  ∧ get_rowdiff_for_bigram M 2 I 0 = Some MiddleBelowIndex2u
  ∧ get_rowdiff hand_third_unassigned [0; 1] = Ok (Some [MiddleBelowIndex2u])
  ∧ get_finger hand_third_unassigned 2 = Ok None
  ∧ matrix_positions hand_third_unassigned !! 2 = None
  ∧ get_rowdiff hand_third_unassigned [0; 1; 2] = Ok None
  ∧ get_rowdiff hand_third_unassigned [0; 1; 2] ≠ Ok (Some [MiddleBelowIndex2u]).
Proof.
  unfold resolves.
  repeat split; try (vm_compute; reflexivity).
  vm_compute. discriminate.
Qed.

(** C2 as amended.  On a well-formed hand, a trigram with a key whose
    finger or matrix position is unknown has no classification; when all
    three keys resolve, the two bigrams are classified independently and
    returned as [rowdiff_tuple] says. *)
Theorem get_rowdiff_trigram h k0 k1 k2 :
  wf_hand h →
  ((∃ k, k ∈ [k0; k1; k2] ∧ unresolved h k) →
   get_rowdiff h [k0; k1; k2] = Ok None)
  ∧ (∀ f0 r0 f1 r1 f2 r2,
        resolves h k0 f0 r0 → resolves h k1 f1 r1 → resolves h k2 f2 r2 →
        get_rowdiff h [k0; k1; k2]
        = Ok (rowdiff_tuple (get_rowdiff_for_bigram f0 r0 f1 r1)
                            (get_rowdiff_for_bigram f1 r1 f2 r2))).
Proof.
  intros Hwf.
  destruct (get_finger_total h k0 Hwf) as [g0 E0].
  destruct (get_finger_total h k1 Hwf) as [g1 E1].
  destruct (get_finger_total h k2 Hwf) as [g2 E2].
  unfold get_rowdiff. simpl. rewrite E0. simpl. rewrite E1. simpl. split.
  - intros (k & Hk & Hu). unfold unresolved in Hu.
    destruct g0 as [a0|]; [|done]. destruct g1 as [a1|]; [|done].
    destruct (matrix_positions h !! k0) as [c0|] eqn:P0; [|done].
    destruct (matrix_positions h !! k1) as [c1|] eqn:P1; [|done].
    rewrite E2. simpl.
    destruct g2 as [a2|]; [|done].
    destruct (matrix_positions h !! k2) as [c2|] eqn:P2; [|done].
    exfalso. rewrite !elem_of_cons, elem_of_nil in Hk.
    destruct Hk as [->|[->|[->|[]]]]; destruct Hu; congruence.
  - intros f0 r0 f1 r1 f2 r2 [F0 R0] [F1 R1] [F2 R2].
    rewrite E0 in F0. rewrite E1 in F1. rewrite E2 in F2.
    injection F0 as ->. injection F1 as ->. injection F2 as ->.
    destruct (matrix_positions h !! k0) as [c0|]; [|done].
    destruct (matrix_positions h !! k1) as [c1|]; [|done].
    rewrite E2. simpl.
    destruct (matrix_positions h !! k2) as [c2|]; [|done].
    simpl in R0, R1, R2. injection R0 as ->. injection R1 as ->.
    injection R2 as ->.
    destruct (get_rowdiff_for_bigram f0 _ f1 _),
             (get_rowdiff_for_bigram f1 _ f2 _); reflexivity.
Qed.

Lemma wf_hand_full : wf_hand hand_full.
Proof. refine (bool_decide_unpack _ _). vm_compute. exact Logic.I. Qed.

Lemma get_rowdiff_trigram_witness :
  wf_hand hand_full
  ∧ get_rowdiff hand_full [0; 1; 2]
    = Ok (Some [RingBelowPinky2u; MiddleBelowRing2u]).
Proof.
  split; [exact wf_hand_full|].
  refine (proj2 (get_rowdiff_trigram hand_full 0 1 2 wf_hand_full)
            P 0 R 2 M 4 _ _ _);
    split; vm_compute; reflexivity.
Defined.

(** C7 fails on the code: a hand without any finger data makes
    [get_repeats_tuple] return before it looks at the length, so a sequence
    of four keys is answered with no classification instead of an error. *)
Lemma get_repeats_tuple_long_sequence_no_fingers :
  (3 < length [0; 1; 2; 3])%nat
  ∧ fingers hand_no_fingers = ∅
  ∧ get_repeats_tuple hand_no_fingers [0; 1; 2; 3] = Ok None
  ∧ get_repeats_tuple hand_no_fingers [0; 1; 2; 3] ≠ Raise ValueError.
Proof. repeat split; [simpl; lia | discriminate]. Qed.

(** An empty sequence is not a key sequence (those have one to three
    keys); of the three classifiers only [get_rowdiff] indexes into it. *)
Lemma classifiers_empty_sequence h :
  get_rowdiff h [] = Raise IndexError
  ∧ get_direction h [] = Ok None
  ∧ get_repeats_tuple h [] = Ok None.
Proof.
  repeat split. unfold get_repeats_tuple. by case_bool_decide.
Qed.

Local Ltac finger_lookup h k Hwf :=
  let g := fresh "g" in
  let E := fresh "E" in
  destruct (get_finger_total h k Hwf) as [g E]; rewrite E; simpl;
  try destruct g; simpl.

(** C7 as amended.  On a well-formed hand none of the three classifiers
    raises for a sequence of one to three keys.  For a longer sequence
    [get_rowdiff] and [get_direction] always raise; [get_repeats_tuple]
    raises when the hand has some finger data, and returns no
    classification when it has none. *)
Theorem classifiers_raise_only_on_long_sequences h ks :
  (wf_hand h → (1 ≤ length ks ≤ 3)%nat →
     (∃ v, get_repeats_tuple h ks = Ok v)
     ∧ (∃ v, get_rowdiff h ks = Ok v)
     ∧ (∃ v, get_direction h ks = Ok v))
  ∧ ((3 < length ks)%nat →
     get_rowdiff h ks = Raise ValueError
     ∧ get_direction h ks = Raise ValueError
     ∧ (fingers h ≠ ∅ → get_repeats_tuple h ks = Raise ValueError)
     ∧ (fingers h = ∅ → get_repeats_tuple h ks = Ok None)).
Proof.
  split.
  - intros Hwf Hlen.
    destruct ks as [|k0 [|k1 [|k2 [|k3 ks]]]]; simpl in Hlen; try lia.
    + unfold get_repeats_tuple, get_rowdiff, get_direction. simpl.
      repeat split; [case_bool_decide|..]; eauto.
    + repeat split.
      * unfold get_repeats_tuple. case_bool_decide; [eauto|]. simpl.
        finger_lookup h k0 Hwf; finger_lookup h k1 Hwf;
          repeat case_bool_decide; eauto.
      * unfold get_rowdiff. simpl.
        finger_lookup h k0 Hwf; finger_lookup h k1 Hwf; eauto.
        destruct (matrix_positions h !! k0), (matrix_positions h !! k1); eauto.
        destruct (get_rowdiff_for_bigram _ _ _ _); eauto.
      * unfold get_direction. simpl.
        finger_lookup h k0 Hwf; finger_lookup h k1 Hwf; eauto.
    + repeat split.
      * unfold get_repeats_tuple. case_bool_decide; [eauto|]. simpl.
        finger_lookup h k0 Hwf; finger_lookup h k1 Hwf;
          finger_lookup h k2 Hwf; repeat case_bool_decide; eauto.
      * unfold get_rowdiff. simpl.
        finger_lookup h k0 Hwf; finger_lookup h k1 Hwf; eauto.
        destruct (matrix_positions h !! k0), (matrix_positions h !! k1); eauto.
        finger_lookup h k2 Hwf; eauto.
        destruct (matrix_positions h !! k2); eauto.
        repeat destruct (get_rowdiff_for_bigram _ _ _ _); eauto.
      * unfold get_direction. simpl.
        finger_lookup h k0 Hwf; finger_lookup h k1 Hwf; eauto.
        finger_lookup h k2 Hwf; eauto.
  - intros Hlen. unfold get_rowdiff, get_direction, get_repeats_tuple.
    rewrite (bool_decide_eq_false_2 (length ks = 1%nat)) by lia.
    rewrite (bool_decide_eq_false_2 (length ks ≤ 1)%nat) by lia.
    rewrite (bool_decide_eq_false_2 (length ks = 0%nat)) by lia.
    rewrite (bool_decide_eq_true_2 (3 < length ks)%nat) by lia.
    repeat split.
    + intros Hne. by rewrite bool_decide_eq_false_2.
    + intros He. by rewrite bool_decide_eq_true_2.
Qed.

Lemma classifiers_raise_only_on_long_sequences_witness :
  wf_hand hand_full
  ∧ (∃ v, get_repeats_tuple hand_full [0; 1; 2] = Ok v)
  ∧ get_rowdiff hand_full [0; 1; 2; 3] = Raise ValueError
  ∧ get_repeats_tuple hand_no_fingers [0; 1; 2; 3] = Ok None.
Proof.
  split; [exact wf_hand_full|]. split; [|split].
  - apply (proj1 (classifiers_raise_only_on_long_sequences hand_full [0; 1; 2])
             wf_hand_full).
    simpl. lia.
  - apply (proj2 (classifiers_raise_only_on_long_sequences hand_full
                    [0; 1; 2; 3])).
    simpl. lia.
  - apply (proj2 (classifiers_raise_only_on_long_sequences hand_no_fingers
                    [0; 1; 2; 3])); [simpl; lia | reflexivity].
Defined.

(** ** The permutation generator *)

Lemma StronglySorted_le_NoDup_lt (l : list Z) :
  StronglySorted Z.le l → NoDup l → StronglySorted Z.lt l.
Proof.
  induction 1 as [|x l Hs IH Hx]; intros Hnd; [constructor|].
  apply NoDup_cons in Hnd as [Hnotin Hnd].
  constructor; [auto|].
  rewrite Forall_forall in Hx |- *.
  intros y Hy. specialize (Hx y Hy).
  assert (x ≠ y) by (intros ->; done). lia.
Qed.

Lemma get_union_of_keys_sorted left right :
  StronglySorted Z.lt (get_union_of_keys left right).
Proof.
  unfold get_union_of_keys. apply StronglySorted_le_NoDup_lt.
  - apply (StronglySorted_merge_sort Z.le).
  - rewrite merge_sort_Permutation. apply NoDup_elements.
Qed.

Lemma elem_of_get_union_of_keys left right k :
  k ∈ get_union_of_keys left right
  ↔ is_Some (symbols left !! k) ∨ is_Some (symbols right !! k).
Proof.
  unfold get_union_of_keys.
  rewrite merge_sort_Permutation, elem_of_elements, elem_of_union.
  by rewrite !elem_of_dom.
Qed.

Lemma elem_of_product {A} (pool : list A) n t :
  t ∈ product pool n ↔ length t = n ∧ Forall (fun k => k ∈ pool) t.
Proof.
  revert t. induction n as [|n IH]; intros t; simpl.
  - rewrite list_elem_of_singleton. split.
    + intros ->. split; [done|constructor].
    + intros [Hl _]. by destruct t.
  - rewrite list_elem_of_bind. split.
    + intros (x & Ht & Hx). apply list_elem_of_fmap in Ht as (t' & -> & Ht').
      apply IH in Ht' as [<- Hall]. split; [done|by constructor].
    + intros [Hl Hall]. destruct t as [|x t]; [done|].
      apply Forall_cons in Hall as [Hx Hall]. exists x. split; [|done].
      apply list_elem_of_fmap. exists t. split; [done|].
      apply IH. split; [by injection Hl|done].
Qed.

Lemma product_sorted (pool : list Z) n :
  StronglySorted Z.lt pool → StronglySorted lex_lt (product pool n).
Proof.
  intros Hpool. induction n as [|n IH]; simpl.
  - repeat constructor.
  - set (tails := product pool n) in *. clearbody tails.
    induction Hpool as [|x pool' Hs IHpool Hx]; csimpl; [constructor|].
    apply StronglySorted_app_2; [| |done].
    + intros t1 t2 Ht1 Ht2.
      apply list_elem_of_fmap in Ht1 as (s1 & -> & _).
      apply list_elem_of_bind in Ht2 as (y & Ht2 & Hy).
      apply list_elem_of_fmap in Ht2 as (s2 & -> & _).
      rewrite Forall_forall in Hx. apply lex_lt_head. by apply Hx.
    + eapply StronglySorted_fmap; [|exact IH].
      intros s1 s2. apply lex_lt_tail.
Qed.

Lemma StronglySorted_filter_keep {A} (R : relation A) (P : A → Prop)
    `{∀ x, Decision (P x)} (l : list A) :
  StronglySorted R l → StronglySorted R (filter P l).
Proof.
  induction 1 as [|x l Hs IH Hx]; [constructor|].
  rewrite filter_cons. case_decide; [|done].
  constructor; [done|].
  rewrite Forall_forall in Hx |- *.
  intros y Hy. apply list_elem_of_filter in Hy as [_ Hy]. by apply Hx.
Qed.

Lemma can_be_typed_typed_by h t : can_be_typed h t = true ↔ typed_by h t.
Proof.
  unfold can_be_typed, typed_by.
  rewrite <-Is_true_true, forallb_True.
  apply Forall_proper; [|done]. intros k. by rewrite bool_decide_spec.
Qed.

Lemma permutation_is_typable_spec left right t :
  permutation_is_typable left right t = true
  ↔ typed_by left t ∨ typed_by right t.
Proof.
  unfold permutation_is_typable. rewrite <-!can_be_typed_typed_by.
  destruct (can_be_typed left t), (can_be_typed right t); intuition congruence.
Qed.

(** The two loops of [create_permutations] concatenate, in the order of the
    requested lengths, the typable tuples of each product. *)
Lemma create_permutations_concat left right lens :
  create_permutations left right lens
  = concat ((fun n =>
               filter (fun t => permutation_is_typable left right t = true)
                      (product (get_union_of_keys left right) n)) <$> lens).
Proof.
  unfold create_permutations.
  set (keys := get_union_of_keys left right).
  assert (Hin : ∀ (ts acc : list (list Z)),
             foldl (fun permutations_lst seq =>
                      if negb (permutation_is_typable left right seq)
                      then permutations_lst else permutations_lst ++ [seq])
                   acc ts
             = acc ++ filter
                        (fun t => permutation_is_typable left right t = true)
                        ts).
  { induction ts as [|t ts IH]; intros acc; simpl.
    - by rewrite app_nil_r.
    - rewrite IH, filter_cons.
      case_decide as Ht; [|apply not_true_is_false in Ht]; rewrite Ht; simpl.
      + by rewrite <-app_assoc.
      + done. }
  enough (Hout : ∀ acc : list (list Z),
             foldl (fun permutations_lst seq_length =>
                      foldl (fun permutations_lst seq =>
                               if negb (permutation_is_typable left right seq)
                               then permutations_lst
                               else permutations_lst ++ [seq])
                            permutations_lst (product keys seq_length))
                   acc lens
             = acc ++ concat
                        ((fun n =>
                            filter
                              (fun t =>
                                 permutation_is_typable left right t = true)
                              (product keys n)) <$> lens))
    by apply (Hout []).
  induction lens as [|n lens IH]; intros acc; simpl.
  - by rewrite app_nil_r.
  - rewrite IH, Hin. by rewrite <-app_assoc.
Qed.

(** C6. The sorted union of the two symbol maps is the pool; the result is
    the concatenation, in the order of the requested lengths, of one block
    per length, each holding exactly the typable tuples of that length over
    the pool in lexicographic order; and the example of the tests. *)
Theorem create_permutations_spec left right sequence_lengths :
  let keys := get_union_of_keys left right in
  (StronglySorted Z.lt keys
   ∧ ∀ k, k ∈ keys
          ↔ is_Some (symbols left !! k) ∨ is_Some (symbols right !! k))
  ∧ (∃ blocks,
        create_permutations left right sequence_lengths = concat blocks
        ∧ Forall2 (typable_block left right keys) sequence_lengths blocks)
  ∧ create_permutations hand_xyz hand_abcd [1%nat] = [[0]; [1]; [2]; [3]].
Proof.
  intros keys. split; [|split].
  - split; [apply get_union_of_keys_sorted|].
    intros k. apply elem_of_get_union_of_keys.
  - eexists. split; [apply create_permutations_concat|].
    apply Forall2_fmap_r, Forall_Forall2_diag, Forall_forall.
    intros n _. unfold typable_block; simpl. fold keys. split.
    + apply StronglySorted_filter_keep, product_sorted,
        get_union_of_keys_sorted.
    + intros t.
      rewrite list_elem_of_filter, elem_of_product,
        permutation_is_typable_spec.
      tauto.
  - vm_compute. reflexivity.
Qed.

(** ** The placement manager: what each method does *)

Local Open Scope nat_scope.

Lemma refresh_callback_eq self :
  refresh_callback self = (set_notifications (notified self) self, Ok tt).
Proof.
  unfold refresh_callback, notified, bind, get, modify, ret, set_notifications.
  destruct self as [a c g h o p cb n f]; simpl. by destruct cb.
Qed.

Lemma start_placing_eq self :
  _start_placing_next_ngram self
  = match self.(all_ngrams) !! self.(_current_index) with
    | Some ngram => (placing ngram self, Ok tt)
    | None => (self, Raise IndexError)
    end.
Proof.
  unfold _start_placing_next_ngram, bind, get, modify, lift, getitem.
  destruct (all_ngrams self !! _current_index self) as [ngram|]; [|done].
  rewrite refresh_callback_eq. reflexivity.
Qed.

Lemma place_current_ngram_unfold self :
  place_current_ngram self
  = if is_finished self then (self, Ok None)
    else
      match insertion self with
      | Raise e => (self, Raise e)
      | Ok l =>
          let s1 := set_current_index (self.(_current_index) + 1)
                      (mutate_ordered_ngrams l self) in
          if is_finished s1
          then (set_notifications (notified s1) s1,
                Ok (Some self.(current_ngram)))
          else
            match s1.(all_ngrams) !! (self.(_current_index) + 1) with
            | Some ngram => (placing ngram s1, Ok (Some self.(current_ngram)))
            | None => (s1, Raise IndexError)
            end
      end.
Proof.
  unfold place_current_ngram, insertion.
  unfold bind at 1. unfold get at 1.
  destruct (is_finished self); [reflexivity|].
  unfold bind at 1.
  assert (Hstep : ∀ s0,
    bind (modify (set_current_index (_current_index self + 1)))
      (fun _ =>
         bind get (fun self0 =>
           bind (if negb (is_finished self0)
                 then _start_placing_next_ngram else refresh_callback)
             (fun _ => ret (Some (current_ngram self)))))
      s0
    = let s1 := set_current_index (self.(_current_index) + 1) s0 in
      if is_finished s1
      then (set_notifications (notified s1) s1, Ok (Some self.(current_ngram)))
      else
        match s1.(all_ngrams) !! (self.(_current_index) + 1) with
        | Some ngram => (placing ngram s1, Ok (Some self.(current_ngram)))
        | None => (s1, Raise IndexError)
        end).
  { intros s0. unfold bind, get, modify, ret. cbv zeta.
    destruct (is_finished _); cbn [negb].
    - by rewrite refresh_callback_eq.
    - rewrite start_placing_eq.
      cbn [_current_index all_ngrams set_current_index].
      by destruct (all_ngrams s0 !! (_current_index self + 1)). }
  destruct (left_of_current self) as [l|].
  - unfold bind, lift, modify.
    destruct (py_index l (ordered_ngrams self)) as [i|e]; simpl; [|done].
    apply Hstep.
  - destruct (right_of_current self) as [r|].
    + unfold bind, lift, modify.
      destruct (py_index r (ordered_ngrams self)) as [i|e]; simpl; [|done].
      apply Hstep.
    + unfold modify at 1. apply Hstep.
Qed.

(** While the ordered list is not the universe list, placing leaves the
    universe alone. *)
Lemma place_current_ngram_eq self :
  ordered_ngrams_is_all_ngrams self = false →
  place_current_ngram self
  = if is_finished self then (self, Ok None)
    else
      match insertion self with
      | Raise e => (self, Raise e)
      | Ok l =>
          let s1 := set_current_index (self.(_current_index) + 1)
                      (set_ordered_ngrams l self) in
          if is_finished s1
          then (set_notifications (notified s1) s1,
                Ok (Some self.(current_ngram)))
          else
            match self.(all_ngrams) !! (self.(_current_index) + 1) with
            | Some ngram => (placing ngram s1, Ok (Some self.(current_ngram)))
            | None => (s1, Raise IndexError)
            end
      end.
Proof.
  intros Hsep. rewrite place_current_ngram_unfold.
  unfold mutate_ordered_ngrams. by rewrite Hsep.
Qed.

Lemma move_left_eq self :
  move_left self
  = if bool_decide (left_of_current self = None) || is_finished self
    then (self, Ok tt)
    else
      (mkManager self.(all_ngrams) self.(_current_index) self.(current_ngram)
         (self.(_current_ngram_movement_history) ++ [self.(placement_state)])
         self.(ordered_ngrams)
         (new_state (split_ordered_ngrams_into_two_halfs
                       (ngrams_left_side_of_current self) side_right))
         self.(_callback) (notified self)
         self.(ordered_ngrams_is_all_ngrams), Ok tt).
Proof.
  unfold move_left, bind, get, modify.
  destruct (_ || _); [done|]. by rewrite refresh_callback_eq.
Qed.

Lemma move_right_eq self :
  move_right self
  = if bool_decide (right_of_current self = None) || is_finished self
    then (self, Ok tt)
    else
      (mkManager self.(all_ngrams) self.(_current_index) self.(current_ngram)
         (self.(_current_ngram_movement_history) ++ [self.(placement_state)])
         self.(ordered_ngrams)
         (new_state (split_ordered_ngrams_into_two_halfs
                       (ngrams_right_side_of_current self) side_left))
         self.(_callback) (notified self)
         self.(ordered_ngrams_is_all_ngrams), Ok tt).
Proof.
  unfold move_right, bind, get, modify.
  destruct (_ || _); [done|]. by rewrite refresh_callback_eq.
Qed.

Lemma move_back_eq self :
  move_back self
  = if is_finished self then (self, Ok tt)
    else
      match last self.(_current_ngram_movement_history) with
      | Some st =>
          (mkManager self.(all_ngrams) self.(_current_index)
             self.(current_ngram)
             (removelast self.(_current_ngram_movement_history))
             self.(ordered_ngrams) st self.(_callback) (notified self)
             self.(ordered_ngrams_is_all_ngrams), Ok tt)
      | None => (set_notifications (notified self) self, Ok tt)
      end.
Proof.
  unfold move_back, bind, get, modify, ret.
  destruct (is_finished self); [done|].
  destruct (last _); by rewrite refresh_callback_eq.
Qed.

Lemma reset_current_ngram_eq self :
  reset_current_ngram self
  = if is_finished self then (self, Ok tt)
    else
      match self.(all_ngrams) !! self.(_current_index) with
      | Some ngram =>
          (set_notifications (notified (placing ngram self))
             (placing ngram self), Ok tt)
      | None => (self, Raise IndexError)
      end.
Proof.
  unfold reset_current_ngram, bind, get, ret.
  destruct (is_finished self); [done|].
  rewrite start_placing_eq.
  destruct (_ !! _); [|done]. by rewrite refresh_callback_eq.
Qed.

Lemma previous_ngram_unfold self :
  previous_ngram self
  = if bool_decide (self.(_current_index) < 1) then reset_current_ngram self
    else
      match self.(all_ngrams) !! (self.(_current_index) - 1) with
      | None => (self, Raise IndexError)
      | Some prev =>
          match py_remove prev self.(ordered_ngrams) with
          | Raise e => (self, Raise e)
          | Ok rem =>
              let s1 := set_current_index (self.(_current_index) - 1)
                          (mutate_ordered_ngrams rem self) in
              match s1.(all_ngrams) !! (self.(_current_index) - 1) with
              | Some ngram =>
                  (set_notifications (notified (placing ngram s1))
                     (placing ngram s1), Ok tt)
              | None => (s1, Raise IndexError)
              end
          end
      end.
Proof.
  unfold previous_ngram. unfold bind at 1. unfold get at 1.
  case_bool_decide; [done|].
  unfold bind at 1. unfold lift at 1, getitem.
  destruct (all_ngrams self !! _) as [prev|] eqn:Hprev; [|done].
  unfold bind at 1. unfold lift at 1.
  destruct (py_remove prev _) as [rem|e]; [|done].
  unfold bind, modify. rewrite start_placing_eq. cbv zeta.
  cbn [_current_index all_ngrams set_current_index].
  destruct (all_ngrams (mutate_ordered_ngrams rem self) !! _); [|done].
  by rewrite refresh_callback_eq.
Qed.

(** While the ordered list is not the universe list, going back leaves the
    universe alone, and the ngram placed again is the one removed. *)
Lemma previous_ngram_eq self :
  ordered_ngrams_is_all_ngrams self = false →
  previous_ngram self
  = if bool_decide (self.(_current_index) < 1) then reset_current_ngram self
    else
      match self.(all_ngrams) !! (self.(_current_index) - 1) with
      | None => (self, Raise IndexError)
      | Some prev =>
          match py_remove prev self.(ordered_ngrams) with
          | Raise e => (self, Raise e)
          | Ok rem =>
              let s1 := set_current_index (self.(_current_index) - 1)
                          (set_ordered_ngrams rem self) in
              (set_notifications (notified (placing prev s1))
                 (placing prev s1), Ok tt)
          end
      end.
Proof.
  intros Hsep. rewrite previous_ngram_unfold.
  case_bool_decide; [done|].
  destruct (all_ngrams self !! _) as [prev|] eqn:Hprev; [|done].
  destruct (py_remove prev _) as [rem|e]; [|done].
  unfold mutate_ordered_ngrams. rewrite Hsep. cbv zeta.
  cbn [all_ngrams set_current_index set_ordered_ngrams]. by rewrite Hprev.
Qed.

Lemma load_state_eq o self :
  load_state o self
  = if bool_decide (list_to_set (contents_of o self)
                      ≠@{gset KeySeq}
                      list_to_set (take (length (contents_of o self))
                                        self.(all_ngrams)))
    then (self, Raise ValueError)
    else
      let s1 := set_current_index (length (contents_of o self))
                  (assign_ordered_ngrams o self) in
      if is_finished s1 then (set_notifications (notified s1) s1, Ok tt)
      else
        match self.(all_ngrams) !! length (contents_of o self) with
        | Some ngram => (placing ngram s1, Ok tt)
        | None => (s1, Raise IndexError)
        end.
Proof.
  unfold load_state. unfold bind at 1. unfold get at 1. unfold raise.
  case_bool_decide; [done|].
  unfold bind, modify, get. simpl.
  destruct (is_finished _); simpl.
  - by rewrite refresh_callback_eq.
  - rewrite start_placing_eq. simpl. by destruct (_ !! _).
Qed.

Lemma init_cons x u callback :
  __init__ (x :: u) callback
  = Ok (mkManager (x :: u) 0 x [] []
          (mkPlacementState None None [] []) callback
          (if callback then 1 else 0) false).
Proof. unfold __init__. rewrite start_placing_eq. reflexivity. Qed.

(** C10. The constructor raises [IndexError] on an empty universe, before
    any operation is called; on every other universe it returns a manager
    that has placed nothing. *)
Theorem init_empty_universe callback :
  __init__ [] callback = Raise IndexError
  ∧ ∀ permutations,
      permutations ≠ [] →
      ∃ self, __init__ permutations callback = Ok self
              ∧ all_ngrams self = permutations
              ∧ ordered_ngrams self = []
              ∧ _current_index self = 0.
Proof.
  split; [reflexivity|].
  intros [|x u] Hne; [done|].
  rewrite init_cons. eexists. split; [reflexivity|]. done.
Qed.

(** C8. On a finished manager [move_left], [move_right], [move_back] and
    [place_current_ngram] return without changing the object (the callback
    is not notified either), and [place_current_ngram] returns [None]. *)
Theorem finished_operations_change_nothing self :
  is_finished self = true →
  move_left self = (self, Ok tt)
  ∧ move_right self = (self, Ok tt)
  ∧ move_back self = (self, Ok tt)
  ∧ place_current_ngram self = (self, Ok None).
Proof.
  intros Hfin.
  unfold move_left, move_right, move_back, place_current_ngram, bind, get.
  rewrite Hfin, !orb_true_r. done.
Qed.

Lemma finished_operations_change_nothing_witness :
  is_finished finished_manager = true
  ∧ ordered_ngrams finished_manager = [[1]; [2]; [0]]%Z
  ∧ move_left finished_manager = (finished_manager, Ok tt)
  ∧ move_right finished_manager = (finished_manager, Ok tt)
  ∧ move_back finished_manager = (finished_manager, Ok tt)
  ∧ place_current_ngram finished_manager = (finished_manager, Ok None).
Proof.
  split; [reflexivity|]. split; [reflexivity|].
  apply (finished_operations_change_nothing finished_manager).
  reflexivity.
Defined.

(** C3. [load_state] compares the set of the given list with the set of
    the first [n] elements of the universe, [n] being the length of the
    list.  When they differ (in particular when the list has an element
    outside that prefix) it raises [ValueError] and the object is unchanged.
    When they agree, the list becomes [ordered_ngrams] and the cursor [n];
    then the manager begins placing the universe element at [n] if there
    is one, and otherwise only notifies the callback.  Given the universe
    list itself, the sets agree and nothing is left to place: that list
    object becomes [ordered_ngrams] as well. *)
Theorem load_state_spec self given :
  let n := length given in
  let prefix := take n self.(all_ngrams) in
  (list_to_set given ≠@{gset KeySeq} list_to_set prefix →
   load_state (OtherList given) self = (self, Raise ValueError))
  ∧ ((∃ x, x ∈ given ∧ x ∉ prefix) →
     load_state (OtherList given) self = (self, Raise ValueError))
  ∧ (list_to_set given =@{gset KeySeq} list_to_set prefix →
     (n < length self.(all_ngrams) →
      ∃ next, self.(all_ngrams) !! n = Some next
              ∧ load_state (OtherList given) self
                = (mkManager self.(all_ngrams) n next [] given
                     (new_state
                        (split_ordered_ngrams_into_two_halfs given side_right))
                     self.(_callback) (notified self) false, Ok tt))
     ∧ (length self.(all_ngrams) ≤ n →
        load_state (OtherList given) self
        = (mkManager self.(all_ngrams) n self.(current_ngram)
             self.(_current_ngram_movement_history) given
             self.(placement_state) self.(_callback) (notified self) false,
           Ok tt)))
  ∧ load_state AllNgramsObject self
    = (mkManager self.(all_ngrams) (length self.(all_ngrams))
         self.(current_ngram) self.(_current_ngram_movement_history)
         self.(all_ngrams) self.(placement_state) self.(_callback)
         (notified self) true, Ok tt).
Proof.
  intros n prefix.
  assert (Hfail : list_to_set given ≠@{gset KeySeq} list_to_set prefix →
                  load_state (OtherList given) self = (self, Raise ValueError)).
  { intros Hne. unfold load_state, bind, get, raise. cbn [contents_of].
    fold n. fold prefix. by rewrite bool_decide_eq_true_2. }
  split; [exact Hfail|]. split; [|split].
  - intros (x & Hx & Hnx). apply Hfail. intros Heq.
    apply Hnx. apply (elem_of_list_to_set (C:=gset KeySeq)).
    rewrite <-Heq. by apply elem_of_list_to_set.
  - intros Heq. unfold load_state, bind, get, modify. cbn [contents_of].
    fold n. fold prefix. rewrite bool_decide_eq_false_2 by (by intros ?).
    unfold is_finished; simpl. split.
    + intros Hlt.
      destruct (lookup_lt_is_Some_2 (all_ngrams self) n Hlt) as [next Hnext].
      exists next. split; [done|].
      rewrite bool_decide_eq_false_2 by (fold n; lia). simpl.
      rewrite start_placing_eq. simpl. by rewrite Hnext.
    + intros Hge.
      rewrite bool_decide_eq_true_2 by (fold n; lia). simpl.
      by rewrite refresh_callback_eq.
  - unfold load_state, bind, get, modify. cbn [contents_of].
    rewrite firstn_all.
    rewrite bool_decide_eq_false_2 by (by intros ?).
    unfold is_finished; simpl.
    rewrite bool_decide_eq_true_2 by lia. simpl.
    by rewrite refresh_callback_eq.
Qed.

Lemma load_state_spec_witness :
  load_state (OtherList [[0]; [9999]; [1]; [2]]%Z) fresh_manager7
  = (fresh_manager7, Raise ValueError)
  ∧ ∃ next, universe7 !! 4 = Some next
            ∧ load_state (OtherList [[0]; [3]; [1]; [2]]%Z) fresh_manager7
              = (mkManager universe7 4 next [] [[0]; [3]; [1]; [2]]%Z
                   (mkPlacementState (Some [3]%Z) (Some [1]%Z)
                      [[0]; [3]]%Z [[1]; [2]]%Z)
                   true 2 false, Ok tt).
Proof.
  split.
  - apply (proj1 (load_state_spec fresh_manager7 [[0]; [9999]; [1]; [2]]%Z)).
    refine (bool_decide_unpack _ _). vm_compute. exact Logic.I.
  - apply (proj1 (proj1 (proj2 (proj2
             (load_state_spec fresh_manager7 [[0]; [3]; [1]; [2]]%Z)))
             ltac:(refine (bool_decide_unpack _ _); vm_compute;
                   exact Logic.I))).
    simpl. lia.
Defined.

(** ** Placing every ngram *)

Lemma py_index_elem x l : x ∈ l → ∃ i, py_index x l = Ok i.
Proof.
  induction l as [|y l IH]; [by intros ?%elem_of_nil|].
  intros Hx. simpl. case_bool_decide as Hy; [eauto|].
  apply elem_of_cons in Hx as [->|Hx]; [done|].
  destruct (IH Hx) as [i ->]. simpl. eauto.
Qed.

Lemma py_insert_Permutation i x l : py_insert i x l ≡ₚ x :: l.
Proof.
  unfold py_insert. rewrite <-Permutation_middle.
  by rewrite take_drop.
Qed.

Lemma py_remove_Permutation x l r : py_remove x l = Ok r → l ≡ₚ x :: r.
Proof.
  revert r. induction l as [|y l IH]; intros r; simpl; [done|].
  case_bool_decide as Hy.
  - intros [= <-]. by rewrite Hy.
  - destruct (py_remove x l) as [r'|e]; simpl; [|done].
    intros [= <-]. rewrite (IH r' eq_refl). apply perm_swap.
Qed.

Lemma py_remove_elem x l : x ∈ l → ∃ r, py_remove x l = Ok r.
Proof.
  induction l as [|y l IH]; [by intros ?%elem_of_nil|].
  intros Hx. simpl. case_bool_decide as Hy; [eauto|].
  apply elem_of_cons in Hx as [->|Hx]; [done|].
  destruct (IH Hx) as [r ->]. simpl. eauto.
Qed.

Lemma py_index_lookup x l i :
  py_index x l = Ok i → l !! i = Some x ∧ i < length l.
Proof.
  revert i. induction l as [|y l IH]; intros i; simpl; [done|].
  case_bool_decide as Hy.
  - intros [= <-]. subst y. split; [done|lia].
  - destruct (py_index x l) as [j|e]; simpl; [|done].
    intros [= <-]. destruct (IH j eq_refl). split; [done|lia].
Qed.

Lemma py_index_middle x l1 l2 :
  x ∉ l1 → py_index x (l1 ++ x :: l2) = Ok (length l1).
Proof.
  induction l1 as [|y l1 IH]; simpl.
  - intros _. by rewrite bool_decide_eq_true_2.
  - rewrite not_elem_of_cons. intros [Hy Hx].
    rewrite bool_decide_eq_false_2 by done. by rewrite IH.
Qed.

Lemma py_remove_middle x l1 l2 :
  x ∉ l1 → py_remove x (l1 ++ x :: l2) = Ok (l1 ++ l2).
Proof.
  induction l1 as [|y l1 IH]; simpl.
  - intros _. by rewrite bool_decide_eq_true_2.
  - rewrite not_elem_of_cons. intros [Hy Hx].
    rewrite bool_decide_eq_false_2 by done. by rewrite IH.
Qed.

(** [remove] keeps the other elements in their order. *)
Lemma py_remove_sublist x l r : py_remove x l = Ok r → r `sublist_of` l.
Proof.
  revert r. induction l as [|y l IH]; intros r; simpl; [done|].
  case_bool_decide as Hy.
  - intros [= <-]. by apply sublist_cons.
  - destruct (py_remove x l) as [r'|e]; simpl; [|done].
    intros [= <-]. by apply sublist_skip, IH.
Qed.

(** In a list without repeated elements, removing the last element leaves
    the elements before it. *)
Lemma py_remove_last x l :
  NoDup l → l !! (length l - 1) = Some x →
  py_remove x l = Ok (take (length l - 1) l).
Proof.
  intros Hnd Hx.
  assert (Hl : l = take (length l - 1) l ++ [x]).
  { rewrite <-(take_drop (length l - 1) l) at 1. f_equal.
    pose proof (lookup_lt_Some _ _ _ Hx) as Hlt.
    rewrite (drop_S _ _ _ Hx), drop_ge by lia. done. }
  rewrite Hl in Hnd. apply NoDup_app in Hnd as (_ & Hdisj & _).
  rewrite Hl at 1. rewrite py_remove_middle; [by rewrite app_nil_r|].
  intros Hin. apply (Hdisj x Hin). by left.
Qed.

Lemma insertion_Permutation self l :
  insertion self = Ok l → l ≡ₚ current_ngram self :: ordered_ngrams self.
Proof.
  unfold insertion.
  destruct (left_of_current self) as [x|].
  - destruct (py_index x _) as [i|e]; simpl; [|done].
    intros [= <-]. apply py_insert_Permutation.
  - destruct (right_of_current self) as [x|].
    + destruct (py_index x _) as [i|e]; simpl; [|done].
      intros [= <-]. apply py_insert_Permutation.
    + intros [= <-]. by rewrite <-Permutation_cons_append.
Qed.

Lemma insertion_raises self e : insertion self = Raise e → e = ValueError.
Proof.
  unfold insertion.
  assert (Hidx : ∀ x l e', py_index x l = Raise e' → e' = ValueError).
  { intros x l. induction l as [|y l IH]; simpl; intros e'; [congruence|].
    case_bool_decide; [done|].
    destruct (py_index x l); simpl; [done|]. intros [= <-]. by apply IH. }
  destruct (left_of_current self) as [x|].
  - destruct (py_index x _) as [i|e'] eqn:E; simpl; [done|].
    intros [= <-]. by eapply Hidx.
  - destruct (right_of_current self) as [x|]; [|done].
    destruct (py_index x _) as [i|e'] eqn:E; simpl; [done|].
    intros [= <-]. by eapply Hidx.
Qed.

Lemma split_side_right l :
  split_ordered_ngrams_into_two_halfs l side_right
  = (last (take (length l `div` 2) l), head (drop (length l `div` 2) l),
     take (length l `div` 2) l, drop (length l `div` 2) l).
Proof.
  unfold split_ordered_ngrams_into_two_halfs.
  rewrite (bool_decide_eq_false_2 (side_right = side_left)) by done.
  by rewrite andb_false_r.
Qed.

(** The neighbours of a split of the whole ordered list are found in it. *)
Lemma insertion_after_split self :
  placement_state self
  = new_state (split_ordered_ngrams_into_two_halfs
                 (ordered_ngrams self) side_right) →
  ∃ l, insertion self = Ok l.
Proof.
  intros Hst. unfold insertion, left_of_current, right_of_current.
  rewrite Hst, split_side_right. unfold new_state.
  cbn [highest_low lowest_high].
  set (mid := length (ordered_ngrams self) `div` 2).
  destruct (last (take mid (ordered_ngrams self))) as [x|] eqn:El.
  - apply last_Some_elem_of in El.
    eapply elem_of_sublist in El; [|apply sublist_take].
    destruct (py_index_elem _ _ El) as [i ->]. simpl. eauto.
  - destruct (head (drop mid (ordered_ngrams self))) as [x|] eqn:Eh; [|eauto].
    apply head_Some_elem_of in Eh.
    eapply elem_of_sublist in Eh; [|apply sublist_drop].
    destruct (py_index_elem _ _ Eh) as [i ->]. simpl. eauto.
Qed.

Lemma init_placed u callback :
  u ≠ [] → ∃ self, __init__ u callback = Ok self ∧ placed u 0 self.
Proof.
  destruct u as [|x u]; [done|]. intros _.
  rewrite init_cons. eexists. split; [reflexivity|].
  unfold placed; simpl. done.
Qed.

Lemma place_current_ngram_placed u k self :
  placed u k self → k < length u →
  ∃ self', place_current_ngram self = (self', Ok (Some (current_ngram self)))
           ∧ placed u (S k) self'.
Proof.
  intros (Hall & Hsep & Hidx & Hlen & Hperm & Hcur) Hk.
  destruct (Hcur Hk) as [Hk_cur Hst].
  rewrite place_current_ngram_eq by done.
  unfold is_finished at 1. rewrite Hall, Hlen.
  rewrite bool_decide_eq_false_2 by lia.
  destruct (insertion_after_split self Hst) as [l Hl]. rewrite Hl.
  pose proof (insertion_Permutation self l Hl) as Hpl.
  assert (Hlen' : length l = S k) by (rewrite Hpl; simpl; lia).
  assert (Hperm' : l ≡ₚ take (S k) u).
  { rewrite Hpl, (take_S_r u k _ Hk_cur), Hperm.
    apply Permutation_cons_append. }
  cbv zeta. unfold is_finished; simpl. rewrite Hall, Hlen', Hidx.
  replace (k + 1) with (S k) by lia.
  case_bool_decide as Hfin.
  - eexists. split; [reflexivity|].
    unfold placed; simpl. repeat split; try done. all: lia.
  - assert (HSk : S k < length u) by lia.
    destruct (lookup_lt_is_Some_2 u (S k) HSk) as [next Hnext].
    rewrite Hnext. eexists. split; [reflexivity|].
    unfold placed; simpl. repeat split; done.
Qed.

Lemma place_times_placed u n : ∀ k self,
  placed u k self → k + n ≤ length u →
  ∃ self', place_times n self = (self', Ok tt) ∧ placed u (k + n) self'.
Proof.
  induction n as [|n IH]; intros k self Hp Hk.
  - exists self. rewrite Nat.add_0_r. done.
  - destruct (place_current_ngram_placed u k self Hp) as (s1 & E1 & Hp1);
      [lia|].
    destruct (IH (S k) s1 Hp1) as (s2 & E2 & Hp2); [lia|].
    exists s2. split.
    + simpl. unfold bind. by rewrite E1.
    + by replace (k + S n) with (S k + n) by lia.
Qed.

Lemma occurrences_not_elem x l : x ∉ l → occurrences x l = 0.
Proof.
  unfold occurrences. induction l as [|y l IH]; [done|].
  rewrite not_elem_of_cons. intros [Hxy Hx].
  rewrite filter_cons, decide_False by done. by apply IH.
Qed.

Lemma occurrences_NoDup x l : NoDup l → x ∈ l → occurrences x l = 1.
Proof.
  induction 1 as [|y l Hy Hnd IH]; [by intros ?%elem_of_nil|].
  intros Hx. unfold occurrences. rewrite filter_cons. case_decide as Hxy.
  - subst y. simpl. f_equal. by apply occurrences_not_elem.
  - apply elem_of_cons in Hx as [->|Hx]; [done|]. by apply IH.
Qed.

(** C4 fails on the code as stated: in a universe that repeats an element,
    that element is placed once per repetition. *)
Lemma place_times_repeated_element :
  ∃ self final,
    __init__ universe_repeated true = Ok self
    ∧ place_times (length universe_repeated) self = (final, Ok tt)
    ∧ ordered_ngrams final = [[0]; [0]]%Z
    ∧ [0]%Z ∈ universe_repeated
    ∧ occurrences [0]%Z (ordered_ngrams final) = 2
    ∧ occurrences [0]%Z (ordered_ngrams final) ≠ 1.
Proof.
  do 2 eexists. split; [reflexivity|]. split; [reflexivity|].
  split; [reflexivity|]. split; [by left|]. split; [reflexivity|].
  vm_compute. discriminate.
Qed.

(** C4 as amended.  On a fresh manager over a non-empty universe of size N,
    N calls of [place_current_ngram] all succeed and leave N ordered ngrams
    and a finished manager whose [ordered_ngrams] is a rearrangement of the
    universe: every sequence occurs in it as often as in the universe, so
    exactly once when the universe has no repeated element. *)
Theorem place_times_all_ngrams permutations callback :
  permutations ≠ [] →
  ∃ self final,
    __init__ permutations callback = Ok self
    ∧ place_times (length permutations) self = (final, Ok tt)
    ∧ length (ordered_ngrams final) = length permutations
    ∧ is_finished final = true
    ∧ ordered_ngrams final ≡ₚ permutations
    ∧ (∀ x, occurrences x (ordered_ngrams final) = occurrences x permutations)
    ∧ (NoDup permutations →
       ∀ x, x ∈ permutations → occurrences x (ordered_ngrams final) = 1).
Proof.
  intros Hne.
  destruct (init_placed permutations callback Hne) as (self & Einit & Hp).
  destruct (place_times_placed permutations (length permutations) 0 self Hp)
    as (final & Efin & Hall & _ & Hidx & Hlen & Hperm & _); [lia|].
  simpl in Hlen, Hperm. rewrite firstn_all in Hperm.
  exists self, final. repeat split; try done.
  - unfold is_finished. rewrite Hall, Hlen. by apply bool_decide_eq_true_2.
  - intros x. unfold occurrences. by rewrite Hperm.
  - intros Hnd x Hx. apply occurrences_NoDup; rewrite Hperm; done.
Qed.

Lemma place_times_all_ngrams_witness :
  universe7 ≠ []
  ∧ ∃ self final,
      __init__ universe7 true = Ok self
      ∧ place_times (length universe7) self = (final, Ok tt)
      ∧ length (ordered_ngrams final) = length universe7
      ∧ is_finished final = true
      ∧ ordered_ngrams final ≡ₚ universe7
      ∧ (∀ x, occurrences x (ordered_ngrams final) = occurrences x universe7)
      ∧ (NoDup universe7 →
         ∀ x, x ∈ universe7 → occurrences x (ordered_ngrams final) = 1).
Proof.
  split; [discriminate|].
  apply (place_times_all_ngrams universe7 true). discriminate.
Defined.

(** ** The invariant of the ordered list *)

(** [consistent] reads the universe, the cursor, the current ngram, the
    ordered list and whether it is the universe list only. *)
Lemma consistent_same_fields u m m' :
  all_ngrams m' = all_ngrams m →
  _current_index m' = _current_index m →
  current_ngram m' = current_ngram m →
  ordered_ngrams m' = ordered_ngrams m →
  ordered_ngrams_is_all_ngrams m' = ordered_ngrams_is_all_ngrams m →
  consistent u m → consistent u m'.
Proof.
  unfold consistent, prefix_invariant, is_finished.
  intros -> -> -> -> ->. done.
Qed.

(** A manager that has something left to place keeps two lists. *)
Lemma consistent_separate u m :
  consistent u m → is_finished m = false →
  ordered_ngrams_is_all_ngrams m = false.
Proof.
  intros (Hall & _ & _ & Hsh) Hfin.
  destruct (ordered_ngrams_is_all_ngrams m); [|done].
  unfold is_finished in Hfin. rewrite (Hsh eq_refl), Hall in Hfin.
  by rewrite bool_decide_eq_true_2 in Hfin.
Qed.

Lemma move_left_consistent u m : consistent u m → consistent u (move_left m).1.
Proof.
  apply consistent_same_fields; rewrite move_left_eq;
    by destruct (_ || _).
Qed.

Lemma move_right_consistent u m : consistent u m → consistent u (move_right m).1.
Proof.
  apply consistent_same_fields; rewrite move_right_eq;
    by destruct (_ || _).
Qed.

Lemma move_back_consistent u m : consistent u m → consistent u (move_back m).1.
Proof.
  apply consistent_same_fields; rewrite move_back_eq;
    destruct (is_finished m); try done; by destruct (last _).
Qed.

Lemma reset_current_ngram_consistent u m :
  consistent u m → consistent u (reset_current_ngram m).1.
Proof.
  intros Hc. rewrite reset_current_ngram_eq.
  destruct (is_finished m) eqn:Hfin; [done|].
  pose proof Hc as (Hall & Hinv & Hcur & Hsh). rewrite Hall, (Hcur Hfin).
  by apply (consistent_same_fields u m).
Qed.

Lemma place_current_ngram_consistent u m :
  consistent u m → consistent u (place_current_ngram m).1.
Proof.
  intros Hc.
  destruct (is_finished m) eqn:Hfin.
  { by rewrite place_current_ngram_unfold, Hfin. }
  pose proof (consistent_separate u m Hc Hfin) as Hsep.
  rewrite place_current_ngram_eq, Hfin by done.
  destruct (insertion m) as [l|e] eqn:Hl; [|done].
  pose proof (insertion_Permutation m l Hl) as Hpl.
  destruct Hc as (Hall & (Hlen & Hset) & Hcur & _).
  specialize (Hcur Hfin).
  set (k := _current_index m) in *.
  assert (Hinv' : length l = k + 1
                  ∧ ∀ x, x ∈ l ↔ x ∈ take (k + 1) (all_ngrams m)).
  { split; [rewrite Hpl; simpl; lia|].
    intros x. replace (k + 1) with (S k) by lia.
    rewrite Hall, (take_S_r u k _ Hcur), Hpl, elem_of_cons, elem_of_app,
      list_elem_of_singleton, Hset, Hall.
    tauto. }
  cbv zeta.
  destruct (is_finished (set_current_index _ _)) eqn:Hfin'.
  - simpl. split; [done|]. split; [exact Hinv'|]. split.
    + unfold is_finished in *; simpl in *. congruence.
    + simpl. by rewrite Hsep.
  - assert (Hlt : k + 1 < length (all_ngrams m)).
    { unfold is_finished in Hfin'; simpl in Hfin'.
      apply bool_decide_eq_false in Hfin'. lia. }
    destruct (lookup_lt_is_Some_2 _ _ Hlt) as [next Hnext].
    rewrite Hnext. simpl. split; [done|]. split; [exact Hinv'|]. split.
    + intros _. simpl. by rewrite <-Hall.
    + simpl. by rewrite Hsep.
Qed.

(** Going back, while the lists are two objects. *)
Lemma previous_ngram_consistent_separate u m :
  NoDup u → ordered_ngrams_is_all_ngrams m = false →
  consistent u m → consistent u (previous_ngram m).1.
Proof.
  intros Hnd Hsep Hc. rewrite previous_ngram_eq by done.
  case_bool_decide as Hk; [by apply reset_current_ngram_consistent|].
  pose proof Hc as (Hall & (Hlen & Hset) & Hcur & _).
  set (k := _current_index m) in *.
  destruct (all_ngrams m !! (k - 1)) as [prev|] eqn:Hprev; [|exact Hc].
  destruct (py_remove prev (ordered_ngrams m)) as [rem|e] eqn:Hrem;
    [|exact Hc].
  clear Hc.
  apply py_remove_Permutation in Hrem.
  cbv zeta. simpl.
  rewrite Hall in *.
  assert (Hk1 : k - 1 < length u) by (by apply lookup_lt_is_Some_1; eauto).
  assert (Htake : take k u = take (k - 1) u ++ [prev]).
  { replace k with (S (k - 1)) at 1 by lia. by apply take_S_r. }
  assert (Hnd_take : NoDup (take k u)).
  { apply (sublist_NoDup _ u Hnd), sublist_take. }
  assert (Hnd_ord : NoDup (ordered_ngrams m)).
  { assert (Hsub : take k u ⊆+ ordered_ngrams m).
    { apply NoDup_submseteq; [done|]. intros x. apply Hset. }
    apply submseteq_length_Permutation in Hsub as <-; [done|].
    rewrite Hlen, length_take. lia. }
  rewrite Hrem in Hnd_ord. apply NoDup_cons in Hnd_ord as [Hprev_rem _].
  rewrite Htake in Hnd_take. apply NoDup_app in Hnd_take as (_ & Hdisj & _).
  split; [done|]. split; [split|split]; simpl; rewrite ?Hall.
  - apply Permutation_length in Hrem. simpl in Hrem. lia.
  - intros x. split.
    + intros Hx. assert (Hx' : x ∈ take k u).
      { apply Hset. rewrite Hrem. by right. }
      rewrite Htake, elem_of_app, list_elem_of_singleton in Hx'.
      destruct Hx' as [Hx'| ->]; done.
    + intros Hx. assert (Hx' : x ∈ ordered_ngrams m).
      { apply Hset. rewrite Htake, elem_of_app. by left. }
      rewrite Hrem, elem_of_cons in Hx'. destruct Hx' as [->|Hx']; [|done].
      exfalso. apply (Hdisj prev Hx). by apply list_elem_of_singleton.
  - done.
  - simpl. by rewrite Hsep.
Qed.

(** Going back, when the ordered list is the universe list: the last
    element leaves both, and nothing is left to place. *)
Lemma previous_ngram_consistent_shared u m :
  NoDup u → ordered_ngrams_is_all_ngrams m = true →
  consistent u m →
  ∃ u', u' `prefix_of` u ∧ consistent u' (previous_ngram m).1.
Proof.
  intros Hnd Hsh Hc.
  pose proof Hc as (Hall & (Hlen & Hset) & Hcur & Hord).
  specialize (Hord Hsh).
  rewrite previous_ngram_unfold.
  case_bool_decide as Hk.
  { exists u. split; [done|]. by apply reset_current_ngram_consistent. }
  set (k := _current_index m) in *.
  assert (Hku : k = length u) by (by rewrite <-Hlen, Hord).
  destruct (lookup_lt_is_Some_2 u (k - 1)) as [prev Hprev]; [lia|].
  rewrite Hall, Hprev, Hord.
  rewrite Hku in Hprev |- *.
  rewrite (py_remove_last prev u Hnd Hprev). cbv zeta.
  unfold mutate_ordered_ngrams. rewrite Hsh.
  cbn [all_ngrams set_current_index].
  assert (Hnone : take (length u - 1) u !! (length u - 1) = None).
  { apply lookup_ge_None_2. rewrite length_take. lia. }
  rewrite Hnone.
  exists (take (length u - 1) u). split; [apply prefix_take|].
  unfold consistent, prefix_invariant, is_finished. simpl.
  rewrite length_take.
  split; [done|]. split; [split|split].
  - lia.
  - intros x.
    by rewrite (take_ge (take (length u - 1) u))
      by (rewrite length_take; lia).
  - by rewrite bool_decide_eq_true_2.
  - done.
Qed.

Lemma load_state_consistent u o m :
  consistent u m → consistent u (load_state o m).1.
Proof.
  intros Hc. rewrite load_state_eq.
  case_bool_decide as Hne; [done|].
  destruct Hc as (Hall & _ & _).
  set (l := contents_of o m) in *.
  assert (Hinv : ∀ x, x ∈ l ↔ x ∈ take (length l) (all_ngrams m)).
  { intros x. rewrite <-(elem_of_list_to_set (C:=gset KeySeq)), Hne.
    apply elem_of_list_to_set. }
  assert (Hsh : match o with AllNgramsObject => true | OtherList _ => false end
                = true → l = u).
  { destruct o; [by rewrite <-Hall|done]. }
  cbv zeta.
  destruct (is_finished _) eqn:Hfin; simpl.
  - split; [done|]. split; [done|]. split; [|done].
    unfold is_finished in *; simpl in *. congruence.
  - assert (Hlt : length l < length (all_ngrams m)).
    { unfold is_finished in Hfin; simpl in Hfin.
      apply bool_decide_eq_false in Hfin. fold l in Hfin. lia. }
    destruct (lookup_lt_is_Some_2 _ _ Hlt) as [next Hnext].
    rewrite Hnext. simpl. split; [done|]. split; [done|]. split; [|done].
    intros _. simpl. by rewrite <-Hall.
Qed.

Lemma call_consistent u o m :
  NoDup u → consistent u m →
  ∃ u', u' `prefix_of` u ∧ consistent u' (call o m).
Proof.
  intros Hnd Hc. destruct o; simpl.
  - exists u. split; [done|]. by apply place_current_ngram_consistent.
  - exists u. split; [done|]. by apply move_left_consistent.
  - exists u. split; [done|]. by apply move_right_consistent.
  - exists u. split; [done|]. by apply move_back_consistent.
  - exists u. split; [done|]. by apply reset_current_ngram_consistent.
  - destruct (ordered_ngrams_is_all_ngrams m) eqn:Hsh.
    + by apply previous_ngram_consistent_shared.
    + exists u. split; [done|]. by apply previous_ngram_consistent_separate.
  - exists u. split; [done|]. by apply load_state_consistent.
Qed.

Lemma init_consistent u callback self :
  __init__ u callback = Ok self → consistent u self.
Proof.
  destruct u as [|x u]; [done|].
  rewrite init_cons. intros [= <-].
  unfold consistent, prefix_invariant; simpl.
  repeat split; try done.
Qed.

Lemma prefix_NoDup (l u : list KeySeq) : l `prefix_of` u → NoDup u → NoDup l.
Proof. intros [k ->] Hnd. by apply NoDup_app in Hnd as (? & _). Qed.

(** While the client keeps the universe list to itself, no call changes
    that list or makes the ordered list the same object. *)
Lemma call_separate o m :
  separate o → ordered_ngrams_is_all_ngrams m = false →
  all_ngrams (call o m) = all_ngrams m
  ∧ ordered_ngrams_is_all_ngrams (call o m) = false.
Proof.
  intros Ho Hsep. destruct o as [| | | | | |o]; simpl.
  - rewrite place_current_ngram_eq by done.
    destruct (is_finished m); [done|].
    destruct (insertion m); [|done]. cbv zeta.
    destruct (is_finished _); [done|]. by destruct (_ !! _).
  - rewrite move_left_eq. by destruct (_ || _).
  - rewrite move_right_eq. by destruct (_ || _).
  - rewrite move_back_eq. destruct (is_finished m); [done|].
    by destruct (last _).
  - rewrite reset_current_ngram_eq. destruct (is_finished m); [done|].
    by destruct (_ !! _).
  - rewrite previous_ngram_eq by done. case_bool_decide.
    + rewrite reset_current_ngram_eq. destruct (is_finished m); [done|].
      by destruct (_ !! _).
    + destruct (_ !! _); [|done]. by destruct (py_remove _ _).
  - destruct o as [|l]; [done|].
    rewrite load_state_eq. case_bool_decide; [done|]. cbv zeta.
    destruct (is_finished _); [done|]. by destruct (_ !! _).
Qed.

Lemma calls_separate os m :
  Forall separate os → ordered_ngrams_is_all_ngrams m = false →
  all_ngrams (calls os m) = all_ngrams m
  ∧ ordered_ngrams_is_all_ngrams (calls os m) = false.
Proof.
  unfold calls. intros Hos. revert m.
  induction Hos as [|o os Ho Hos IH]; intros m Hsep; simpl; [done|].
  destruct (call_separate o m Ho Hsep) as [Hall Hsep'].
  destruct (IH _ Hsep') as [Hall' Hsep'']. split; [congruence|done].
Qed.

Lemma init_separate u callback self :
  __init__ u callback = Ok self →
  all_ngrams self = u ∧ ordered_ngrams_is_all_ngrams self = false.
Proof.
  destruct u as [|x u]; [done|]. rewrite init_cons. by intros [= <-].
Qed.

(** C9. In a universe without repeated elements, the manager returned by
    the constructor satisfies the invariant, and so does the manager after
    any sequence of calls of its public operations (whatever they return or
    raise, and whatever list object [load_state] is given):
    [ordered_ngrams] has cursor-many elements, which are exactly the first
    cursor-many elements of [all_ngrams].  The universe list itself never
    gains an element: it holds the first elements of the list the manager
    was built over, and all of them as long as the client has not handed
    that very list to [load_state]. *)
Theorem ordered_ngrams_prefix_invariant permutations callback self os :
  NoDup permutations →
  __init__ permutations callback = Ok self →
  all_ngrams (calls os self) `prefix_of` permutations
  ∧ (Forall separate os → all_ngrams (calls os self) = permutations)
  ∧ length (ordered_ngrams (calls os self)) = _current_index (calls os self)
  ∧ ∀ x, x ∈ ordered_ngrams (calls os self)
         ↔ x ∈ take (_current_index (calls os self))
                    (all_ngrams (calls os self)).
Proof.
  intros Hnd Hinit.
  assert (Hc : ∃ u, u `prefix_of` permutations
                    ∧ consistent u (calls os self)).
  { assert (Hc0 : ∃ u, u `prefix_of` permutations ∧ consistent u self)
      by (exists permutations; split; [done|by eapply init_consistent]).
    clear Hinit. revert self Hc0. unfold calls.
    induction os as [|o os IH]; intros self Hc0; simpl; [done|].
    apply IH. destruct Hc0 as (u & Hu & Hc).
    destruct (call_consistent u o self (prefix_NoDup _ _ Hu Hnd) Hc)
      as (u' & Hu' & Hc').
    exists u'. split; [by etrans|done]. }
  destruct Hc as (u & Hu & Hall & (Hlen & Hset) & _).
  split; [by rewrite Hall|]. split; [|done].
  intros Hos. destruct (init_separate _ _ _ Hinit) as [Hall0 Hsep0].
  by destruct (calls_separate os self Hos Hsep0) as [-> _].
Qed.

Lemma ordered_ngrams_prefix_invariant_witness :
  NoDup universe7
  ∧ __init__ universe7 true = Ok fresh_manager7
  ∧ all_ngrams (calls calls_with_shared_list fresh_manager7)
    = [[0]; [1]; [2]; [3]; [4]; [5]]%Z
  ∧ all_ngrams (calls calls_with_shared_list fresh_manager7)
    `prefix_of` universe7
  ∧ (Forall separate calls_with_shared_list →
     all_ngrams (calls calls_with_shared_list fresh_manager7) = universe7)
  ∧ length (ordered_ngrams (calls calls_with_shared_list fresh_manager7))
    = _current_index (calls calls_with_shared_list fresh_manager7)
  ∧ ∀ x, x ∈ ordered_ngrams (calls calls_with_shared_list fresh_manager7)
         ↔ x ∈ take (_current_index
                       (calls calls_with_shared_list fresh_manager7))
                    (all_ngrams (calls calls_with_shared_list fresh_manager7)).
Proof.
  assert (Hnd : NoDup universe7)
    by (refine (bool_decide_unpack _ _); vm_compute; exact Logic.I).
  split; [exact Hnd|]. split; [reflexivity|]. split; [reflexivity|].
  exact (ordered_ngrams_prefix_invariant universe7 true fresh_manager7
           calls_with_shared_list Hnd eq_refl).
Defined.

(** ** The search window *)

(** Both ways of splitting cut the list at a midpoint that leaves two parts
    whose sizes differ by at most one. *)
Lemma split_midpoint l side :
  ∃ mid,
    split_ordered_ngrams_into_two_halfs l side
    = (last (take mid l), head (drop mid l), take mid l, drop mid l)
    ∧ mid ≤ length l
    ∧ 2 * mid ≤ length l + 1
    ∧ length l ≤ 2 * mid + 1.
Proof.
  unfold split_ordered_ngrams_into_two_halfs.
  pose proof (Nat.div_mod_eq (length l) 2) as Hdiv.
  pose proof (Nat.mod_upper_bound (length l) 2) as Hmod.
  destruct (bool_decide _ && bool_decide _) eqn:E.
  - apply andb_true_iff in E as [E _]. apply bool_decide_eq_true in E.
    exists (length l `div` 2 + 1). split; [done|]. lia.
  - exists (length l `div` 2). split; [done|]. lia.
Qed.

Lemma window_split l side :
  window l (new_state (split_ordered_ngrams_into_two_halfs l side)).
Proof.
  destruct (split_midpoint l side) as (mid & -> & Hmid & H1 & H2).
  exists [], []. simpl. rewrite app_nil_r, take_drop.
  rewrite length_take, length_drop.
  repeat split; try done; lia.
Qed.

(** Splitting a part of the window again keeps the window in the list. *)
Lemma window_narrow l (pre part post : list KeySeq) side :
  l = pre ++ part ++ post → part ≠ [] →
  window l (new_state (split_ordered_ngrams_into_two_halfs part side)).
Proof.
  intros -> Hne.
  destruct (split_midpoint part side) as (mid & -> & Hmid & H1 & H2).
  exists pre, post. simpl.
  rewrite length_take, length_drop.
  repeat split; try done; try lia.
  - by rewrite (app_assoc (take mid part)), take_drop.
  - intros _. by rewrite take_drop.
Qed.

(** ** Every reachable manager is sound *)

Local Ltac fields :=
  cbn [fst snd
       all_ngrams _current_index current_ngram _current_ngram_movement_history
       ordered_ngrams placement_state _callback notifications
       ordered_ngrams_is_all_ngrams
       highest_low lowest_high low_effort_sequences hight_effort_sequences].

Lemma sound_set_notifications u n m :
  sound u m → sound u (set_notifications n m).
Proof. by destruct m. Qed.

Lemma sound_finished u m :
  all_ngrams m = u →
  ordered_ngrams_is_all_ngrams m = false →
  length (ordered_ngrams m) = _current_index m →
  _current_index m ≤ length u →
  ordered_ngrams m ≡ₚ take (_current_index m) u →
  is_finished m = true →
  sound u m.
Proof. intros ????? Hfin. repeat split; try done; congruence. Qed.

Lemma sound_placing u ngram m :
  all_ngrams m = u →
  ordered_ngrams_is_all_ngrams m = false →
  length (ordered_ngrams m) = _current_index m →
  _current_index m ≤ length u →
  ordered_ngrams m ≡ₚ take (_current_index m) u →
  u !! _current_index m = Some ngram →
  sound u (placing ngram m).
Proof.
  intros. unfold sound, placing; fields.
  repeat split; try done. apply window_split.
Qed.

Lemma init_sound u callback self :
  __init__ u callback = Ok self → sound u self.
Proof.
  destruct u as [|x u]; [done|].
  rewrite init_cons. intros [= <-].
  unfold sound; simpl. repeat split; try done; try lia.
  exists [], []. repeat split; simpl; try done; lia.
Qed.

Lemma place_current_ngram_sound u m :
  sound u m → sound u (place_current_ngram m).1.
Proof.
  intros Hs. pose proof Hs as (Hall & Hsep & Hlen & Hle & Hperm & Hcur).
  rewrite place_current_ngram_eq by done.
  destruct (is_finished m) eqn:Hfin; [done|].
  destruct (insertion m) as [l|e] eqn:Hl; [|done].
  pose proof (insertion_Permutation m l Hl) as Hpl.
  destruct (Hcur eq_refl) as (Hk & _).
  set (k := _current_index m) in *.
  assert (Hlt : k < length u) by (apply lookup_lt_is_Some_1; eauto).
  assert (Hlen' : length l = k + 1) by (rewrite Hpl; simpl; lia).
  assert (Hperm' : l ≡ₚ take (k + 1) u).
  { replace (k + 1) with (S k) by lia.
    rewrite Hpl, (take_S_r u k _ Hk), Hperm. apply Permutation_cons_append. }
  cbv zeta.
  destruct (is_finished (set_current_index _ _)) eqn:Hfin'.
  - apply sound_set_notifications, sound_finished; simpl; try done. lia.
  - assert (Hlt' : k + 1 < length (all_ngrams m)).
    { unfold is_finished in Hfin'; simpl in Hfin'.
      apply bool_decide_eq_false in Hfin'. lia. }
    destruct (lookup_lt_is_Some_2 _ _ Hlt') as [next Hnext].
    rewrite Hnext. simpl.
    apply sound_placing; simpl; try done; [lia|by rewrite <-Hall].
Qed.

Lemma move_left_sound u m : sound u m → sound u (move_left m).1.
Proof.
  intros Hs. rewrite move_left_eq.
  destruct (bool_decide _ || is_finished m) eqn:Hc; [done|].
  apply orb_false_iff in Hc as [Hleft Hfin].
  apply bool_decide_eq_false in Hleft.
  destruct Hs as (Hall & Hsep & Hlen & Hle & Hperm & Hcur).
  destruct (Hcur Hfin) as (Hk & Hw & Hh).
  unfold sound; fields.
  split; [done|]. split; [done|]. split; [done|]. split; [done|].
  split; [done|].
  intros _. split; [done|]. split.
  - destruct Hw as (pre & post & Heq & Hlow & _).
    unfold ngrams_left_side_of_current.
    eapply (window_narrow _ pre _ (_ ++ post)); [exact Heq|].
    intros Hnil. apply Hleft. unfold left_of_current.
    by rewrite Hlow, Hnil.
  - apply Forall_app. split; [done|]. by constructor.
Qed.

Lemma move_right_sound u m : sound u m → sound u (move_right m).1.
Proof.
  intros Hs. rewrite move_right_eq.
  destruct (bool_decide _ || is_finished m) eqn:Hc; [done|].
  apply orb_false_iff in Hc as [Hright Hfin].
  apply bool_decide_eq_false in Hright.
  destruct Hs as (Hall & Hsep & Hlen & Hle & Hperm & Hcur).
  destruct (Hcur Hfin) as (Hk & Hw & Hh).
  unfold sound; fields.
  split; [done|]. split; [done|]. split; [done|]. split; [done|].
  split; [done|].
  intros _. split; [done|]. split.
  - destruct Hw as (pre & post & Heq & _ & Hhigh & _).
    unfold ngrams_right_side_of_current.
    eapply (window_narrow _ (pre ++ _) _ post).
    + rewrite Heq at 1. by rewrite <-app_assoc.
    + intros Hnil. apply Hright. unfold right_of_current.
      by rewrite Hhigh, Hnil.
  - apply Forall_app. split; [done|]. by constructor.
Qed.

Lemma move_back_sound u m : sound u m → sound u (move_back m).1.
Proof.
  intros Hs. rewrite move_back_eq.
  destruct (is_finished m) eqn:Hfin; [done|].
  destruct (last _) as [st|] eqn:Hlast;
    [|by apply sound_set_notifications].
  destruct Hs as (Hall & Hsep & Hlen & Hle & Hperm & Hcur).
  destruct (Hcur Hfin) as (Hk & Hw & Hh).
  apply last_Some in Hlast as [h' Hh'].
  rewrite Hh' in Hh |- *. apply Forall_app in Hh as [Hh1 Hh2].
  rewrite Forall_singleton in Hh2.
  unfold sound; fields.
  split; [done|]. split; [done|]. split; [done|]. split; [done|].
  split; [done|].
  intros _. split; [done|]. split; [done|].
  by rewrite removelast_last.
Qed.

Lemma reset_current_ngram_sound u m :
  sound u m → sound u (reset_current_ngram m).1.
Proof.
  intros Hs. rewrite reset_current_ngram_eq.
  destruct (is_finished m) eqn:Hfin; [done|].
  destruct Hs as (Hall & Hsep & Hlen & Hle & Hperm & Hcur).
  destruct (Hcur Hfin) as (Hk & _).
  rewrite Hall, Hk. simpl.
  by apply sound_set_notifications, sound_placing.
Qed.

Lemma previous_ngram_sound u m :
  sound u m → sound u (previous_ngram m).1.
Proof.
  intros Hs. pose proof Hs as (Hall & Hsep & Hlen & Hle & Hperm & _).
  rewrite previous_ngram_eq by done.
  case_bool_decide as Hk; [by apply reset_current_ngram_sound|].
  set (k := _current_index m) in *.
  destruct (all_ngrams m !! (k - 1)) as [prev|] eqn:Hprev; [|done].
  destruct (py_remove prev _) as [rem|e] eqn:Hrem; [|done].
  apply py_remove_Permutation in Hrem.
  rewrite Hall in Hprev.
  assert (Htake : take k u = take (k - 1) u ++ [prev]).
  { replace k with (S (k - 1)) at 1 by lia. by apply take_S_r. }
  assert (Hperm' : rem ≡ₚ take (k - 1) u).
  { apply (Permutation_cons_inv (a:=prev)).
    rewrite <-Hrem, Hperm, Htake. symmetry. apply Permutation_cons_append. }
  simpl. apply sound_set_notifications, sound_placing; simpl; try done.
  - rewrite Hperm', length_take. lia.
  - lia.
Qed.

(** Loading a list of the client's own either fails and changes nothing, or
    leaves two lists and a sound manager, whatever the manager was. *)
Lemma load_state_other u l m :
  NoDup l → all_ngrams m = u →
  (load_state (OtherList l) m).1 = m ∨ sound u (load_state (OtherList l) m).1.
Proof.
  intros Hnd Hall. rewrite load_state_eq. cbn [contents_of].
  case_bool_decide as Hne; [by left|]. right.
  rewrite Hall in Hne |- *.
  assert (Hperm : l ≡ₚ take (length l) u).
  { apply submseteq_length_Permutation; [|rewrite length_take; lia].
    apply NoDup_submseteq; [done|]. intros x Hx.
    apply (elem_of_list_to_set (C:=gset KeySeq)). rewrite <-Hne.
    by apply elem_of_list_to_set. }
  assert (Hle : length l ≤ length u).
  { apply Permutation_length in Hperm. rewrite length_take in Hperm. lia. }
  cbv zeta.
  destruct (is_finished _) eqn:Hfin.
  - by apply sound_set_notifications, sound_finished.
  - assert (Hlt : length l < length u).
    { unfold is_finished in Hfin; simpl in Hfin. rewrite Hall in Hfin.
      apply bool_decide_eq_false in Hfin. lia. }
    destruct (lookup_lt_is_Some_2 _ _ Hlt) as [next Hnext].
    rewrite Hnext. by apply sound_placing.
Qed.

Lemma load_state_sound u l m :
  NoDup l → sound u m → sound u (load_state (OtherList l) m).1.
Proof.
  intros Hnd Hs.
  destruct (load_state_other u l m Hnd (proj1 Hs)) as [->|]; done.
Qed.

Lemma call_sound u o m :
  admissible o → separate o → sound u m → sound u (call o m).
Proof.
  intros Ho Hsep Hs. destruct o as [| | | | | |o]; simpl.
  - by apply place_current_ngram_sound.
  - by apply move_left_sound.
  - by apply move_right_sound.
  - by apply move_back_sound.
  - by apply reset_current_ngram_sound.
  - by apply previous_ngram_sound.
  - destruct o as [|l]; [done|]. by apply load_state_sound.
Qed.

(** *** When the ordered list is the universe list *)

Lemma shared_finished m : shared m → is_finished m = true.
Proof.
  intros (_ & Hord & _). unfold is_finished. rewrite Hord.
  by apply bool_decide_eq_true_2.
Qed.

(** Given the universe list itself, [load_state] always returns, and the
    manager shares the list from then on. *)
Lemma load_state_all_ngrams m :
  (load_state AllNgramsObject m).2 = Ok tt
  ∧ shared (load_state AllNgramsObject m).1
  ∧ all_ngrams (load_state AllNgramsObject m).1 = all_ngrams m.
Proof.
  rewrite load_state_eq. cbn [contents_of]. rewrite firstn_all.
  rewrite bool_decide_eq_false_2 by (by intros ?). cbv zeta.
  assert (Hfin : is_finished
                   (set_current_index (length (all_ngrams m))
                      (assign_ordered_ngrams AllNgramsObject m)) = true).
  { unfold is_finished; simpl. by apply bool_decide_eq_true_2. }
  rewrite Hfin. done.
Qed.

(** On a finished manager the operations that place or move return
    without touching the object. *)
Lemma finished_unchanged m :
  is_finished m = true →
  place_current_ngram m = (m, Ok None)
  ∧ move_left m = (m, Ok tt)
  ∧ move_right m = (m, Ok tt)
  ∧ move_back m = (m, Ok tt)
  ∧ reset_current_ngram m = (m, Ok tt).
Proof.
  intros Hfin.
  rewrite place_current_ngram_unfold, move_left_eq, move_right_eq,
    move_back_eq, reset_current_ngram_eq, Hfin, !orb_true_r. done.
Qed.

(** Going back on a shared list takes one element out of the universe and
    then fails to find the element under the cursor. *)
Lemma previous_ngram_shared_eq m :
  shared m → 1 ≤ _current_index m →
  ∃ prev rem,
    all_ngrams m !! (_current_index m - 1) = Some prev
    ∧ py_remove prev (all_ngrams m) = Ok rem
    ∧ length rem + 1 = length (all_ngrams m)
    ∧ previous_ngram m
      = (mkManager rem (_current_index m - 1) (current_ngram m)
           (_current_ngram_movement_history m) rem (placement_state m)
           (_callback m) (notifications m) true, Raise IndexError).
Proof.
  intros (Hflag & Hord & Hidx) Hk.
  destruct (lookup_lt_is_Some_2 (all_ngrams m) (_current_index m - 1))
    as [prev Hprev]; [lia|].
  destruct (py_remove_elem prev (all_ngrams m)) as [rem Hrem].
  { by eapply list_elem_of_lookup_2. }
  pose proof Hrem as Hlen.
  apply py_remove_Permutation, Permutation_length in Hlen. simpl in Hlen.
  exists prev, rem. split; [done|]. split; [done|]. split; [lia|].
  rewrite previous_ngram_unfold, bool_decide_eq_false_2 by lia.
  rewrite Hprev, Hord, Hrem. cbv zeta.
  unfold mutate_ordered_ngrams. rewrite Hflag.
  cbn [all_ngrams set_current_index].
  by rewrite (lookup_ge_None_2 rem) by lia.
Qed.

Lemma previous_ngram_shared m :
  shared m →
  shared (previous_ngram m).1
  ∧ all_ngrams (previous_ngram m).1 `sublist_of` all_ngrams m
  ∧ ((previous_ngram m).2 = Ok tt ∨ (previous_ngram m).2 = Raise IndexError).
Proof.
  intros Hsh. pose proof Hsh as (_ & _ & Hidx).
  destruct (decide (1 ≤ _current_index m)) as [Hk|Hk].
  - destruct (previous_ngram_shared_eq m Hsh Hk)
      as (prev & rem & _ & Hrem & Hlen & ->).
    apply py_remove_sublist in Hrem. unfold shared. simpl.
    split; [split; [done|split; [done|lia]]|]. split; [done|by right].
  - rewrite previous_ngram_unfold, bool_decide_eq_true_2 by lia.
    destruct (finished_unchanged m (shared_finished m Hsh))
      as (_ & _ & _ & _ & ->). auto.
Qed.

(** *** Every call keeps the manager reachable *)

Lemma call_reachable u o m :
  admissible o → reachable u m → reachable u (call o m).
Proof.
  intros Ho [Hsub [Hs|Hsh]].
  - destruct o as [| | | | | |[|l]];
      try (assert (Hs' : sound (all_ngrams m) (call _ m))
             by (by apply call_sound);
           split; [by rewrite (proj1 Hs')|left; by rewrite (proj1 Hs')]).
    simpl. destruct (load_state_all_ngrams m) as (_ & Hsh' & Hall').
    split; [by rewrite Hall'|by right].
  - pose proof (finished_unchanged m (shared_finished m Hsh))
      as (Hp & Hl & Hr & Hb & Hre).
    destruct o as [| | | | | |[|l]]; simpl;
      rewrite ?Hp, ?Hl, ?Hr, ?Hb, ?Hre; try (split; [done|by right]).
    + destruct (previous_ngram_shared m Hsh) as (Hsh' & Hsub' & _).
      split; [by etrans|by right].
    + destruct (load_state_all_ngrams m) as (_ & Hsh' & Hall').
      split; [by rewrite Hall'|by right].
    + destruct (load_state_other (all_ngrams m) l m Ho eq_refl) as [->|Hs'].
      * split; [done|by right].
      * split; [by rewrite (proj1 Hs')|left; by rewrite (proj1 Hs')].
Qed.

Lemma calls_reachable u os m :
  Forall admissible os → reachable u m → reachable u (calls os m).
Proof.
  unfold calls. intros Hos. revert m.
  induction Hos as [|o os Ho Hos IH]; intros m Hs; simpl; [done|].
  apply IH. by apply call_reachable.
Qed.

Lemma init_reachable u callback self :
  __init__ u callback = Ok self → reachable u self.
Proof.
  intros Hinit. pose proof (init_sound _ _ _ Hinit) as Hs.
  split; [by rewrite (proj1 Hs)|left; by rewrite (proj1 Hs)].
Qed.

(** A reachable manager with something left to place is sound for what its
    universe list holds, and that list has no repeated element when the
    list the manager was built over has none. *)
Lemma reachable_unfinished u m :
  reachable u m → is_finished m = false →
  sound (all_ngrams m) m ∧ (NoDup u → NoDup (all_ngrams m)).
Proof.
  intros [Hsub [Hs|Hsh]] Hfin.
  - split; [done|]. intros Hnd. by eapply sublist_NoDup.
  - by rewrite (shared_finished m Hsh) in Hfin.
Qed.

(** ** Which operations raise on a reachable manager *)

Lemma window_neighbours l ps :
  window l ps →
  (∀ x, highest_low ps = Some x → x ∈ l)
  ∧ (∀ x, lowest_high ps = Some x → x ∈ l).
Proof.
  intros (pre & post & -> & Hlow & Hhigh & _). split; intros x Hx.
  - rewrite Hlow in Hx. apply last_Some_elem_of in Hx.
    rewrite !elem_of_app. auto.
  - rewrite Hhigh in Hx. apply head_Some_elem_of in Hx.
    rewrite !elem_of_app. auto.
Qed.

Lemma insertion_in_window self :
  window (ordered_ngrams self) (placement_state self) →
  ∃ l, insertion self = Ok l.
Proof.
  intros [Hl Hr]%window_neighbours.
  unfold insertion, left_of_current, right_of_current.
  destruct (highest_low _) as [x|].
  - destruct (py_index_elem x _ (Hl x eq_refl)) as [i ->]. simpl. eauto.
  - destruct (lowest_high _) as [x|]; [|eauto].
    destruct (py_index_elem x _ (Hr x eq_refl)) as [i ->]. simpl. eauto.
Qed.

Lemma place_current_ngram_returns u m :
  sound u m → ∃ r, (place_current_ngram m).2 = Ok r.
Proof.
  intros (Hall & Hsep & Hlen & Hle & Hperm & Hcur).
  rewrite place_current_ngram_eq by done.
  destruct (is_finished m) eqn:Hfin; [by eexists|].
  destruct (Hcur eq_refl) as (Hk & Hw & _).
  destruct (insertion_in_window m Hw) as [l Hl]. rewrite Hl.
  apply insertion_Permutation, Permutation_length in Hl. simpl in Hl.
  cbv zeta.
  destruct (is_finished (set_current_index _ _)) eqn:Hfin'; [by eexists|].
  unfold is_finished in Hfin'; simpl in Hfin'.
  apply bool_decide_eq_false in Hfin'.
  destruct (lookup_lt_is_Some_2 (all_ngrams m) (_current_index m + 1))
    as [next ->]; [lia|by eexists].
Qed.

Lemma previous_ngram_returns u m :
  sound u m → (previous_ngram m).2 = Ok tt.
Proof.
  intros (Hall & Hsep & Hlen & Hle & Hperm & Hcur).
  rewrite previous_ngram_eq by done. case_bool_decide as Hk.
  - rewrite reset_current_ngram_eq.
    destruct (is_finished m) eqn:Hfin; [done|].
    destruct (Hcur eq_refl) as (Hk' & _). by rewrite Hall, Hk'.
  - set (k := _current_index m) in *.
    destruct (lookup_lt_is_Some_2 u (k - 1)) as [prev Hprev]; [lia|].
    rewrite Hall, Hprev.
    destruct (py_remove_elem prev (ordered_ngrams m)) as [rem ->]; [|done].
    rewrite Hperm. replace k with (S (k - 1)) by lia.
    rewrite (take_S_r _ _ _ Hprev), elem_of_app, list_elem_of_singleton. auto.
Qed.

(** [load_state] returns or raises [ValueError], whatever it is given. *)
Lemma load_state_outcome o m :
  (load_state o m).2 = Ok tt ∨ (load_state o m).2 = Raise ValueError.
Proof.
  rewrite load_state_eq. case_bool_decide; [by right|].
  left. cbv zeta.
  destruct (is_finished (set_current_index _ _)) eqn:Hfin; [done|].
  unfold is_finished in Hfin; simpl in Hfin.
  apply bool_decide_eq_false in Hfin.
  destruct (lookup_lt_is_Some_2 (all_ngrams m) (length (contents_of o m)))
    as [next ->]; [|done].
  destruct o; simpl in *; lia.
Qed.

(** X1. On a manager built by the constructor and driven by its public
    operations (a list of the client's own that is loaded having no
    repeated element), [place_current_ngram], [move_left], [move_right],
    [move_back] and [reset_current_ngram] never raise, and [load_state]
    either returns or raises [ValueError].  [previous_ngram] never raises
    either, except when [ordered_ngrams] is the universe list itself: then
    it may raise [IndexError].  That is so only after the client has handed
    the universe list to [load_state]. *)
Theorem operations_raise_only_when_shared permutations callback self os o :
  __init__ permutations callback = Ok self →
  Forall admissible os →
  (outcome o (calls os self) = Ok tt
   ∨ (∃ l, o = LoadState l) ∧ outcome o (calls os self) = Raise ValueError
   ∨ o = PreviousNgram
     ∧ ordered_ngrams_is_all_ngrams (calls os self) = true
     ∧ outcome o (calls os self) = Raise IndexError)
  ∧ (Forall separate os →
     ordered_ngrams_is_all_ngrams (calls os self) = false).
Proof.
  intros Hinit Hos. split.
  2:{ intros Hsep.
      by apply (calls_separate os self Hsep),
        (init_separate permutations callback). }
  assert (Hr : reachable permutations (calls os self))
    by (by apply calls_reachable, (init_reachable _ callback)).
  generalize dependent (calls os self). intros m [_ [Hs|Hsh]].
  - destruct o; simpl.
    + left. by destruct (place_current_ngram_returns _ m Hs) as [r ->].
    + left. rewrite move_left_eq. by destruct (_ || _).
    + left. rewrite move_right_eq. by destruct (_ || _).
    + left. rewrite move_back_eq.
      destruct (is_finished m); [done|]. by destruct (last _).
    + left. rewrite reset_current_ngram_eq.
      destruct (is_finished m) eqn:Hfin; [done|].
      destruct Hs as (Hall & _ & _ & _ & _ & Hcur).
      destruct (Hcur Hfin) as (Hk & _). by rewrite Hk.
    + left. by apply (previous_ngram_returns (all_ngrams m)).
    + destruct (load_state_outcome ordered_ngrams0 m) as [->| ->];
        [by left|right; left; eauto].
  - pose proof (finished_unchanged m (shared_finished m Hsh))
      as (Hp & Hl & Hr & Hb & Hre).
    destruct o; simpl; rewrite ?Hp, ?Hl, ?Hr, ?Hb, ?Hre; try by left.
    + destruct (previous_ngram_shared m Hsh) as (_ & _ & [->| ->]);
        [by left|].
      right; right. by destruct Hsh as (? & _).
    + destruct (load_state_outcome ordered_ngrams0 m) as [->| ->];
        [by left|right; left; eauto].
Qed.

(** Closed instances of [NoDup] and of [Forall admissible]. *)
Local Ltac closed_NoDup :=
  refine (bool_decide_unpack _ _); vm_compute; exact Logic.I.
Local Ltac closed_admissible :=
  repeat (constructor; [simpl; first [exact Logic.I | closed_NoDup]|]);
  constructor.

Lemma operations_raise_only_when_shared_witness :
  __init__ universe7 true = Ok fresh_manager7
  ∧ Forall admissible
      [PlaceCurrentNgram; MoveRight; PlaceCurrentNgram;
       LoadState (OtherList [[2]; [0]; [1]]%Z); MoveLeft;
       LoadState AllNgramsObject]
  ∧ outcome PreviousNgram
      (calls [PlaceCurrentNgram; MoveRight; PlaceCurrentNgram;
              LoadState (OtherList [[2]; [0]; [1]]%Z); MoveLeft;
              LoadState AllNgramsObject]
         fresh_manager7) = Raise IndexError
  ∧ (outcome PreviousNgram
       (calls [PlaceCurrentNgram; MoveRight; PlaceCurrentNgram;
               LoadState (OtherList [[2]; [0]; [1]]%Z); MoveLeft;
               LoadState AllNgramsObject]
          fresh_manager7) = Ok tt
     ∨ (∃ l, PreviousNgram = LoadState l)
       ∧ outcome PreviousNgram
           (calls [PlaceCurrentNgram; MoveRight; PlaceCurrentNgram;
                   LoadState (OtherList [[2]; [0]; [1]]%Z); MoveLeft;
                   LoadState AllNgramsObject]
              fresh_manager7) = Raise ValueError
     ∨ PreviousNgram = PreviousNgram
       ∧ ordered_ngrams_is_all_ngrams
           (calls [PlaceCurrentNgram; MoveRight; PlaceCurrentNgram;
                   LoadState (OtherList [[2]; [0]; [1]]%Z); MoveLeft;
                   LoadState AllNgramsObject]
              fresh_manager7) = true
       ∧ outcome PreviousNgram
           (calls [PlaceCurrentNgram; MoveRight; PlaceCurrentNgram;
                   LoadState (OtherList [[2]; [0]; [1]]%Z); MoveLeft;
                   LoadState AllNgramsObject]
              fresh_manager7) = Raise IndexError).
Proof.
  assert (Hos : Forall admissible
                  [PlaceCurrentNgram; MoveRight; PlaceCurrentNgram;
                   LoadState (OtherList [[2]; [0]; [1]]%Z); MoveLeft;
                   LoadState AllNgramsObject]).
  { closed_admissible. }
  split; [reflexivity|]. split; [exact Hos|]. split; [reflexivity|].
  apply (proj1 (operations_raise_only_when_shared universe7 true
                  fresh_manager7 _ PreviousNgram eq_refl Hos)).
Defined.

(** ** Where the current ngram lands *)

(** What [current_placement_index] announces is what [insertion] does. *)
Lemma current_placement_index_Some self idx :
  current_placement_index self = Ok (Some idx) →
  is_finished self = false
  ∧ idx ≤ length (ordered_ngrams self)
  ∧ insertion self
    = Ok (py_insert idx (current_ngram self) (ordered_ngrams self)).
Proof.
  unfold current_placement_index, insertion.
  destruct (is_finished self); [done|].
  destruct (left_of_current self) as [x|].
  - destruct (py_index x _) as [i|e] eqn:Ei; simpl; [|done].
    apply py_index_lookup in Ei as [_ Hi].
    destruct (right_of_current self) as [y|].
    + destruct (py_index y _) as [j|e]; simpl; [|done].
      intros [= <-]. split; [done|]. split; [lia|done].
    + simpl. intros [= <-]. split; [done|]. split; [lia|done].
  - simpl. destruct (right_of_current self) as [y|]; [|done].
    destruct (py_index y _) as [j|e] eqn:Ej; simpl; [|done].
    apply py_index_lookup in Ej as [_ Hj].
    intros [= <-]. split; [done|]. split; [lia|done].
Qed.

Lemma place_current_ngram_ordered self l :
  is_finished self = false → insertion self = Ok l →
  ordered_ngrams (place_current_ngram self).1 = l.
Proof.
  intros Hfin Hl. rewrite place_current_ngram_unfold, Hfin, Hl. cbv zeta.
  assert (Hord : ordered_ngrams (mutate_ordered_ngrams l self) = l).
  { unfold mutate_ordered_ngrams.
    by destruct (ordered_ngrams_is_all_ngrams self). }
  destruct (is_finished (set_current_index _ _)); [done|].
  by destruct (_ !! _).
Qed.

(** X2. When [current_placement_index] gives an index, the next
    [place_current_ngram] puts the current ngram at exactly that index of
    [ordered_ngrams], shifting the later ones: the list becomes the first
    [idx] old elements, the current ngram, then the rest. *)
Theorem place_lands_at_placement_index self idx :
  current_placement_index self = Ok (Some idx) →
  idx ≤ length (ordered_ngrams self)
  ∧ ordered_ngrams (place_current_ngram self).1
    = take idx (ordered_ngrams self)
        ++ current_ngram self :: drop idx (ordered_ngrams self)
  ∧ ordered_ngrams (place_current_ngram self).1 !! idx
    = Some (current_ngram self).
Proof.
  intros (Hfin & Hidx & Hins)%current_placement_index_Some.
  rewrite (place_current_ngram_ordered self _ Hfin Hins).
  unfold py_insert. split; [done|]. split; [done|].
  rewrite lookup_app_r; rewrite length_take; [|lia].
  by replace (idx - idx `min` length (ordered_ngrams self)) with 0 by lia.
Qed.

Lemma place_lands_at_placement_index_witness :
  current_placement_index manager_placing_third = Ok (Some 1)
  ∧ 1 ≤ length (ordered_ngrams manager_placing_third)
  ∧ ordered_ngrams (place_current_ngram manager_placing_third).1
    = take 1 (ordered_ngrams manager_placing_third)
        ++ current_ngram manager_placing_third
           :: drop 1 (ordered_ngrams manager_placing_third)
  ∧ ordered_ngrams (place_current_ngram manager_placing_third).1 !! 1
    = Some (current_ngram manager_placing_third).
Proof.
  split; [reflexivity|].
  apply (place_lands_at_placement_index manager_placing_third 1).
  reflexivity.
Defined.

(** ** The widths of the four areas *)

Lemma sound_NoDup u m :
  NoDup u → sound u m → NoDup (ordered_ngrams m).
Proof.
  intros Hnd (_ & _ & _ & _ & Hperm & _). rewrite Hperm.
  apply (sublist_NoDup _ u Hnd), sublist_take.
Qed.

(** In a list without repetition the window sits right around the index
    that [current_placement_index] computes. *)
Lemma current_placement_index_window m pre post :
  NoDup (ordered_ngrams m) →
  is_finished m = false →
  ordered_ngrams m
  = pre ++ ngrams_left_side_of_current m
        ++ ngrams_right_side_of_current m ++ post →
  left_of_current m = last (ngrams_left_side_of_current m) →
  right_of_current m = head (ngrams_right_side_of_current m) →
  current_placement_index m
  = Ok (if bool_decide (ngrams_left_side_of_current m
                          ++ ngrams_right_side_of_current m = [])
        then None
        else Some (length pre + length (ngrams_left_side_of_current m))).
Proof.
  intros Hnd Hfin Heq Hlow Hhigh.
  unfold current_placement_index. rewrite Hfin, Hlow, Hhigh.
  set (low := ngrams_left_side_of_current m) in *.
  set (high := ngrams_right_side_of_current m) in *.
  clearbody low high. rewrite Heq in Hnd |- *. clear Heq Hlow Hhigh.
  assert (Hhead : ∀ y high', high = y :: high' →
            py_index y (pre ++ low ++ high ++ post)
            = Ok (length pre + length low)).
  { intros y high' ->.
    rewrite (app_assoc pre low), <-length_app. simpl.
    apply py_index_middle.
    rewrite (app_assoc pre low) in Hnd.
    apply NoDup_app in Hnd as (_ & Hdisj & _).
    intros Hy. apply (Hdisj y Hy). by left. }
  destruct (last low) as [x|] eqn:El.
  - apply last_Some in El as [low' ->].
    assert (Hx : py_index x (pre ++ (low' ++ [x]) ++ high ++ post)
                 = Ok (length pre + length low')).
    { rewrite <-(app_assoc low'), (app_assoc pre low'), <-length_app. simpl.
      apply py_index_middle.
      rewrite <-(app_assoc low'), (app_assoc pre low') in Hnd. simpl in Hnd.
      apply NoDup_app in Hnd as (_ & Hdisj & _).
      intros Hy. apply (Hdisj x Hy). by left. }
    rewrite Hx. simpl.
    rewrite bool_decide_eq_false_2 by (by destruct low').
    rewrite length_app. simpl.
    destruct high as [|y high']; simpl.
    + do 2 f_equal. lia.
    + pose proof (Hhead y high' eq_refl) as Hy. rewrite length_app in Hy.
      simpl in Hy. rewrite Hy. simpl. do 2 f_equal. lia.
  - apply last_None in El as ->. simpl.
    destruct high as [|y high']; simpl; [done|].
    pose proof (Hhead y high' eq_refl) as Hy. simpl in Hy. by rewrite Hy.
Qed.

(** X3. On a reachable manager over a universe without repeated elements,
    [ordered_ngrams_area_widths] never raises.  While elements are being
    placed into a non-empty ordered list it returns the sizes of the four
    consecutive parts of [ordered_ngrams]: what lies left of the search
    window, the left and the right half of the window, and what lies right
    of it; the placement index is the boundary between the two halves.  So
    the four widths are non-negative and add up to [len(ordered_ngrams)].
    When the manager is finished or nothing is ordered yet the result is
    (0, 50, 50, 0). *)
Theorem area_widths_are_segment_sizes permutations callback self os :
  NoDup permutations →
  __init__ permutations callback = Ok self →
  Forall admissible os →
  (is_finished (calls os self) = true ∨ ordered_ngrams (calls os self) = [] →
   ordered_ngrams_area_widths (calls os self) = Ok (0, 50, 50, 0)%Z)
  ∧ (is_finished (calls os self) = false →
     ordered_ngrams (calls os self) ≠ [] →
     ∃ pre post,
       ordered_ngrams (calls os self)
       = pre ++ ngrams_left_side_of_current (calls os self)
             ++ ngrams_right_side_of_current (calls os self) ++ post
       ∧ current_placement_index (calls os self)
         = Ok (Some (length pre
                     + length (ngrams_left_side_of_current (calls os self))))
       ∧ ordered_ngrams_area_widths (calls os self)
         = Ok (Z.of_nat (length pre),
               Z.of_nat (length (ngrams_left_side_of_current (calls os self))),
               Z.of_nat (length (ngrams_right_side_of_current (calls os self))),
               Z.of_nat (length post))).
Proof.
  intros Hnd Hinit Hos.
  assert (Hr : reachable permutations (calls os self))
    by (by apply calls_reachable, (init_reachable _ callback)).
  generalize dependent (calls os self). intros m Hr.
  unfold ordered_ngrams_area_widths.
  destruct (is_finished m) eqn:Hfin.
  - split; [|done]. intros _. unfold current_placement_index.
    by rewrite Hfin.
  - destruct (reachable_unfinished _ _ Hr Hfin) as [Hs Hndu].
    pose proof (sound_NoDup _ _ (Hndu Hnd) Hs) as Hndo.
    destruct Hs as (Hall & Hsep & Hlen & Hle & Hperm & Hcur).
    destruct (Hcur Hfin) as (_ & (pre & post & Heq & Hlow & Hhigh & Hne & _)
                               & _).
    rewrite (current_placement_index_window m pre post Hndo Hfin Heq Hlow Hhigh).
    split.
    + intros [?|Hnil]; [done|].
      rewrite Hnil in Heq. symmetry in Heq.
      apply app_eq_nil in Heq as [_ Heq].
      rewrite app_assoc in Heq. apply app_eq_nil in Heq as [Heq _].
      unfold ngrams_left_side_of_current, ngrams_right_side_of_current.
      by rewrite bool_decide_eq_true_2.
    + intros _ Hnil. specialize (Hne Hnil).
      exists pre, post. split; [done|].
      unfold ngrams_left_side_of_current, ngrams_right_side_of_current.
      rewrite bool_decide_eq_false_2 by done.
      split; [done|]. simpl.
      apply (f_equal length) in Heq. rewrite !length_app in Heq.
      unfold ngrams_left_side_of_current, ngrams_right_side_of_current in Heq.
      set (L := length (low_effort_sequences (placement_state m))) in *.
      set (H := length (hight_effort_sequences (placement_state m))) in *.
      replace (Z.of_nat (length pre + L) - Z.of_nat L)%Z
        with (Z.of_nat (length pre)) by lia.
      replace (Z.of_nat (length (ordered_ngrams m))
               - Z.of_nat (length pre + L) - Z.of_nat H)%Z
        with (Z.of_nat (length post)) by lia.
      done.
Qed.

Lemma area_widths_are_segment_sizes_witness :
  NoDup universe7
  ∧ __init__ universe7 true = Ok fresh_manager7
  ∧ Forall admissible four_placed_then_left
  ∧ is_finished (calls four_placed_then_left fresh_manager7) = false
  ∧ ordered_ngrams (calls four_placed_then_left fresh_manager7)
    = [[1]; [3]; [2]; [0]]%Z
  ∧ ordered_ngrams_area_widths (calls four_placed_then_left fresh_manager7)
    = Ok (0, 1, 1, 2)%Z
  ∧ ∃ pre post,
      ordered_ngrams (calls four_placed_then_left fresh_manager7)
      = pre ++ ngrams_left_side_of_current
                 (calls four_placed_then_left fresh_manager7)
            ++ ngrams_right_side_of_current
                 (calls four_placed_then_left fresh_manager7) ++ post
      ∧ current_placement_index (calls four_placed_then_left fresh_manager7)
        = Ok (Some (length pre
                    + length (ngrams_left_side_of_current
                                (calls four_placed_then_left fresh_manager7))))
      ∧ ordered_ngrams_area_widths
          (calls four_placed_then_left fresh_manager7)
        = Ok (Z.of_nat (length pre),
              Z.of_nat (length (ngrams_left_side_of_current
                                  (calls four_placed_then_left fresh_manager7))),
              Z.of_nat (length (ngrams_right_side_of_current
                                  (calls four_placed_then_left fresh_manager7))),
              Z.of_nat (length post)).
Proof.
  assert (Hnd : NoDup universe7) by closed_NoDup.
  assert (Hos : Forall admissible four_placed_then_left)
    by (unfold four_placed_then_left; closed_admissible).
  split; [exact Hnd|]. split; [reflexivity|]. split; [exact Hos|].
  split; [reflexivity|]. split; [reflexivity|]. split; [reflexivity|].
  apply (proj2 (area_widths_are_segment_sizes universe7 true fresh_manager7
                  four_placed_then_left Hnd eq_refl Hos));
    [reflexivity | vm_compute; discriminate].
Defined.

(** ** Undoing *)

(** X4. While the manager is not finished, [move_back] right after a
    [move_left] or [move_right] that narrowed the window gives back the
    object as it was (placement state, undo history, ordered list, cursor
    and current ngram); only the callback has been notified twice. *)
Theorem move_back_undoes_narrowing self :
  is_finished self = false →
  (left_of_current self ≠ None →
   move_left self ≠ (self, Ok tt)
   ∧ move_back (move_left self).1
     = (set_notifications (notified (move_left self).1) self, Ok tt))
  ∧ (right_of_current self ≠ None →
     move_right self ≠ (self, Ok tt)
     ∧ move_back (move_right self).1
       = (set_notifications (notified (move_right self).1) self, Ok tt)).
Proof.
  intros Hfin.
  assert (Hne : ∀ h (ps : NgramPlacementState), h ++ [ps] ≠ h).
  { intros h ps Heq. apply (f_equal length) in Heq.
    rewrite length_app in Heq. simpl in Heq. lia. }
  split; intros Hn.
  - rewrite move_left_eq, Hfin, (bool_decide_eq_false_2 _ Hn). simpl. split.
    + intros Heq.
      apply (f_equal (fun p => _current_ngram_movement_history p.1)) in Heq.
      by apply Hne in Heq.
    + rewrite move_back_eq. unfold is_finished in *. fields. rewrite Hfin.
      rewrite last_snoc, removelast_last. by destruct self.
  - rewrite move_right_eq, Hfin, (bool_decide_eq_false_2 _ Hn). simpl. split.
    + intros Heq.
      apply (f_equal (fun p => _current_ngram_movement_history p.1)) in Heq.
      by apply Hne in Heq.
    + rewrite move_back_eq. unfold is_finished in *. fields. rewrite Hfin.
      rewrite last_snoc, removelast_last. by destruct self.
Qed.

Lemma move_back_undoes_narrowing_witness :
  is_finished manager_placing_third = false
  ∧ left_of_current manager_placing_third ≠ None
  ∧ right_of_current manager_placing_third ≠ None
  ∧ move_back (move_left manager_placing_third).1
    = (set_notifications 5 manager_placing_third, Ok tt)
  ∧ move_back (move_right manager_placing_third).1
    = (set_notifications 5 manager_placing_third, Ok tt).
Proof.
  split; [reflexivity|]. split; [discriminate|]. split; [discriminate|].
  split.
  - apply (proj1 (move_back_undoes_narrowing manager_placing_third eq_refl)).
    discriminate.
  - apply (proj2 (move_back_undoes_narrowing manager_placing_third eq_refl)).
    discriminate.
Defined.

Lemma insertion_shape self l :
  insertion self = Ok l →
  ∃ l1 l2, l = l1 ++ current_ngram self :: l2
           ∧ ordered_ngrams self = l1 ++ l2.
Proof.
  assert (Hins : ∀ i, ∃ l1 l2,
             py_insert i (current_ngram self) (ordered_ngrams self)
             = l1 ++ current_ngram self :: l2
             ∧ ordered_ngrams self = l1 ++ l2).
  { intros i. eexists _, _. split; [reflexivity|]. by rewrite take_drop. }
  unfold insertion.
  destruct (left_of_current self) as [x|].
  - destruct (py_index x _) as [i|e]; simpl; [|done].
    intros [= <-]. apply Hins.
  - destruct (right_of_current self) as [x|].
    + destruct (py_index x _) as [i|e]; simpl; [|done].
      intros [= <-]. apply Hins.
    + intros [= <-]. exists (ordered_ngrams self), [].
      by rewrite app_nil_r.
Qed.

(** X5. On a reachable, unfinished manager over a universe without
    repeated elements, [place_current_ngram] followed by [previous_ngram]
    succeed and give back the ordered list, the cursor and the current
    ngram as they were; the narrowing done before is forgotten: the
    placement state is a fresh split of the whole ordered list and the undo
    history is empty. *)
Theorem previous_ngram_undoes_place permutations callback self os :
  NoDup permutations →
  __init__ permutations callback = Ok self →
  Forall admissible os →
  is_finished (calls os self) = false →
  ∃ m1 m2,
    place_current_ngram (calls os self)
    = (m1, Ok (Some (current_ngram (calls os self))))
    ∧ previous_ngram m1 = (m2, Ok tt)
    ∧ all_ngrams m2 = all_ngrams (calls os self)
    ∧ ordered_ngrams m2 = ordered_ngrams (calls os self)
    ∧ _current_index m2 = _current_index (calls os self)
    ∧ current_ngram m2 = current_ngram (calls os self)
    ∧ _current_ngram_movement_history m2 = []
    ∧ placement_state m2
      = new_state (split_ordered_ngrams_into_two_halfs
                     (ordered_ngrams (calls os self)) side_right).
Proof.
  intros Hnd Hinit Hos.
  assert (Hr : reachable permutations (calls os self))
    by (by apply calls_reachable, (init_reachable _ callback)).
  generalize dependent (calls os self). intros m Hr Hfin.
  destruct (reachable_unfinished _ _ Hr Hfin) as [Hs Hndu].
  specialize (Hndu Hnd). clear Hnd Hr.
  set (u := all_ngrams m) in *.
  destruct Hs as (Hall & Hsep & Hlen & Hle & Hperm & Hcur).
  destruct (Hcur Hfin) as (Hk & Hw & _).
  set (k := _current_index m) in *.
  destruct (insertion_in_window m Hw) as [l Hl].
  destruct (insertion_shape m l Hl) as (l1 & l2 & -> & Hord).
  (* the current ngram is not among the ordered ones *)
  assert (Hnotin : current_ngram m ∉ l1).
  { assert (Hnd' : NoDup (take (S k) u))
      by apply (sublist_NoDup _ _ Hndu), sublist_take.
    rewrite (take_S_r _ _ _ Hk) in Hnd'.
    apply NoDup_app in Hnd' as (_ & Hdisj & _).
    intros Hin. apply (Hdisj (current_ngram m)); [|by left].
    rewrite <-Hperm, Hord, elem_of_app. by left. }
  assert (Hm1 : ∃ m1,
             place_current_ngram m = (m1, Ok (Some (current_ngram m)))
             ∧ all_ngrams m1 = all_ngrams m
             ∧ _current_index m1 = k + 1
             ∧ ordered_ngrams m1 = l1 ++ current_ngram m :: l2
             ∧ ordered_ngrams_is_all_ngrams m1 = false).
  { rewrite place_current_ngram_eq, Hfin, Hl by done. cbv zeta. fold k.
    destruct (is_finished (set_current_index _ _)) eqn:Hfin';
      [by eexists|].
    unfold is_finished in Hfin'; simpl in Hfin'.
    apply bool_decide_eq_false in Hfin'.
    rewrite length_app in Hfin'. simpl in Hfin'.
    apply (f_equal length) in Hord. rewrite length_app in Hord.
    destruct (lookup_lt_is_Some_2 (all_ngrams m) (k + 1)) as [next ->];
      [lia|by eexists]. }
  destruct Hm1 as (m1 & Hplace & Hall1 & Hidx1 & Hord1 & Hsep1).
  exists m1. eexists. split; [exact Hplace|].
  rewrite previous_ngram_eq, Hidx1, Hall1, Hord1 by done.
  rewrite bool_decide_eq_false_2 by lia.
  replace (k + 1 - 1) with k by lia.
  rewrite Hall, Hk, (py_remove_middle _ _ _ Hnotin). cbv zeta.
  split; [reflexivity|].
  unfold set_notifications, placing, set_current_index, set_ordered_ngrams.
  fields. rewrite Hall1, Hall, <-Hord. done.
Qed.

Lemma previous_ngram_undoes_place_witness :
  NoDup universe7
  ∧ __init__ universe7 true = Ok fresh_manager7
  ∧ Forall admissible four_placed_then_left
  ∧ is_finished (calls four_placed_then_left fresh_manager7) = false
  ∧ ∃ m1 m2,
      place_current_ngram (calls four_placed_then_left fresh_manager7)
      = (m1, Ok (Some (current_ngram
                         (calls four_placed_then_left fresh_manager7))))
      ∧ previous_ngram m1 = (m2, Ok tt)
      ∧ all_ngrams m2 = all_ngrams (calls four_placed_then_left fresh_manager7)
      ∧ ordered_ngrams m2
        = ordered_ngrams (calls four_placed_then_left fresh_manager7)
      ∧ _current_index m2
        = _current_index (calls four_placed_then_left fresh_manager7)
      ∧ current_ngram m2
        = current_ngram (calls four_placed_then_left fresh_manager7)
      ∧ _current_ngram_movement_history m2 = []
      ∧ placement_state m2
        = new_state (split_ordered_ngrams_into_two_halfs
                       (ordered_ngrams
                          (calls four_placed_then_left fresh_manager7))
                       side_right).
Proof.
  assert (Hnd : NoDup universe7) by closed_NoDup.
  assert (Hos : Forall admissible four_placed_then_left)
    by (unfold four_placed_then_left; closed_admissible).
  split; [exact Hnd|]. split; [reflexivity|]. split; [exact Hos|].
  split; [reflexivity|].
  apply (previous_ngram_undoes_place universe7 true fresh_manager7
           four_placed_then_left Hnd eq_refl Hos).
  reflexivity.
Defined.

(** ** Narrowing *)

(** X6. On a reachable, unfinished manager, a [move_left] that has a left
    neighbour replaces the search window by the old left half, and a
    [move_right] that has a right neighbour by the old right half; the new
    window holds at most half of the old one, rounded up. *)
Theorem narrowing_halves_window permutations callback self os :
  __init__ permutations callback = Ok self →
  Forall admissible os →
  is_finished (calls os self) = false →
  (left_of_current (calls os self) ≠ None →
   ngrams_left_side_of_current (move_left (calls os self)).1
     ++ ngrams_right_side_of_current (move_left (calls os self)).1
   = ngrams_left_side_of_current (calls os self)
   ∧ 2 * window_size (move_left (calls os self)).1
     ≤ window_size (calls os self) + 1)
  ∧ (right_of_current (calls os self) ≠ None →
     ngrams_left_side_of_current (move_right (calls os self)).1
       ++ ngrams_right_side_of_current (move_right (calls os self)).1
     = ngrams_right_side_of_current (calls os self)
     ∧ 2 * window_size (move_right (calls os self)).1
       ≤ window_size (calls os self) + 1).
Proof.
  intros Hinit Hos.
  assert (Hr : reachable permutations (calls os self))
    by (by apply calls_reachable, (init_reachable _ callback)).
  generalize dependent (calls os self). intros m Hr Hfin.
  destruct (reachable_unfinished _ _ Hr Hfin) as [Hs _].
  destruct Hs as (_ & _ & _ & _ & _ & Hcur).
  destruct (Hcur Hfin) as (_ & (pre & post & _ & _ & _ & _ & Hb1 & Hb2) & _).
  assert (Hsplit : ∀ part side,
            low_effort_sequences
              (new_state (split_ordered_ngrams_into_two_halfs part side))
            ++ hight_effort_sequences
                 (new_state (split_ordered_ngrams_into_two_halfs part side))
            = part).
  { intros part side.
    destruct (split_midpoint part side) as (mid & -> & _).
    apply take_drop. }
  split; intros Hn.
  - rewrite move_left_eq, Hfin, (bool_decide_eq_false_2 _ Hn).
    unfold window_size, ngrams_left_side_of_current,
      ngrams_right_side_of_current. cbn [orb]. fields.
    rewrite <-!length_app, Hsplit. split; [done|].
    rewrite length_app. lia.
  - rewrite move_right_eq, Hfin, (bool_decide_eq_false_2 _ Hn).
    unfold window_size, ngrams_left_side_of_current,
      ngrams_right_side_of_current. cbn [orb]. fields.
    rewrite <-!length_app, Hsplit. split; [done|].
    rewrite length_app. lia.
Qed.

Lemma narrowing_halves_window_witness :
  __init__ universe7 true = Ok fresh_manager7
  ∧ Forall admissible four_placed_then_left
  ∧ is_finished (calls four_placed_then_left fresh_manager7) = false
  ∧ left_of_current (calls four_placed_then_left fresh_manager7) ≠ None
  ∧ ngrams_left_side_of_current
      (move_left (calls four_placed_then_left fresh_manager7)).1
      ++ ngrams_right_side_of_current
           (move_left (calls four_placed_then_left fresh_manager7)).1
    = ngrams_left_side_of_current (calls four_placed_then_left fresh_manager7)
  ∧ 2 * window_size (move_left (calls four_placed_then_left fresh_manager7)).1
    ≤ window_size (calls four_placed_then_left fresh_manager7) + 1.
Proof.
  assert (Hos : Forall admissible four_placed_then_left)
    by (unfold four_placed_then_left; closed_admissible).
  split; [reflexivity|]. split; [exact Hos|].
  split; [reflexivity|]. split; [vm_compute; discriminate|].
  apply (proj1 (narrowing_halves_window universe7 true fresh_manager7
                  four_placed_then_left eq_refl Hos eq_refl)).
  vm_compute. discriminate.
Defined.

(** ** Loading a list with repeated elements *)

(** X7. [load_state] compares sets, so it accepts a list longer than the
    universe as long as its elements are exactly those of the universe (the
    list then repeats an element).  The manager is then finished with its
    cursor beyond the universe, and [previous_ngram] raises [IndexError]
    without changing it. *)
Theorem load_state_longer_than_universe self given :
  list_to_set given =@{gset KeySeq} list_to_set (all_ngrams self) →
  length (all_ngrams self) < length given →
  ¬ NoDup given
  ∧ ∃ m, load_state (OtherList given) self = (m, Ok tt)
         ∧ ordered_ngrams m = given
         ∧ _current_index m = length given
         ∧ is_finished m = true
         ∧ previous_ngram m = (m, Raise IndexError).
Proof.
  intros Hset Hlen. split.
  - intros Hnd.
    assert (Hsub : given ⊆+ all_ngrams self).
    { apply NoDup_submseteq; [done|]. intros x Hx.
      apply (elem_of_list_to_set (C:=gset KeySeq)). rewrite <-Hset.
      by apply elem_of_list_to_set. }
    apply submseteq_length in Hsub. lia.
  - rewrite load_state_eq. cbn [contents_of]. rewrite take_ge by lia.
    rewrite bool_decide_eq_false_2 by (by intros ?). cbv zeta.
    assert (Hfin : is_finished
                     (set_current_index (length given)
                        (assign_ordered_ngrams (OtherList given) self))
                   = true).
    { unfold is_finished; simpl. apply bool_decide_eq_true_2. lia. }
    rewrite Hfin. eexists. split; [reflexivity|].
    split; [done|]. split; [done|]. split; [by destruct self|].
    rewrite previous_ngram_eq by done.
    unfold set_notifications, set_current_index, assign_ordered_ngrams.
    fields.
    rewrite bool_decide_eq_false_2 by lia.
    by rewrite lookup_ge_None_2 by lia.
Qed.

Lemma load_state_longer_than_universe_witness :
  list_to_set [[0]; [0]]%Z
  =@{gset KeySeq} list_to_set (all_ngrams fresh_manager1)
  ∧ length (all_ngrams fresh_manager1) < length [[0]; [0]]%Z
  ∧ ¬ NoDup [[0]; [0]]%Z
  ∧ ∃ m, load_state (OtherList [[0]; [0]]%Z) fresh_manager1 = (m, Ok tt)
         ∧ ordered_ngrams m = [[0]; [0]]%Z
         ∧ _current_index m = length [[0]; [0]]%Z
         ∧ is_finished m = true
         ∧ previous_ngram m = (m, Raise IndexError).
Proof.
  assert (Hset : list_to_set [[0]; [0]]%Z
                 =@{gset KeySeq} list_to_set (all_ngrams fresh_manager1))
    by (refine (bool_decide_unpack _ _); vm_compute; exact Logic.I).
  assert (Hlen : length (all_ngrams fresh_manager1) < length [[0]; [0]]%Z)
    by (simpl; lia).
  split; [exact Hset|]. split; [exact Hlen|].
  exact (load_state_longer_than_universe fresh_manager1 [[0]; [0]]%Z
           Hset Hlen).
Defined.

(** ** Loading the universe list itself *)

(** X25. [load_state] keeps the list object it is given.  Given the
    universe list itself it always returns, and [ordered_ngrams] and
    [all_ngrams] are then one list: the manager is finished.  The next
    [previous_ngram] removes an element from that list, so the universe
    loses it as well, and then raises [IndexError], since no element is left
    under the cursor; in a universe without repeated elements the element
    lost is the last one. *)
Theorem load_state_universe_list_itself self :
  all_ngrams self ≠ [] →
  ∃ m m',
    load_state AllNgramsObject self = (m, Ok tt)
    ∧ all_ngrams m = all_ngrams self
    ∧ ordered_ngrams m = all_ngrams self
    ∧ ordered_ngrams_is_all_ngrams m = true
    ∧ _current_index m = length (all_ngrams self)
    ∧ is_finished m = true
    ∧ previous_ngram m = (m', Raise IndexError)
    ∧ ordered_ngrams m' = all_ngrams m'
    ∧ length (all_ngrams m') + 1 = length (all_ngrams self)
    ∧ _current_index m' = length (all_ngrams m')
    ∧ is_finished m' = true
    ∧ (NoDup (all_ngrams self) →
       all_ngrams m'
       = take (length (all_ngrams self) - 1) (all_ngrams self)).
Proof.
  intros Hne.
  destruct (load_state_all_ngrams self) as (Hret & Hsh & Hall).
  destruct (load_state AllNgramsObject self) as [m r] eqn:Hload.
  simpl in Hret, Hsh, Hall. subst r.
  pose proof Hsh as (Hflag & Hord & Hidx).
  assert (Hk : 1 ≤ _current_index m).
  { rewrite Hidx, Hall. destruct (all_ngrams self); [done|simpl; lia]. }
  destruct (previous_ngram_shared_eq m Hsh Hk)
    as (prev & rem & Hprev & Hrem & Hlen & Hback).
  exists m. eexists. split; [done|]. split; [done|].
  split; [by rewrite Hord|]. split; [done|]. split; [by rewrite Hidx, Hall|].
  split; [by apply shared_finished|]. split; [exact Hback|]. simpl.
  split; [done|]. split; [by rewrite <-Hall|]. split; [lia|].
  split; [unfold is_finished; simpl; by apply bool_decide_eq_true_2|].
  intros Hnd. rewrite Hidx in Hprev. rewrite Hall in Hprev, Hrem.
  rewrite (py_remove_last prev _ Hnd Hprev) in Hrem. by injection Hrem as <-.
Qed.

Lemma load_state_universe_list_itself_witness :
  all_ngrams fresh_manager7 ≠ []
  ∧ ∃ m m',
      load_state AllNgramsObject fresh_manager7 = (m, Ok tt)
      ∧ all_ngrams m = all_ngrams fresh_manager7
      ∧ ordered_ngrams m = all_ngrams fresh_manager7
      ∧ ordered_ngrams_is_all_ngrams m = true
      ∧ _current_index m = length (all_ngrams fresh_manager7)
      ∧ is_finished m = true
      ∧ previous_ngram m = (m', Raise IndexError)
      ∧ ordered_ngrams m' = all_ngrams m'
      ∧ length (all_ngrams m') + 1 = length (all_ngrams fresh_manager7)
      ∧ _current_index m' = length (all_ngrams m')
      ∧ is_finished m' = true
      ∧ (NoDup (all_ngrams fresh_manager7) →
         all_ngrams m'
         = take (length (all_ngrams fresh_manager7) - 1)
                (all_ngrams fresh_manager7)).
Proof.
  split; [discriminate|].
  apply (load_state_universe_list_itself fresh_manager7). discriminate.
Defined.

(** ** Loading a saved session *)

Lemma occurrences_snoc x l y :
  occurrences x (l ++ [y])
  = occurrences x l + (if bool_decide (y = x) then 1 else 0).
Proof.
  unfold occurrences. rewrite filter_app, length_app, filter_cons, filter_nil.
  case_decide; [rewrite bool_decide_eq_true_2|rewrite bool_decide_eq_false_2];
    done.
Qed.

Lemma occurrences_pos x l : x ∈ l ↔ 0 < occurrences x l.
Proof.
  split.
  - intros Hx. unfold occurrences.
    assert (Hin : x ∈ filter (fun y => y = x) l)
      by (by apply list_elem_of_filter).
    destruct (filter _ l); [by apply elem_of_nil in Hin|simpl; lia].
  - intros Hpos. destruct (decide (x ∈ l)) as [|Hn]; [done|].
    rewrite (occurrences_not_elem x l Hn) in Hpos. lia.
Qed.

Lemma NoDup_occurrences l : NoDup l ↔ ∀ x, occurrences x l ≤ 1.
Proof.
  split.
  - intros Hnd x. destruct (decide (x ∈ l)) as [Hx|Hx].
    + by rewrite occurrences_NoDup.
    + rewrite occurrences_not_elem by done. lia.
  - induction l as [|y l IH]; intros Hocc; [constructor|].
    assert (Hcons : ∀ x, occurrences x (y :: l)
                         = (if bool_decide (y = x) then 1 else 0)
                           + occurrences x l).
    { intros x. unfold occurrences. rewrite filter_cons.
      case_decide; [rewrite bool_decide_eq_true_2|rewrite bool_decide_eq_false_2];
        done. }
    constructor.
    + intros Hy%occurrences_pos. specialize (Hocc y).
      rewrite Hcons, bool_decide_eq_true_2 in Hocc by done. lia.
    + apply IH. intros x. specialize (Hocc x). rewrite Hcons in Hocc. lia.
Qed.

Lemma assoc_count_counter_add c x y :
  assoc_count (SortApp.counter_add x c) y
  = assoc_count c y + (if bool_decide (x = y) then 1 else 0).
Proof.
  induction c as [|[z n] c IH]; simpl.
  - destruct (decide (x = y)) as [->|Hxy].
    + by rewrite !bool_decide_eq_true_2.
    + by rewrite !bool_decide_eq_false_2.
  - destruct (decide (z = x)) as [->|Hzx].
    + rewrite (bool_decide_eq_true_2 (x = x)) by done. simpl.
      destruct (decide (x = y)) as [->|Hxy].
      * rewrite !bool_decide_eq_true_2 by done. lia.
      * rewrite !bool_decide_eq_false_2 by done. lia.
    + rewrite (bool_decide_eq_false_2 (z = x)) by done. simpl.
      destruct (decide (z = y)) as [->|Hzy].
      * rewrite bool_decide_eq_true_2 by done.
        rewrite bool_decide_eq_false_2 by congruence. lia.
      * rewrite bool_decide_eq_false_2 by done. apply IH.
Qed.

Lemma counter_add_keys c x :
  (SortApp.counter_add x c).*1
  = if bool_decide (x ∈ c.*1) then c.*1 else c.*1 ++ [x].
Proof.
  induction c as [|[z n] c IH]; [reflexivity|]. cbn [SortApp.counter_add].
  destruct (decide (z = x)) as [->|Hzx].
  - rewrite (bool_decide_eq_true_2 (x = x)) by done.
    by rewrite bool_decide_eq_true_2 by left.
  - rewrite (bool_decide_eq_false_2 (z = x)) by done.
    rewrite !fmap_cons, IH. cbn [fst].
    destruct (decide (x ∈ c.*1)) as [Hx|Hx].
    + rewrite !bool_decide_eq_true_2; [done|by right|done].
    + rewrite !bool_decide_eq_false_2; [done| |done].
      rewrite not_elem_of_cons. split; [congruence|done].
Qed.

Lemma assoc_count_entry c x n :
  NoDup c.*1 → (x, n) ∈ c → assoc_count c x = n.
Proof.
  induction c as [|[z k] c IH]; simpl; [by intros _ ?%elem_of_nil|].
  intros [Hz Hnd]%NoDup_cons [Heq|Hin]%elem_of_cons.
  - injection Heq as <- <-. by rewrite bool_decide_eq_true_2.
  - rewrite bool_decide_eq_false_2; [by apply IH|].
    intros ->. apply Hz. apply list_elem_of_fmap. by exists (x, n).
Qed.

(** The counter of a list has one entry per different element, holding the
    number of its occurrences. *)
Lemma Counter_spec l :
  NoDup (SortApp.Counter l).*1
  ∧ (∀ x, assoc_count (SortApp.Counter l) x = occurrences x l)
  ∧ (∀ x, x ∈ (SortApp.Counter l).*1 ↔ x ∈ l).
Proof.
  induction l as [|y l (Hnd & Hcount & Hkeys)] using rev_ind.
  - split; [constructor|]. split; [done|]. done.
  - unfold SortApp.Counter in *. rewrite foldl_app. simpl.
    rewrite counter_add_keys. split; [|split].
    + case_bool_decide as Hy; [done|].
      apply NoDup_app. split; [done|]. split; [|apply NoDup_singleton].
      intros x Hx ->%list_elem_of_singleton. done.
    + intros x. rewrite assoc_count_counter_add, Hcount, occurrences_snoc.
      done.
    + intros x. case_bool_decide as Hy.
      * rewrite Hkeys, elem_of_app, list_elem_of_singleton.
        apply Hkeys in Hy. split; [auto|]. intros [?| ->]; done.
      * by rewrite !elem_of_app, Hkeys.
Qed.

Lemma most_common_1_greatest e c :
  ∃ best, SortApp.most_common_1 (e :: c) = [best]
          ∧ best ∈ e :: c
          ∧ ∀ item, item ∈ e :: c → item.2 ≤ best.2.
Proof.
  simpl. eexists. split; [reflexivity|].
  revert e. induction c as [|d c IH]; intros e; simpl.
  - split; [by left|]. by intros item ->%list_elem_of_singleton.
  - destruct (IH (if bool_decide (e.2 < d.2) then d else e)) as [Hin Hmax].
    split.
    + apply elem_of_cons in Hin as [->|Hin].
      * case_bool_decide; [right; by left|by left].
      * right. by right.
    + intros item [->|[->|Hitem]%elem_of_cons]%elem_of_cons.
      * etrans; [|apply Hmax; by left]. case_bool_decide; simpl; lia.
      * etrans; [|apply Hmax; by left]. case_bool_decide; simpl; lia.
      * apply Hmax. by right.
Qed.

(** The greatest count of a non-empty list exceeds one exactly when the
    list repeats an element. *)
Lemma most_common_1_Counter key_seqs :
  key_seqs ≠ [] →
  ∃ x n, SortApp.most_common_1 (SortApp.Counter key_seqs) = [(x, n)]
         ∧ (1 < n ↔ ¬ NoDup key_seqs).
Proof.
  intros Hne.
  destruct (Counter_spec key_seqs) as (Hnd & Hcount & Hkeys).
  destruct (SortApp.Counter key_seqs) as [|e c] eqn:Ec.
  { destruct key_seqs as [|y l]; [done|].
    exfalso. apply (not_elem_of_nil y), Hkeys. by left. }
  destruct (most_common_1_greatest e c) as ([x n] & -> & Hin & Hmax).
  exists x, n. split; [done|].
  rewrite NoDup_occurrences. split.
  - intros Hn Hocc. specialize (Hocc x).
    rewrite <-Hcount, (assoc_count_entry _ x n Hnd Hin) in Hocc. lia.
  - intros Hocc. destruct (decide (1 < n)) as [|Hn]; [done|].
    exfalso. apply Hocc. intros y.
    destruct (decide (y ∈ key_seqs)) as [Hy|Hy];
      [|rewrite occurrences_not_elem by done; lia].
    apply Hkeys, list_elem_of_fmap in Hy as ([y' k] & -> & Hyk).
    cbn [fst]. rewrite <-Hcount, (assoc_count_entry _ _ k Hnd Hyk).
    specialize (Hmax _ Hyk). simpl in *. lia.
Qed.

(** X8. [load_from_file] of the sort application, given the sequences of an
    existing file: nothing happens for an empty file; when a sequence
    occurs twice it raises [DuplicateValuesError] and the manager is not
    touched; otherwise it does exactly what [load_state] does.  Hence a
    load that returns leaves a manager built by the constructor in a state
    where the cursor is within the universe. *)
Theorem load_from_file_spec key_seqs manager :
  (key_seqs = [] →
   SortApp.load_from_file (Some key_seqs) manager = (manager, SortApp.Returned))
  ∧ (¬ NoDup key_seqs →
     SortApp.load_from_file (Some key_seqs) manager
     = (manager, SortApp.Raised SortApp.DuplicateValuesError))
  ∧ (key_seqs ≠ [] → NoDup key_seqs →
     SortApp.load_from_file (Some key_seqs) manager
     = ((load_state (OtherList key_seqs) manager).1,
        app_outcome (load_state (OtherList key_seqs) manager).2))
  ∧ (∀ u, sound u manager →
          ∀ manager', SortApp.load_from_file (Some key_seqs) manager
                      = (manager', SortApp.Returned) →
                      sound u manager').
Proof.
  assert (Hdup : ¬ NoDup key_seqs →
            SortApp.load_from_file (Some key_seqs) manager
            = (manager, SortApp.Raised SortApp.DuplicateValuesError)).
  { intros Hnd. unfold SortApp.load_from_file.
    assert (Hne : key_seqs ≠ []) by (intros ->; apply Hnd; constructor).
    rewrite bool_decide_eq_false_2 by done.
    destruct (most_common_1_Counter key_seqs Hne) as (x & n & -> & Hn).
    by rewrite bool_decide_eq_true_2 by (by apply Hn). }
  assert (Hok : key_seqs ≠ [] → NoDup key_seqs →
            SortApp.load_from_file (Some key_seqs) manager
            = ((load_state (OtherList key_seqs) manager).1,
               app_outcome (load_state (OtherList key_seqs) manager).2)).
  { intros Hne Hnd. unfold SortApp.load_from_file.
    rewrite bool_decide_eq_false_2 by done.
    destruct (most_common_1_Counter key_seqs Hne) as (x & n & -> & Hn).
    rewrite bool_decide_eq_false_2 by (intros ?%Hn; done).
    by destruct (load_state (OtherList key_seqs) manager) as [m [[]|e]]. }
  split; [|split; [exact Hdup|split; [exact Hok|]]].
  - intros ->. done.
  - intros u Hs manager' Hload.
    destruct (decide (key_seqs = [])) as [->|Hne].
    { by injection Hload as <-. }
    destruct (decide (NoDup key_seqs)) as [Hnd|Hnd].
    + rewrite (Hok Hne Hnd) in Hload. injection Hload as <- _.
      by apply load_state_sound.
    + by rewrite (Hdup Hnd) in Hload.
Qed.

Lemma load_from_file_spec_witness :
  SortApp.load_from_file (Some [[0]; [3]; [0]]%Z) fresh_manager7
  = (fresh_manager7, SortApp.Raised SortApp.DuplicateValuesError)
  ∧ SortApp.load_from_file (Some [[0]; [3]; [1]; [2]]%Z) fresh_manager7
    = ((load_state (OtherList [[0]; [3]; [1]; [2]]%Z)
          fresh_manager7).1,
       app_outcome (load_state (OtherList [[0]; [3]; [1]; [2]]%Z)
          fresh_manager7).2).
Proof.
  split.
  - apply (proj1 (proj2 (load_from_file_spec [[0]; [3]; [0]]%Z
                           fresh_manager7))).
    refine (bool_decide_unpack _ _). vm_compute. exact Logic.I.
  - apply (proj1 (proj2 (proj2 (load_from_file_spec [[0]; [3]; [1]; [2]]%Z
                                  fresh_manager7)))); [discriminate|].
    closed_NoDup.
Defined.

(** ** Starting a session without a saved file *)

(** X9. When there is no file, [load_from_file] places the first sequence
    of the universe at once: a manager fresh from the constructor ends up
    with exactly that sequence ordered and the cursor on the second one. *)
Theorem load_from_file_missing permutations callback self :
  __init__ permutations callback = Ok self →
  ∃ manager first,
    SortApp.load_from_file None self = (manager, SortApp.Returned)
    ∧ permutations !! 0 = Some first
    ∧ ordered_ngrams manager = [first]
    ∧ _current_index manager = 1
    ∧ sound permutations manager.
Proof.
  intros Hinit.
  destruct permutations as [|x u]; [done|].
  pose proof (init_sound _ _ _ Hinit) as Hs.
  destruct (init_placed (x :: u) callback) as (self' & Hinit' & Hp); [done|].
  rewrite Hinit in Hinit'. injection Hinit' as <-.
  destruct (place_current_ngram_placed _ 0 self Hp) as (m & Hplace & Hm);
    [simpl; lia|].
  assert (Hsm : sound (x :: u) m).
  { change m with (m, Ok (Some (current_ngram self))
                      : result (option KeySeq)).1.
    rewrite <-Hplace. by apply place_current_ngram_sound. }
  assert (Hfin : is_finished self = false).
  { destruct Hp as (Hall & _ & _ & Hlen & _). unfold is_finished.
    rewrite Hall, Hlen. apply bool_decide_eq_false_2. simpl. lia. }
  assert (Hidx : ∃ r, current_placement_index self = Ok r).
  { rewrite init_cons in Hinit. injection Hinit as <-. by eexists. }
  destruct Hidx as [r Hidx].
  exists m, x. unfold SortApp.load_from_file, SortApp.action_place_ngram.
  rewrite Hfin, Hidx, Hplace.
  destruct Hm as (_ & _ & Hidx' & _ & Hperm & _). simpl in Hperm.
  apply Permutation_singleton_r in Hperm.
  split; [done|]. split; [done|]. split; [done|]. split; [done|]. exact Hsm.
Qed.

Lemma load_from_file_missing_witness :
  __init__ universe7 true = Ok fresh_manager7
  ∧ ∃ manager first,
      SortApp.load_from_file None fresh_manager7
      = (manager, SortApp.Returned)
      ∧ universe7 !! 0 = Some first
      ∧ ordered_ngrams manager = [first]
      ∧ _current_index manager = 1
      ∧ sound universe7 manager.
Proof.
  split; [reflexivity|].
  apply (load_from_file_missing universe7 true fresh_manager7).
  reflexivity.
Defined.

(** ** Row differences of bigrams *)

Local Open Scope Z_scope.

Lemma get_rowdiff_for_bigram_shift f1 r1 f2 r2 d :
  get_rowdiff_for_bigram f1 (r1 + d) f2 (r2 + d)
  = get_rowdiff_for_bigram f1 r1 f2 r2.
Proof.
  unfold get_rowdiff_for_bigram.
  replace (r1 + d - (r2 + d)) with (r1 - r2) by lia.
  rewrite (bool_decide_ext (r2 + d > r1 + d) (r2 > r1)) by lia.
  by rewrite (bool_decide_ext (r2 + d < r1 + d) (r2 < r1)) by lia.
Qed.

Lemma get_rowdiff_for_bigram_swap f1 r1 f2 r2 :
  get_rowdiff_for_bigram f1 r1 f2 r2 = get_rowdiff_for_bigram f2 r2 f1 r1.
Proof.
  unfold get_rowdiff_for_bigram.
  replace (Z.abs (r2 - r1)) with (Z.abs (r1 - r2)) by lia.
  destruct (Z.lt_trichotomy r1 r2) as [H|[H|H]].
  - rewrite (bool_decide_eq_true_2 (r2 > r1)) by lia.
    rewrite (bool_decide_eq_false_2 (r2 < r1)) by lia.
    rewrite (bool_decide_eq_false_2 (r1 > r2)) by lia.
    by rewrite (bool_decide_eq_true_2 (r1 < r2)) by lia.
  - subst r2. by replace (r1 - r1) with 0 by lia.
  - rewrite (bool_decide_eq_false_2 (r2 > r1)) by lia.
    rewrite (bool_decide_eq_true_2 (r2 < r1)) by lia.
    rewrite (bool_decide_eq_true_2 (r1 > r2)) by lia.
    by rewrite (bool_decide_eq_false_2 (r1 < r2)) by lia.
Qed.

(** X10. The row-difference type of a bigram does not depend on the order
    of its two keys, nor on where the rows are counted from. *)
Theorem get_rowdiff_for_bigram_symmetric f1 r1 f2 r2 :
  get_rowdiff_for_bigram f1 r1 f2 r2 = get_rowdiff_for_bigram f2 r2 f1 r1
  ∧ ∀ d : Z, get_rowdiff_for_bigram f1 (r1 + d) f2 (r2 + d)
             = get_rowdiff_for_bigram f1 r1 f2 r2.
Proof.
  split; [apply get_rowdiff_for_bigram_swap|].
  intros d. apply get_rowdiff_for_bigram_shift.
Qed.

(** More than two rows apart, or on one row, nothing is classified. *)
Lemma get_rowdiff_for_bigram_far f1 r1 f2 r2 :
  Z.abs (r1 - r2) ≠ 1 → Z.abs (r1 - r2) ≠ 2 →
  get_rowdiff_for_bigram f1 r1 f2 r2 = None.
Proof.
  intros H1 H2. unfold get_rowdiff_for_bigram.
  rewrite !(bool_decide_eq_false_2 _ H1), !(bool_decide_eq_false_2 _ H2).
  repeat case_bool_decide; done.
Qed.

(** The classification of a bigram whose first key is [c] rows below the
    second, for the five differences that matter. *)
Lemma get_rowdiff_for_bigram_near c f1 f2 :
  c ∈ [-2; -1; 0; 1; 2] →
  (is_Some (get_rowdiff_for_bigram f1 c f2 0)
   ↔ Z.abs c = 2
     ∨ Z.abs c = 1
       ∧ ((c < 0 ∧ f1 = P ∧ (f2 = M ∨ f2 = R))
          ∨ (0 < c ∧ f2 = P ∧ (f1 = M ∨ f1 = R))))
  ∧ (∀ d, get_rowdiff_for_bigram f1 c f2 0 = Some d →
          (d = MiddleBelowPinky1u ∨ d = RingBelowPinky1u ↔ Z.abs c = 1)).
Proof.
  intros Hc.
  repeat (apply elem_of_cons in Hc as [->|Hc]);
    [..|by apply elem_of_nil in Hc].
  all: destruct f1, f2.
  all: split; [refine (bool_decide_unpack _ _); vm_compute; exact Logic.I|].
  all: intros d; destruct d.
  all: refine (bool_decide_unpack _ _); vm_compute; exact Logic.I.
Qed.

(** X11. A bigram gets a row-difference type exactly when its keys are two
    rows apart, or one row apart with the pinky on the upper row and the
    middle or ring finger on the lower one; the two one-row types are given
    to one-row bigrams only. *)
Theorem get_rowdiff_for_bigram_classifies f1 r1 f2 r2 :
  (is_Some (get_rowdiff_for_bigram f1 r1 f2 r2)
   ↔ Z.abs (r1 - r2) = 2
     ∨ Z.abs (r1 - r2) = 1
       ∧ ((r1 < r2 ∧ f1 = P ∧ (f2 = M ∨ f2 = R))
          ∨ (r2 < r1 ∧ f2 = P ∧ (f1 = M ∨ f1 = R))))
  ∧ (∀ d, get_rowdiff_for_bigram f1 r1 f2 r2 = Some d →
          (d = MiddleBelowPinky1u ∨ d = RingBelowPinky1u
           ↔ Z.abs (r1 - r2) = 1)).
Proof.
  destruct (decide (r1 - r2 ∈ [-2; -1; 0; 1; 2])) as [Hc|Hc].
  - pose proof (get_rowdiff_for_bigram_near (r1 - r2) f1 f2 Hc) as Hnear.
    rewrite <-(get_rowdiff_for_bigram_shift f1 (r1 - r2) f2 0 r2) in Hnear.
    replace (r1 - r2 + r2) with r1 in Hnear by lia.
    replace (0 + r2) with r2 in Hnear by lia.
    destruct Hnear as [Hs Hd]. split; [|exact Hd].
    rewrite Hs.
    assert (r1 - r2 < 0 ↔ r1 < r2) as -> by lia.
    by assert (0 < r1 - r2 ↔ r2 < r1) as -> by lia.
  - rewrite !elem_of_cons, elem_of_nil in Hc.
    rewrite get_rowdiff_for_bigram_far by lia. split.
    + rewrite <-not_eq_None_Some. split; [done|]. lia.
    + done.
Qed.

(** ** Typing a sequence backwards *)

(** X12. On a well-formed hand, the row differences of a key sequence typed
    backwards are those of the sequence, in reverse order; the reversed
    sequence raises exactly when the sequence does. *)
Theorem get_rowdiff_reverse h ks :
  wf_hand h →
  match get_rowdiff h ks with
  | Ok r => get_rowdiff h (reverse ks) = Ok (reverse <$> r)
  | Raise e => get_rowdiff h (reverse ks) = Raise e
  end.
Proof.
  intros Hwf.
  destruct ks as [|k0 [|k1 [|k2 [|k3 ks]]]].
  - done.
  - done.
  - change (reverse [k0; k1]) with [k1; k0].
    unfold get_rowdiff. simpl.
    destruct (get_finger_total h k0 Hwf) as [g0 ->].
    destruct (get_finger_total h k1 Hwf) as [g1 ->]. simpl.
    destruct g0 as [a0|], g1 as [a1|]; try done.
    destruct (matrix_positions h !! k0) as [c0|],
             (matrix_positions h !! k1) as [c1|]; try done.
    rewrite (get_rowdiff_for_bigram_swap a1 _ a0 _).
    by destruct (get_rowdiff_for_bigram a0 _ a1 _).
  - change (reverse [k0; k1; k2]) with [k2; k1; k0].
    unfold get_rowdiff. simpl.
    destruct (get_finger_total h k0 Hwf) as [g0 E0].
    destruct (get_finger_total h k1 Hwf) as [g1 E1].
    destruct (get_finger_total h k2 Hwf) as [g2 E2].
    rewrite E0, E1, E2. simpl.
    destruct g0 as [a0|], g1 as [a1|], g2 as [a2|]; simpl;
      rewrite ?E0, ?E1, ?E2; simpl; try done.
    all: destruct (matrix_positions h !! k0) as [c0|],
                  (matrix_positions h !! k1) as [c1|],
                  (matrix_positions h !! k2) as [c2|];
      simpl; rewrite ?E0, ?E1, ?E2; simpl; try done.
    rewrite (get_rowdiff_for_bigram_swap a2 _ a1 _),
      (get_rowdiff_for_bigram_swap a1 _ a0 _).
    by destruct (get_rowdiff_for_bigram a0 _ a1 _),
                (get_rowdiff_for_bigram a1 _ a2 _).
  - assert (Hlong : ∀ l : list Z, (3 < length l)%nat →
                     get_rowdiff h l = Raise ValueError).
    { intros l Hl. unfold get_rowdiff.
      rewrite (bool_decide_eq_false_2 (length l = 1%nat)) by lia.
      by rewrite (bool_decide_eq_true_2 (3 < length l)%nat) by lia. }
    rewrite (Hlong (k0 :: _)) by (simpl; lia).
    apply Hlong. rewrite length_reverse. simpl. lia.
Qed.

Lemma get_rowdiff_reverse_witness :
  wf_hand hand_full
  ∧ get_rowdiff hand_full [0; 1; 2]
    = Ok (Some [RingBelowPinky2u; MiddleBelowRing2u])
  ∧ get_rowdiff hand_full (reverse [0; 1; 2])
    = Ok (Some [MiddleBelowRing2u; RingBelowPinky2u]).
Proof.
  split; [exact wf_hand_full|]. split; [reflexivity|].
  exact (get_rowdiff_reverse hand_full [0; 1; 2] wf_hand_full).
Defined.

(** ** Directions of trigrams and of their bigrams *)

(** X13. The direction of a trigram is never easier than the direction of
    one of its two bigrams: whenever a bigram has a direction, the trigram
    has one of at least that effort. *)
Theorem get_direction_for_trigram_dominates f1 f2 f3 b :
  get_direction_for_bigram f1 f2 = Some b
  ∨ get_direction_for_bigram f2 f3 = Some b →
  ∃ d, get_direction_for_trigram f1 f2 f3 = Some d
       ∧ DirectionType_value10 b ≤ DirectionType_value10 d.
Proof.
  destruct f1, f2, f3; vm_compute; intros [Hb|Hb]; try discriminate Hb;
    injection Hb as <-; eexists; (split; [reflexivity|]);
    vm_compute; discriminate.
Qed.

Lemma get_direction_for_trigram_dominates_witness :
  get_direction_for_bigram Ring Pinky = Some OutwardsRingPinky
  ∧ ∃ d, get_direction_for_trigram Ring Pinky Index = Some d
         ∧ DirectionType_value10 OutwardsRingPinky ≤ DirectionType_value10 d.
Proof.
  split; [reflexivity|].
  apply (get_direction_for_trigram_dominates Ring Pinky Index). by left.
Defined.

(** X14. A trigram is a redirect exactly when the same trigram typed
    backwards is, and then of the same level. *)
Theorem redirect_reverse f1 f2 f3 d :
  is_redirect d = true →
  (get_direction_for_trigram f1 f2 f3 = Some d
   ↔ get_direction_for_trigram f3 f2 f1 = Some d).
Proof.
  destruct d; try discriminate; intros _;
    destruct f1, f2, f3; vm_compute; split; congruence.
Qed.

Lemma redirect_reverse_witness :
  is_redirect Redirect3 = true
  ∧ get_direction_for_trigram Index Pinky Ring = Some Redirect3
  ∧ get_direction_for_trigram Ring Pinky Index = Some Redirect3.
Proof.
  split; [reflexivity|]. split; [reflexivity|].
  apply (redirect_reverse Index Pinky Ring Redirect3); reflexivity.
Defined.

(** ** The two hands together *)

(** The fold of [max] over a tuple ends on a member that no member
    exceeds. *)
Lemma max_of_tuple_fold x rest :
  let m := foldl (fun best item =>
                    if bool_decide (RowDiffType_value item > RowDiffType_value best)
                    then item else best) x rest in
  m ∈ x :: rest
  ∧ ∀ y, y ∈ x :: rest → RowDiffType_value y ≤ RowDiffType_value m.
Proof.
  revert x. induction rest as [|z rest IH]; intros x; simpl.
  - split; [left|]. intros y Hy. apply list_elem_of_singleton in Hy as ->. lia.
  - case_bool_decide as Hgt.
    + destruct (IH z) as [Hin Hmax]. split; [by right|].
      intros y Hy. apply elem_of_cons in Hy as [->|Hy]; [|by apply Hmax].
      specialize (Hmax z (list_elem_of_here _ _)). lia.
    + destruct (IH x) as [Hin Hmax]. split.
      * apply elem_of_cons in Hin as [Hin|Hin]; [rewrite Hin; left|].
        right. by right.
      * intros y Hy. apply elem_of_cons in Hy as [->|Hy]; [apply Hmax; left|].
        apply elem_of_cons in Hy as [->|Hy]; [|apply Hmax; by right].
        specialize (Hmax x (list_elem_of_here _ _)). lia.
Qed.

Lemma max_of_tuple_greatest t :
  t ≠ [] →
  ∃ m, max_of_tuple t = Ok m ∧ m ∈ t
       ∧ ∀ y, y ∈ t → RowDiffType_value y ≤ RowDiffType_value m.
Proof.
  destruct t as [|x rest]; [done|]. intros _. eexists. split; [reflexivity|].
  apply max_of_tuple_fold.
Qed.

(** A hand never returns an empty tuple of row differences. *)
Lemma get_rowdiff_nonempty h ks t :
  get_rowdiff h ks = Ok (Some t) → t ≠ [].
Proof.
  unfold get_rowdiff. intros H ->.
  repeat (case_bool_decide; [done|]).
  destruct (getitem ks 0) as [k0|]; [|done]. simpl in H.
  destruct (get_finger h k0) as [f0|]; [|done]. simpl in H.
  destruct (getitem ks 1) as [k1|]; [|done]. simpl in H.
  destruct (get_finger h k1) as [f1|]; [|done]. simpl in H.
  destruct f0 as [f0|], f1 as [f1|]; try done.
  destruct (matrix_positions h !! k0), (matrix_positions h !! k1); try done.
  simpl in H.
  case_bool_decide.
  - by destruct (get_rowdiff_for_bigram f0 _ f1 _).
  - destruct (getitem ks 2) as [k2|]; [|done]. simpl in H.
    destruct (get_finger h k2) as [[f2|]|]; try done. simpl in H.
    destruct (matrix_positions h !! k2); [|done].
    by destruct (get_rowdiff_for_bigram f1 _ f2 _),
                (get_rowdiff_for_bigram f0 _ f1 _).
Qed.

(** X15. When neither hand raises, the row difference of the two hands is
    the result of one of them, and [max] never fails on it: no row
    difference found by either hand is harder than the hardest member of
    the returned tuple (so the result is None only when both hands return
    None). *)
Theorem Hands_get_rowdiff_hardest hs ks rl rr :
  get_rowdiff (Hands.left hs) ks = Ok rl →
  get_rowdiff (Hands.right hs) ks = Ok rr →
  ∃ r, Hands.get_rowdiff hs ks = Ok r
       ∧ (r = rl ∨ r = rr)
       ∧ ∀ t x, rl = Some t ∨ rr = Some t → x ∈ t →
           ∃ t' y, r = Some t' ∧ y ∈ t'
                   ∧ RowDiffType_value x ≤ RowDiffType_value y.
Proof.
  intros Hl Hr. unfold Hands.get_rowdiff. rewrite Hl, Hr. simpl.
  case_bool_decide as Heq.
  - subst rr. eexists. split; [done|]. split; [by left|].
    intros t x Ht Hx. exists t, x. split; [by destruct Ht|]. split; [done|lia].
  - destruct rl as [l|], rr as [r|]; try done.
    + destruct (max_of_tuple_greatest l) as (ml & -> & Hml & Hmaxl);
        [by eapply get_rowdiff_nonempty|].
      destruct (max_of_tuple_greatest r) as (mr & -> & Hmr & Hmaxr);
        [by eapply get_rowdiff_nonempty|].
      simpl. eexists. split; [done|]. case_bool_decide as Hgt.
      * split; [by right|]. intros t x Ht Hx. exists r, mr.
        split; [done|]. split; [done|].
        destruct Ht as [[= <-]|[= <-]].
        -- specialize (Hmaxl x Hx). lia.
        -- by apply Hmaxr.
      * split; [by left|]. intros t x Ht Hx. exists l, ml.
        split; [done|]. split; [done|].
        destruct Ht as [[= <-]|[= <-]].
        -- by apply Hmaxl.
        -- specialize (Hmaxr x Hx). lia.
    + eexists. split; [done|]. split; [by left|].
      intros t x [[= <-]|[=]] Hx. exists l, x. split; [done|]. split; [done|lia].
    + eexists. split; [done|]. split; [by right|].
      intros t x [[=]|[= <-]] Hx. exists r, x. split; [done|]. split; [done|lia].
Qed.

Lemma Hands_get_rowdiff_hardest_witness :
  get_rowdiff (Hands.left (Hands.mkHands hand_shifted hand_full)) [0; 1]
  = Ok (Some [MiddleBelowPinky1u])
  ∧ get_rowdiff (Hands.right (Hands.mkHands hand_shifted hand_full)) [0; 1]
    = Ok (Some [RingBelowPinky2u])
  ∧ ∃ r, Hands.get_rowdiff (Hands.mkHands hand_shifted hand_full) [0; 1] = Ok r
         ∧ (r = Some [MiddleBelowPinky1u] ∨ r = Some [RingBelowPinky2u])
         ∧ ∀ t x, Some [MiddleBelowPinky1u] = Some t
                  ∨ Some [RingBelowPinky2u] = Some t → x ∈ t →
             ∃ t' y, r = Some t' ∧ y ∈ t'
                     ∧ RowDiffType_value x ≤ RowDiffType_value y.
Proof.
  split; [reflexivity|]. split; [reflexivity|].
  apply (Hands_get_rowdiff_hardest
           (Hands.mkHands hand_shifted hand_full) [0; 1]); reflexivity.
Defined.

(** X16. When neither hand raises, the direction of the two hands is the
    harder of the two directions (the only one, when one hand has none),
    and it is the same whichever hand is called left. *)
Theorem Hands_get_direction_hardest hs ks dl dr :
  get_direction (Hands.left hs) ks = Ok dl →
  get_direction (Hands.right hs) ks = Ok dr →
  ∃ d, Hands.get_direction hs ks = Ok d
       ∧ Hands.get_direction (swap_hands hs) ks = Ok d
       ∧ (d = dl ∨ d = dr)
       ∧ ∀ x, dl = Some x ∨ dr = Some x →
           ∃ y, d = Some y
                ∧ DirectionType_value10 x ≤ DirectionType_value10 y.
Proof.
  intros Hl Hr. unfold Hands.get_direction, swap_hands. simpl.
  rewrite Hl, Hr. simpl.
  destruct dl as [l|], dr as [r|].
  - destruct l, r; vm_compute; eexists; (split; [reflexivity|]);
      (split; [reflexivity|]); (split; [by (left + right)|]);
      intros x [[= <-]|[= <-]]; eexists; (split; [reflexivity|]); done.
  - exists (Some l). repeat split; [by left|].
    intros x [[= <-]|[=]]. exists l. split; [done|lia].
  - exists (Some r). repeat split; [by right|].
    intros x [[=]|[= <-]]. exists r. split; [done|lia].
  - exists None. repeat split; [by left|]. by intros x [[=]|[=]].
Qed.

Lemma Hands_get_direction_hardest_witness :
  get_direction (Hands.left (Hands.mkHands hand_full hand_shifted)) [0; 1]
  = Ok (Some InwardsPinkyRing)
  ∧ get_direction (Hands.right (Hands.mkHands hand_full hand_shifted)) [0; 1]
    = Ok (Some OutwardsMiddlePinky)
  ∧ ∃ d, Hands.get_direction (Hands.mkHands hand_full hand_shifted) [0; 1]
         = Ok d
         ∧ Hands.get_direction
             (swap_hands (Hands.mkHands hand_full hand_shifted)) [0; 1]
           = Ok d
         ∧ (d = Some InwardsPinkyRing ∨ d = Some OutwardsMiddlePinky)
         ∧ ∀ x, Some InwardsPinkyRing = Some x
                ∨ Some OutwardsMiddlePinky = Some x →
             ∃ y, d = Some y
                  ∧ DirectionType_value10 x ≤ DirectionType_value10 y.
Proof.
  split; [reflexivity|]. split; [reflexivity|].
  apply (Hands_get_direction_hardest
           (Hands.mkHands hand_full hand_shifted) [0; 1]); reflexivity.
Defined.

(** X17. When neither hand raises, the repeat of the two hands is the
    greater of the two repeats in the order of the pairs (repeat type
    first, then finger), the only one when one hand has none, and it is the
    same whichever hand is called left. *)
Theorem Hands_get_repeats_tuple_hardest hs ks rl rr :
  get_repeats_tuple (Hands.left hs) ks = Ok rl →
  get_repeats_tuple (Hands.right hs) ks = Ok rr →
  ∃ r, Hands.get_repeats_tuple hs ks = Ok r
       ∧ Hands.get_repeats_tuple (swap_hands hs) ks = Ok r
       ∧ (r = rl ∨ r = rr)
       ∧ ∀ x, rl = Some x ∨ rr = Some x →
           ∃ y, r = Some y ∧ repeats_le x y.
Proof.
  intros Hl Hr. unfold Hands.get_repeats_tuple, swap_hands. simpl.
  rewrite Hl, Hr. simpl.
  destruct rl as [[tl fl]|], rr as [[tr fr]|].
  - destruct tl, fl, tr, fr; vm_compute; eexists; (split; [reflexivity|]);
      (split; [reflexivity|]); (split; [by (left + right)|]);
      intros x [[= <-]|[= <-]]; eexists; (split; [reflexivity|]);
      vm_compute; first [by left | right; split; [done|discriminate]].
  - exists (Some (tl, fl)). repeat split; [by left|].
    intros x [[= <-]|[=]]. eexists. split; [done|]. right. split; [done|lia].
  - exists (Some (tr, fr)). repeat split; [by right|].
    intros x [[=]|[= <-]]. eexists. split; [done|]. right. split; [done|lia].
  - exists None. repeat split; [by left|]. by intros x [[=]|[=]].
Qed.

Lemma Hands_get_repeats_tuple_hardest_witness :
  get_repeats_tuple (Hands.left (Hands.mkHands hand_shifted hand_full)) [0; 0]
  = Ok (Some (REP, M))
  ∧ get_repeats_tuple (Hands.right (Hands.mkHands hand_shifted hand_full))
      [0; 0]
    = Ok (Some (REP, P))
  ∧ ∃ r, Hands.get_repeats_tuple (Hands.mkHands hand_shifted hand_full) [0; 0]
         = Ok r
         ∧ Hands.get_repeats_tuple
             (swap_hands (Hands.mkHands hand_shifted hand_full)) [0; 0]
           = Ok r
         ∧ (r = Some (REP, M) ∨ r = Some (REP, P))
         ∧ ∀ x, Some (REP, M) = Some x ∨ Some (REP, P) = Some x →
             ∃ y, r = Some y ∧ repeats_le x y.
Proof.
  split; [reflexivity|]. split; [reflexivity|].
  apply (Hands_get_repeats_tuple_hardest
           (Hands.mkHands hand_shifted hand_full) [0; 0]); reflexivity.
Defined.

(** ** The permutations as a whole *)

Lemma typed_by_union left right t :
  typed_by left t ∨ typed_by right t →
  Forall (fun k => k ∈ get_union_of_keys left right) t.
Proof.
  unfold typed_by. intros [H|H]; eapply Forall_impl; try exact H;
    intros k Hk; apply elem_of_get_union_of_keys; auto.
Qed.

Lemma elem_of_concat {A} (ls : list (list A)) (x : A) :
  x ∈ concat ls ↔ ∃ l, x ∈ l ∧ l ∈ ls.
Proof.
  induction ls as [|l ls IH]; simpl.
  - split; [by intros ?%elem_of_nil|]. by intros (l & _ & ?%elem_of_nil).
  - rewrite elem_of_app, IH. split.
    + intros [Hx|(l' & Hx & Hl')]; [exists l|exists l']; split; try done;
        [left|by right].
    + intros (l' & Hx & [->|Hl']%elem_of_cons); [by left|right; eauto].
Qed.

Lemma elem_of_create_permutations left right lens t :
  t ∈ create_permutations left right lens
  ↔ length t ∈ lens ∧ (typed_by left t ∨ typed_by right t).
Proof.
  rewrite create_permutations_concat.
  rewrite elem_of_concat. split.
  - intros (block & Ht & Hblock).
    apply list_elem_of_fmap in Hblock as (n & -> & Hn).
    apply list_elem_of_filter in Ht as [Hty Ht].
    apply elem_of_product in Ht as [<- _].
    split; [done|]. by apply permutation_is_typable_spec.
  - intros [Hn Hty]. eexists. split; [|apply list_elem_of_fmap; eauto].
    apply list_elem_of_filter. split; [by apply permutation_is_typable_spec|].
    apply elem_of_product. split; [done|]. by apply typed_by_union.
Qed.

Lemma lex_lt_irrefl t : ¬ lex_lt t t.
Proof. induction t; inversion 1; subst; [lia|auto]. Qed.

Lemma StronglySorted_lex_lt_NoDup (l : list (list Z)) :
  StronglySorted lex_lt l → NoDup l.
Proof.
  induction 1 as [|t l Hs IH Ht]; constructor; [|done].
  intros Hin. rewrite Forall_forall in Ht.
  exact (lex_lt_irrefl t (Ht t Hin)).
Qed.

Lemma create_permutations_NoDup left right lens :
  NoDup lens → NoDup (create_permutations left right lens).
Proof.
  rewrite create_permutations_concat.
  induction 1 as [|n lens Hn Hnd IH]; simpl; [constructor|].
  apply NoDup_app. split; [|split; [|exact IH]].
  - apply StronglySorted_lex_lt_NoDup, StronglySorted_filter_keep,
      product_sorted, get_union_of_keys_sorted.
  - intros t Ht Ht'.
    apply list_elem_of_filter in Ht as [_ Ht].
    apply elem_of_product in Ht as [Hlen _].
    apply elem_of_concat in Ht' as (block & Ht' & Hblock).
    apply list_elem_of_fmap in Hblock as (n' & -> & Hn').
    apply list_elem_of_filter in Ht' as [_ Ht'].
    apply elem_of_product in Ht' as [Hlen' _]. congruence.
Qed.

(** X18. A key sequence is among the permutations exactly when its length
    was requested and one hand has a symbol for each of its keys; when no
    length is requested twice, no permutation is listed twice. *)
Theorem create_permutations_members left right sequence_lengths :
  (∀ t, t ∈ create_permutations left right sequence_lengths
        ↔ length t ∈ sequence_lengths
          ∧ (typed_by left t ∨ typed_by right t))
  ∧ (NoDup sequence_lengths →
     NoDup (create_permutations left right sequence_lengths)).
Proof.
  split; [intros t; apply elem_of_create_permutations|].
  apply create_permutations_NoDup.
Qed.

(** *** How many permutations there are *)

Lemma length_filter_or {A} (P Q : A → Prop)
    `{∀ x, Decision (P x)} `{∀ x, Decision (Q x)} (l : list A) :
  (length (filter (fun x => P x ∨ Q x) l)
   + length (filter (fun x => P x ∧ Q x) l)
   = length (filter P l) + length (filter Q l))%nat.
Proof.
  induction l as [|x l IH]; [done|].
  rewrite !filter_cons.
  repeat case_decide; simpl; try lia; tauto.
Qed.

Lemma length_filter_fmap_cons (S : gset Z) (x : Z) (tails : list (list Z)) :
  length (filter (fun t => Forall (fun k => k ∈ S) t) ((x ::.) <$> tails))
  = if decide (x ∈ S)
    then length (filter (fun t => Forall (fun k => k ∈ S) t) tails)
    else 0%nat.
Proof.
  induction tails as [|t tails IH]; [by destruct (decide _)|].
  rewrite fmap_cons.
  - rewrite (filter_cons _ (x :: t)), (filter_cons _ t).
    destruct (decide (x ∈ S)) as [Hx|Hx].
    + destruct (decide (Forall _ (x :: t))) as [Ht|Ht],
               (decide (Forall _ t)) as [Ht'|Ht']; simpl; rewrite IH;
        try done.
      * by apply Forall_cons in Ht as [_ Ht].
      * destruct Ht. by constructor.
    + destruct (decide (Forall _ (x :: t))) as [Ht|Ht]; [|by rewrite IH].
      by apply Forall_cons in Ht as [Ht _].
Qed.

Lemma length_filter_product (S : gset Z) (keys : list Z) (n : nat) :
  length (filter (fun t => Forall (fun k => k ∈ S) t) (product keys n))
  = (length (filter (fun k => k ∈ S) keys) ^ n)%nat.
Proof.
  induction n as [|n IH]; [done|].
  cbn [product]. rewrite Nat.pow_succ_r', <-IH.
  set (tails := product keys n). clearbody tails. clear IH.
  induction keys as [|x keys IHk]; [done|].
  csimpl. rewrite filter_app, length_app, IHk, length_filter_fmap_cons.
  rewrite (filter_cons _ x). destruct (decide (x ∈ S)); simpl; lia.
Qed.

Lemma length_filter_elem_of (S : gset Z) (keys : list Z) :
  NoDup keys → (∀ k, k ∈ S → k ∈ keys) →
  length (filter (fun k => k ∈ S) keys) = size S.
Proof.
  intros Hnd Hsub. unfold size, set_size. simpl.
  apply Permutation_length, NoDup_Permutation.
  - by apply NoDup_filter.
  - apply NoDup_elements.
  - intros k. rewrite list_elem_of_filter, elem_of_elements.
    split; [by intros [? _]|auto].
Qed.

Lemma get_union_of_keys_NoDup left right : NoDup (get_union_of_keys left right).
Proof.
  unfold get_union_of_keys. rewrite merge_sort_Permutation. apply NoDup_elements.
Qed.

Lemma typed_by_dom h t :
  typed_by h t ↔ Forall (fun k => k ∈ dom (symbols h)) t.
Proof.
  unfold typed_by. apply Forall_proper; [|done]. intros k.
  by rewrite elem_of_dom.
Qed.

Lemma typable_block_length left right n :
  length (filter (fun t => permutation_is_typable left right t = true)
                 (product (get_union_of_keys left right) n))
  = typable_count left right n.
Proof.
  set (keys := get_union_of_keys left right).
  set (L := dom (symbols left)). set (R := dom (symbols right)).
  pose proof (length_filter_or
                (fun t => Forall (fun k => k ∈ L) t)
                (fun t => Forall (fun k => k ∈ R) t)
                (product keys n)) as Hor.
  rewrite (list_filter_iff (fun t => Forall (fun k => k ∈ L) t
                                     ∧ Forall (fun k => k ∈ R) t)
                           (fun t => Forall (fun k => k ∈ L ∩ R) t)) in Hor.
  2:{ intros t. rewrite <-Forall_and. apply Forall_proper; [|done].
      intros k. by rewrite elem_of_intersection. }
  rewrite !length_filter_product in Hor.
  assert (Hsub : ∀ k, k ∈ L ∨ k ∈ R → k ∈ keys).
  { intros k Hk. apply elem_of_get_union_of_keys.
    by rewrite <-!elem_of_dom. }
  rewrite !length_filter_elem_of in Hor;
    try apply get_union_of_keys_NoDup;
    try (intros k Hk; apply Hsub); auto.
  2:{ apply elem_of_intersection in Hk as [Hk _]. by left. }
  rewrite (list_filter_iff _ (fun t => Forall (fun k => k ∈ L) t
                                       ∨ Forall (fun k => k ∈ R) t)).
  2:{ intros t. rewrite permutation_is_typable_spec.
      by rewrite !typed_by_dom. }
  unfold typable_count. fold L R. lia.
Qed.

(** X19. The number of permutations is, summed over the requested lengths
    n, the number of n-tuples over the left hand's keys plus that over the
    right hand's keys, less that over the keys both hands have. *)
Theorem create_permutations_length left right sequence_lengths :
  length (create_permutations left right sequence_lengths)
  = sum_list (typable_count left right <$> sequence_lengths).
Proof.
  rewrite create_permutations_concat.
  induction sequence_lengths as [|n lens IH]; [done|].
  rewrite !fmap_cons. cbn [concat sum_list_with].
  by rewrite length_app, IH, typable_block_length.
Qed.

(** ** Symbols of a sequence *)

Lemma append_assoc (a b c : string) : ((a +:+ b) +:+ c = a +:+ (b +:+ c))%string.
Proof.
  induction a as [|x a IH]; [done|].
  change (String x ((a +:+ b) +:+ c) = String x (a +:+ (b +:+ c)))%string.
  by rewrite IH.
Qed.

Lemma append_nil_r (a : string) : (a +:+ EmptyString = a)%string.
Proof.
  induction a as [|x a IH]; [done|].
  change (String x (a +:+ EmptyString) = String x a)%string.
  by rewrite IH.
Qed.

Lemma get_symbols_loop_typed h t fb acc :
  typed_by h t →
  get_symbols_loop h t fb acc = (acc +:+ symbols_of h t)%string.
Proof.
  revert acc. induction t as [|k t IH]; intros acc Ht; simpl.
  - by rewrite append_nil_r.
  - apply Forall_cons in Ht as [[s Hs] Ht]. rewrite Hs. simpl.
    rewrite IH by done. apply append_assoc.
Qed.

Lemma get_symbols_loop_untyped h t fb acc :
  ¬ typed_by h t → get_symbols_loop h t fb acc = fb.
Proof.
  revert acc. induction t as [|k t IH]; intros acc Ht; simpl.
  - destruct Ht. constructor.
  - destruct (symbols h !! k) as [s|] eqn:Hs; [|done].
    apply IH. intros Ht'. apply Ht. constructor; [by eexists|done].
Qed.

(** X20. [Hand.get_symbols] is all or nothing: a sequence whose keys all
    have a symbol gives their symbols in order, and as soon as one key has
    none (or the sequence is None) the result is the fallback alone. *)
Theorem get_symbols_all_or_nothing h t fallback :
  get_symbols h None fallback = fallback
  ∧ (typed_by h t → get_symbols h (Some t) fallback = symbols_of h t)
  ∧ (¬ typed_by h t → get_symbols h (Some t) fallback = fallback).
Proof.
  split; [done|]. split; intros Ht; unfold get_symbols.
  - by rewrite get_symbols_loop_typed.
  - by apply get_symbols_loop_untyped.
Qed.

(** X21. Every permutation the generator returns can be shown: for the left
    or for the right hand, [Hands.get_symbols] returns the symbols of its
    keys. *)
Theorem create_permutations_displayable left right sequence_lengths t fallback :
  t ∈ create_permutations left right sequence_lengths →
  let hs := Hands.mkHands left right in
  Hands.get_symbols hs Left (Some t) fallback = symbols_of left t
  ∨ Hands.get_symbols hs Right (Some t) fallback = symbols_of right t.
Proof.
  intros Ht hs. apply elem_of_create_permutations in Ht as [_ [Ht|Ht]];
    [left|right]; unfold Hands.get_symbols, get_symbols; simpl;
    by rewrite get_symbols_loop_typed.
Qed.

Lemma create_permutations_displayable_witness :
  [3] ∈ create_permutations hand_xyz hand_abcd [1%nat]
  ∧ (Hands.get_symbols (Hands.mkHands hand_xyz hand_abcd) Left (Some [3])
       "-"%string
     = symbols_of hand_xyz [3]
     ∨ Hands.get_symbols (Hands.mkHands hand_xyz hand_abcd) Right (Some [3])
         "-"%string
       = symbols_of hand_abcd [3]).
Proof.
  assert (Hin : [3] ∈ create_permutations hand_xyz hand_abcd [1%nat]).
  { refine (bool_decide_unpack _ _). vm_compute. exact Logic.I. }
  split; [exact Hin|].
  exact (create_permutations_displayable hand_xyz hand_abcd [1%nat] [3]
           "-"%string Hin).
Defined.

(** ** What a classification tells about the fingers *)

(** X22. A repeat is never reported without cause: the finger returned by
    [Hand.get_repeats_tuple] is the finger of two keys of the sequence,
    which are neighbours unless the repeat is a skipgram; for REP they are
    the same key, and for the two trigram types all keys are on that
    finger. *)
Theorem get_repeats_tuple_sound h ks ty f :
  get_repeats_tuple h ks = Ok (Some (ty, f)) →
  ∃ i j ki kj,
    (i < j)%nat ∧ ks !! i = Some ki ∧ ks !! j = Some kj
    ∧ get_finger h ki = Ok (Some f) ∧ get_finger h kj = Ok (Some f)
    ∧ (ty ≠ SFS → j = S i)
    ∧ (ty = REP → ki = kj)
    ∧ (ty = RSFT ∨ ty = SFT →
       Forall (fun k => get_finger h k = Ok (Some f)) ks).
Proof.
  unfold get_repeats_tuple.
  repeat (case_bool_decide; [done|]).
  destruct ks as [|k0 [|k1 [|k2 [|k3 ks]]]]; simpl in *; try done; try lia.
  - destruct (get_finger h k0) as [f0|] eqn:E0; [|done]. simpl.
    destruct (get_finger h k1) as [f1|] eqn:E1; [|done]. simpl.
    destruct f0 as [a|]; [|done].
    case_bool_decide as Hf; [|done]. subst f1.
    case_bool_decide as Hk; intros [= <- <-];
      exists 0%nat, 1%nat, k0, k1; repeat split; try done; try lia;
      intros [|]; done.
  - destruct (get_finger h k0) as [f0|] eqn:E0; [|done]. simpl.
    destruct (get_finger h k1) as [f1|] eqn:E1; [|done]. simpl.
    destruct (get_finger h k2) as [f2|] eqn:E2; [|done]. simpl.
    destruct f2 as [c|]; [|done]. destruct f0 as [a|]; [|done].
    case_bool_decide as B1.
    { destruct B1 as [[= <-] Hne]. intros [= <- <-].
      exists 0%nat, 2%nat, k0, k2.
      repeat split; try done; try lia; intros [|]; done. }
    case_bool_decide as B2.
    { destruct B2 as [[= <-] <-].
      case_bool_decide as K3; [destruct K3 as [K3 _]|case_bool_decide];
        intros [= <- <-]; exists 0%nat, 1%nat, k0, k1;
        repeat split; try done; try lia;
        intros _; by repeat constructor. }
    case_bool_decide as B3.
    { subst f1.
      case_bool_decide as K; intros [= <- <-]; exists 0%nat, 1%nat, k0, k1;
        repeat split; try done; try lia; intros [|]; done. }
    case_bool_decide as B4; [|done]. subst f1. intros [= <- <-].
    exists 1%nat, 2%nat, k1, k2.
    repeat split; try done; try lia; intros [|]; done.
Qed.

Lemma get_repeats_tuple_sound_witness :
  get_repeats_tuple hand_middle_unassigned [0; 2] = Ok (Some (SFB, I))
  ∧ ∃ i j ki kj,
      (i < j)%nat ∧ [0; 2] !! i = Some ki ∧ [0; 2] !! j = Some kj
      ∧ get_finger hand_middle_unassigned ki = Ok (Some I)
      ∧ get_finger hand_middle_unassigned kj = Ok (Some I)
      ∧ (SFB ≠ SFS → j = S i)
      ∧ (SFB = REP → ki = kj)
      ∧ (SFB = RSFT ∨ SFB = SFT →
         Forall (fun k => get_finger hand_middle_unassigned k = Ok (Some I))
                [0; 2]).
Proof.
  split; [reflexivity|].
  apply (get_repeats_tuple_sound hand_middle_unassigned [0; 2] SFB I).
  reflexivity.
Defined.

(** X23. In a trigram, pressing one key twice is a repeated key only at the
    start: with a key of another finger after it the trigram is REP, with
    that key before it the trigram is a same-finger bigram. *)
Theorem get_repeats_tuple_repeat_position h k k' a c :
  get_finger h k = Ok (Some a) →
  get_finger h k' = Ok (Some c) →
  a ≠ c →
  get_repeats_tuple h [k; k; k'] = Ok (Some (REP, a))
  ∧ get_repeats_tuple h [k'; k; k] = Ok (Some (SFB, a)).
Proof.
  intros Ek Ek' Hne.
  assert (Hf : fingers h ≠ ∅).
  { intros Hf. unfold get_finger in Ek. rewrite Hf in Ek.
    by rewrite lookup_empty in Ek. }
  assert (Hkk : k ≠ k') by (intros ->; congruence).
  unfold get_repeats_tuple.
  rewrite (bool_decide_eq_false_2 _ Hf). simpl.
  rewrite Ek, Ek'. simpl.
  split.
  - rewrite bool_decide_eq_false_2 by (intros [[=] _]; done).
    rewrite bool_decide_eq_false_2 by (intros [[=] _]; done).
    rewrite bool_decide_eq_true_2 by done.
    by rewrite bool_decide_eq_true_2 by done.
  - rewrite bool_decide_eq_false_2 by (intros [[=] _]; done).
    rewrite bool_decide_eq_false_2 by (intros [[=] _]; done).
    rewrite bool_decide_eq_false_2 by (intros [=]; done).
    by rewrite bool_decide_eq_true_2 by done.
Qed.

Lemma get_repeats_tuple_repeat_position_witness :
  get_finger hand_full 0 = Ok (Some P)
  ∧ get_finger hand_full 1 = Ok (Some R)
  ∧ P ≠ R
  ∧ get_repeats_tuple hand_full [0; 0; 1] = Ok (Some (REP, P))
  ∧ get_repeats_tuple hand_full [1; 0; 0] = Ok (Some (SFB, P)).
Proof.
  split; [reflexivity|]. split; [reflexivity|]. split; [discriminate|].
  apply (get_repeats_tuple_repeat_position hand_full 0 1 P R);
    [reflexivity|reflexivity|discriminate].
Defined.

(** X24. A hand reports a direction only for a bigram or trigram all of
    whose keys have a finger; a redirect only for a trigram; and every
    direction other than the easiest redirect involves the pinky. *)
Theorem get_direction_sound h ks d :
  get_direction h ks = Ok (Some d) →
  (length ks = 2%nat ∨ length ks = 3%nat)
  ∧ (is_redirect d = true → length ks = 3%nat)
  ∧ (∀ k, k ∈ ks → ∃ f, get_finger h k = Ok (Some f))
  ∧ (d ≠ Redirect1 → ∃ k, k ∈ ks ∧ get_finger h k = Ok (Some P)).
Proof.
  unfold get_direction.
  repeat (case_bool_decide; [done|]).
  destruct ks as [|k0 [|k1 [|k2 [|k3 ks]]]]; simpl in *; try done; try lia.
  - destruct (get_finger h k0) as [f0|] eqn:E0; [|done]. simpl.
    destruct (get_finger h k1) as [f1|] eqn:E1; [|done]. simpl.
    destruct f0 as [f0|], f1 as [f1|]; try done.
    intros Hd. split; [by left|]. split.
    { destruct f0, f1; vm_compute in Hd; try done; by injection Hd as <-. }
    split.
    { intros k [->|[->|[]%elem_of_nil]%elem_of_cons]%elem_of_cons; eauto. }
    intros _.
    destruct f0, f1; vm_compute in Hd; try done;
      first [exists k0; split; [left|exact E0]
            |exists k1; split; [right; left|exact E1]].
  - destruct (get_finger h k0) as [f0|] eqn:E0; [|done]. simpl.
    destruct (get_finger h k1) as [f1|] eqn:E1; [|done]. simpl.
    destruct f0 as [f0|], f1 as [f1|]; try done.
    destruct (get_finger h k2) as [[f2|]|] eqn:E2; try done. simpl.
    intros Hd. split; [by right|]. split; [done|]. split.
    { intros k [->|[->|[->|[]%elem_of_nil]%elem_of_cons]%elem_of_cons]%elem_of_cons;
        eauto. }
    intros Hne.
    destruct f0, f1, f2; vm_compute in Hd; try done;
      try (injection Hd as <-; done);
      first [exists k0; split; [left|exact E0]
            |exists k1; split; [right; left|exact E1]
            |exists k2; split; [right; right; left|exact E2]].
Qed.

Lemma get_direction_sound_witness :
  get_direction hand_full [0; 1] = Ok (Some InwardsPinkyRing)
  ∧ (length [0; 1] = 2%nat ∨ length [0; 1] = 3%nat)
  ∧ (is_redirect InwardsPinkyRing = true → length [0; 1] = 3%nat)
  ∧ (∀ k, k ∈ [0; 1] → ∃ f, get_finger hand_full k = Ok (Some f))
  ∧ (InwardsPinkyRing ≠ Redirect1 →
     ∃ k, k ∈ [0; 1] ∧ get_finger hand_full k = Ok (Some P)).
Proof.
  split; [reflexivity|].
  apply (get_direction_sound hand_full [0; 1] InwardsPinkyRing). reflexivity.
Defined.
